(** * Kafka consumer runtime: consumer event loop and worker group

    A shallow embedding of [kafka/consumer/group.go] (types [Group] and
    [Consumer]) and the properties of its rebalance reconciliation, offset
    commits, lifecycle notifications, shutdown sequence and group start.

    The Go code talks to a broker reader, to user callbacks, to a logger and
    to an observable.  The embedding threads a [World] through every
    function: the world holds the chronological trace of those interactions
    together with the mutable state of the receiver (cancellation flag,
    mutex, wait group, offset tracker).  What the broker and the callbacks
    answer is given by an environment [Env] of oracles that see the whole
    history, so every sequence of answers is covered. *)

From Stdlib Require Import ZArith List String Bool Lia.
From stdpp Require Import base option gmap strings.
Import ListNotations.

Open Scope Z_scope.
Open Scope string_scope.
Open Scope list_scope.

(** ** Data model *)

(** Go's [error] values that the consumer builds or inspects:
    [kafka.Error] carries a code, [errors.New] a message and [errors.Wrap]
    a message around a cause. *)
Inductive error : Type :=
| KafkaError (code : Z) (str : string)
| ErrorString (msg : string)
| WithMessage (msg : string) (cause : error).

Definition errors_New (msg : string) : error := ErrorString msg.

(** [errors.Wrap] of github.com/pkg/errors: a nil error stays nil. *)
Definition errors_Wrap (err : option error) (msg : string) : option error :=
  match err with
  | None => None
  | Some e => Some (WithMessage msg e)
  end.

(** librdkafka's RD_KAFKA_RESP_ERR__PARTITION_EOF. *)
Definition ErrPartitionEOF : Z := -191.

(** [kafka.TopicPartition]: [Topic] is a [*string], [Partition] an [int32],
    [Offset] an [int64], [Error] an [error]. *)
Record TopicPartition : Type := mkTP {
  Topic : option string;
  Partition : Z;
  Offset : Z;
  Error : option error
}.

Definition OffsetInvalid : Z := -1001.

(** Signed 64-bit wrap-around, as Go computes [int64] arithmetic. *)
Definition wrap64 (z : Z) : Z :=
  (z + 2 ^ 63) mod 2 ^ 64 - 2 ^ 63.

Record Message : Type := mkMessage {
  MsgTopicPartition : TopicPartition;
  MsgKey : string;
  MsgValue : string
}.

(** The events that [c.reader.Events()] delivers. *)
Inductive KEvent : Type :=
| AssignedPartitions (Partitions : list TopicPartition)
| RevokedPartitions (Partitions : list TopicPartition)
| MessageEvent (m : Message)
| PartitionEOF (tp : TopicPartition)
| OffsetsCommitted (Err : option error) (Offsets : list TopicPartition)
| ErrorEvent (code : Z) (str : string)
| OtherEvent (payload : string).

(** What one iteration of the [select] in [listen] receives. [InCtxDone] is
    the case [<-c.ctx.Done()], fired by a [Stop] in another goroutine. *)
Inductive Input : Type :=
| InCtxDone
| InTick
| InEvent (ev : KEvent).

(** Modelled from the spec: the lifecycle states of the observable are not
    among the sources; the spec names them Run and Closed. *)
Inductive State : Type := StateRun | StateClosed.

Inductive Level : Type := Debug | Info | Warn | Error_.

(** Calls on [c.reader], a [*kafka.Consumer]. *)
Inductive Call : Type :=
| SubscribeTopics (topics : list string)
| Unsubscribe
| Unassign
| Close
| Committed (partitions : list TopicPartition) (timeoutMs : Z)
| Assign (partitions : list TopicPartition)
| CommitOffsets (offsets : list TopicPartition)
| Pause (partitions : list TopicPartition)
| Resume (partitions : list TopicPartition)
| GetMetadata (topic : option string) (allTopics : bool) (timeoutMs : Z).

(** Invocations of the user callbacks of the configuration. *)
Inductive Callback : Type :=
| OnError (err : error)
| OnProcess (msg : Message)
| OnCommit (topic : string) (partition : Z) (offset : Z) (committed : Z)
| OnRevoke (partitions : list TopicPartition)
| OnRebalance (partitions : list TopicPartition).

Definition PanicValue : Type := string.

(** A user callback returns (with an error or nil; the callbacks without a
    result return nil) or panics. *)
Inductive Result : Type :=
| Returned (err : option error)
| Panicked (v : PanicValue).

(** A reader call answers with a partition list and an error; calls whose Go
    signature has only an error leave the list unused. *)
Definition Response : Type := (list TopicPartition * option error)%type.

Inductive Event : Type :=
| ELog (lvl : Level) (msg : string)
| EReader (c : Call) (r : Response)
| ECallback (cb : Callback) (r : Result)
| ENotify (s : State)
| ECtxDone (fired : bool)
| ECtxCancel
| ETickerNew (d : Z)
| ETickerStop
| ETimeSleep (d : Z)
| EGo (delay : Z) (partitions : list TopicPartition).

Record Env : Type := mkEnv {
  reader_ : list Event -> Call -> Response;
  callback_ : list Event -> Callback -> Result
}.

(** ** Offset tracker *)

Definition PartitionKey : Type := (option string * Z)%type.

(** Modelled from the spec: [getPartitionKey] is not among the sources; the
    spec describes a partition key as the pair (topic, partition-id) with
    structural equality. *)
Definition getPartitionKey (topic : option string) (partition : Z) : PartitionKey :=
  (topic, partition).

(** Modelled from the spec: the type [offset] and its methods are not among
    the sources; the spec describes the tracker as a mapping from partition
    key to (highest offset seen, processed count). *)
Definition offset : Type := gmap PartitionKey (Z * Z).

(** Modelled from the spec: [newOffset] builds the empty tracker. *)
Definition newOffset : offset := ∅.

(** Modelled from the spec: [Add] ensures an entry for the key, stores the
    offset of the argument verbatim and increments the processed count. *)
Definition Add (p : TopicPartition) (o : offset) : offset :=
  let k := getPartitionKey (Topic p) (Partition p) in
  <[ k := (Offset p, snd (default (0, 0) (o !! k)) + 1) ]> o.

(** Modelled from the spec: [Get] is a snapshot, the list of partition
    offsets to hand to the commit call and the count per key. *)
Definition Get (o : offset) : list TopicPartition * gmap PartitionKey Z :=
  (map (fun kv : PartitionKey * (Z * Z) =>
          mkTP (fst (fst kv)) (snd (fst kv)) (fst (snd kv)) None)
       (map_to_list o),
   snd <$> o).

(** Modelled from the spec: [Remove] deletes the entry with the key of the
    argument, whatever its offset. *)
Definition Remove (p : TopicPartition) (o : offset) : offset :=
  delete (getPartitionKey (Topic p) (Partition p)) o.

(** Modelled from the spec: [Clear] removes every entry. *)
Definition Clear (o : offset) : offset := ∅.

(** Modelled from the spec: [Counter] is the sum of the processed counts. *)
Definition Counter (o : offset) : Z :=
  map_fold (fun (_ : PartitionKey) (v : Z * Z) (acc : Z) => snd v + acc) 0 o.

(** Modelled from the spec: [checkPartitions] is not among the sources; it
    returns the first error embedded in a list of partitions, or nil. *)
Fixpoint checkPartitions (l : list TopicPartition) : option error :=
  match l with
  | [] => None
  | p :: rest =>
      match Error p with
      | Some e => Some e
      | None => checkPartitions rest
      end
  end.

(** ** The world and the monad of consumer code *)

Record World : Type := mkWorld {
  trace : list Event;
  cancelled : bool;
  mu : bool;
  wg : Z;
  tracker : offset
}.

(** A call returns, panics, or never returns ([Blocked]: the select waits
    for an input that never comes, or a lock is never released). *)
Inductive Outcome (A : Type) : Type :=
| Ret (a : A)
| Panic (v : PanicValue)
| Blocked.

Arguments Ret {A} a.
Arguments Panic {A} v.
Arguments Blocked {A}.

Definition M (A : Type) : Type := World -> Outcome A * World.

Definition ret {A : Type} (a : A) : M A := fun w => (Ret a, w).

Definition bind {A B : Type} (m : M A) (k : A -> M B) : M B :=
  fun w =>
    match m w with
    | (Ret a, w1) => k a w1
    | (Panic v, w1) => (Panic v, w1)
    | (Blocked, w1) => (Blocked, w1)
    end.

Declare Scope go_scope.
Delimit Scope go_scope with go.
Notation "x <- m ;; k" := (bind m (fun x => k))
  (at level 100, m at next level, k at level 200, right associativity) : go_scope.
Notation "m ;; k" := (bind m (fun _ => k))
  (at level 100, k at level 200, right associativity) : go_scope.
Open Scope go_scope.

Definition panic {A : Type} (v : PanicValue) : M A := fun w => (Panic v, w).

Definition blocked {A : Type} : M A := fun w => (Blocked, w).

(** Go's [defer d] in front of [body]: [d] runs when [body] returns or
    panics; a panic of [d] replaces the pending result. *)
Definition defer {A : Type} (d : M unit) (body : M A) : M A :=
  fun w =>
    match body w with
    | (Blocked, w1) => (Blocked, w1)
    | (r, w1) =>
        match d w1 with
        | (Ret _, w2) => (r, w2)
        | (Panic v, w2) => (Panic v, w2)
        | (Blocked, w2) => (Blocked, w2)
        end
    end.

(** A deferred function that calls [recover()]: when [body] panics, the
    handler runs on the recovered value and the enclosing function returns
    the current value of its results, [zero] for unnamed results. *)
Definition defer_recover {A : Type} (h : PanicValue -> M unit) (zero : A)
    (body : M A) : M A :=
  fun w =>
    match body w with
    | (Panic v, w1) =>
        match h v w1 with
        | (Ret _, w2) => (Ret zero, w2)
        | (Panic v', w2) => (Panic v', w2)
        | (Blocked, w2) => (Blocked, w2)
        end
    | other => other
    end.

Definition emit (e : Event) : M unit :=
  fun w => (Ret tt, mkWorld (trace w ++ [e]) (cancelled w) (mu w) (wg w) (tracker w)).

Definition log (lvl : Level) (msg : string) : M unit := emit (ELog lvl msg).

(** Modelled from the spec: [observable.notify] is not among the sources;
    the spec has it hand the state to the subscribers without blocking. Here
    a notification is one event of the trace. *)
Definition notify (s : State) : M unit := emit (ENotify s).

(** A call on [c.reader]: the oracle answers on the history so far, and the
    call is recorded with its answer. *)
Definition reader (env : Env) (c : Call) : M Response :=
  fun w =>
    let r := reader_ env (trace w) c in
    (Ret r, mkWorld (trace w ++ [EReader c r]) (cancelled w) (mu w) (wg w) (tracker w)).

(** An invocation of a user callback. What the callback does inside (for
    instance a call of [Sleep] on the sleeper that [OnProcess] is given) is
    part of the oracle and leaves no event of its own. *)
Definition callback (env : Env) (cb : Callback) : M (option error) :=
  fun w =>
    let r := callback_ env (trace w) cb in
    let w1 := mkWorld (trace w ++ [ECallback cb r]) (cancelled w) (mu w) (wg w) (tracker w) in
    match r with
    | Returned e => (Ret e, w1)
    | Panicked v => (Panic v, w1)
    end.

(** [select { case <-c.ctx.Done(): ... default: ... }] *)
Definition ctx_Done : M bool :=
  fun w =>
    (Ret (cancelled w),
     mkWorld (trace w ++ [ECtxDone (cancelled w)]) (cancelled w) (mu w) (wg w) (tracker w)).

Definition ctxCancel : M unit :=
  fun w => (Ret tt, mkWorld (trace w ++ [ECtxCancel]) true (mu w) (wg w) (tracker w)).

Definition mu_Lock : M unit :=
  fun w =>
    if mu w then (Blocked, w)
    else (Ret tt, mkWorld (trace w) (cancelled w) true (wg w) (tracker w)).

Definition mu_Unlock : M unit :=
  fun w => (Ret tt, mkWorld (trace w) (cancelled w) false (wg w) (tracker w)).

Definition wg_Add (n : Z) : M unit :=
  fun w => (Ret tt, mkWorld (trace w) (cancelled w) (mu w) (wg w + n) (tracker w)).

Definition wg_Done : M unit := wg_Add (-1).

Definition wg_Wait : M unit :=
  fun w => if (wg w =? 0)%Z then (Ret tt, w) else (Blocked, w).

Definition getTracker : M offset := fun w => (Ret (tracker w), w).

Definition modifyTracker (f : offset -> offset) : M unit :=
  fun w => (Ret tt, mkWorld (trace w) (cancelled w) (mu w) (wg w) (f (tracker w))).

(** ** Consumer *)

Record Consumer : Type := mkConsumer {
  topics : list string;
  commitOffsetCount : Z;
  commitOffsetDuration : Z
}.

Definition time_Second : Z := 1000000000.

Definition newline : string := String (Ascii.ascii_of_nat 10) EmptyString.

Definition Sprintln (v : PanicValue) : string := String.append v newline.

(** The loop [for i := range success] of [commitOffsets]; [topic] is the
    variable declared before the loop, kept from one item to the next. *)
Fixpoint commitOffsets_each (env : Env) (count : gmap PartitionKey Z)
    (success : list TopicPartition) (topic : string) : M unit :=
  match success with
  | [] => ret tt
  | item :: rest =>
      modifyTracker (Remove item) ;;
      let topic' := match Topic item with Some t => t | None => topic end in
      let countCommitted :=
        default 0 (count !! getPartitionKey (Topic item) (Partition item)) in
      callback env (OnCommit topic' (Partition item) (Offset item) countCommitted) ;;
      commitOffsets_each env count rest topic'
  end.

Definition commitOffsets (env : Env) (c : Consumer) : M unit :=
  consumerOffsets <- getTracker ;;
  let (list_, count) := Get consumerOffsets in
  match list_ with
  | [] => ret tt
  | _ :: _ =>
      resp <- reader env (CommitOffsets list_) ;;
      let (success, err) := resp : Response in
      match err with
      | Some e =>
          log Error_ "failed to commit" ;;
          callback env (OnError e) ;;
          ret tt
      | None =>
          match checkPartitions success with
          | Some e =>
              log Error_ "failed to commit" ;;
              callback env (OnError e) ;;
              ret tt
          | None =>
              log Debug "success" ;;
              commitOffsets_each env count success ""
          end
      end
  end.

(** The loop [for i := range committedOffsets] of [handleRebalance]. *)
Definition reconcile (item : TopicPartition) : TopicPartition :=
  if (0 <=? Offset item)%Z
  then mkTP (Topic item) (Partition item) (wrap64 (Offset item + 1)) (Error item)
  else item.

Definition handleRebalance (env : Env) (c : Consumer)
    (Partitions : list TopicPartition) : M (option error) :=
  commitOffsets env c ;;
  modifyTracker Clear ;;
  match checkPartitions Partitions with
  | Some err =>
      log Error_ "failed to check assigned partitions" ;;
      callback env (OnError err) ;;
      ret (Some err)
  | None =>
      resp <- reader env (Committed Partitions 5000) ;;
      let (committedOffsets, err) := resp : Response in
      match err with
      | Some err =>
          log Error_ "failed to read committed offsets" ;;
          callback env (OnError err) ;;
          ret (Some err)
      | None =>
          let committedOffsets := map reconcile committedOffsets in
          resp <- reader env (Assign committedOffsets) ;;
          match snd (resp : Response) with
          | Some err =>
              log Error_ "failed to set assigned" ;;
              callback env (OnError err) ;;
              ret (Some err)
          | None =>
              callback env (OnRebalance Partitions) ;;
              log Info "success" ;;
              ret None
          end
      end
  end.

Definition handleRevoke (env : Env) (c : Consumer)
    (Partitions : list TopicPartition) : M (option error) :=
  commitOffsets env c ;;
  modifyTracker Clear ;;
  match checkPartitions Partitions with
  | Some err =>
      log Error_ "failed to check revoked partitions" ;;
      callback env (OnError err) ;;
      ret (Some err)
  | None =>
      resp <- reader env Unassign ;;
      match snd (resp : Response) with
      | Some err =>
          log Error_ "failed to unassign" ;;
          callback env (OnError err) ;;
          ret (Some err)
      | None =>
          callback env (OnRevoke Partitions) ;;
          log Info "success" ;;
          ret None
      end
  end.

Definition handleMessage (env : Env) (c : Consumer) (e : Message) : M (option error) :=
  match Error (MsgTopicPartition e) with
  | Some err =>
      log Error_ "failed to check" ;;
      callback env (OnError err) ;;
      ret (Some err)
  | None =>
      perr <- callback env (OnProcess e) ;;
      match perr with
      | Some err =>
          log Error_ "failed to process message" ;;
          ret (Some err)
      | None =>
          modifyTracker (Add (MsgTopicPartition e)) ;;
          (if (0 <? commitOffsetCount c)%Z then
             consumerOffsets <- getTracker ;;
             if (commitOffsetCount c <=? Counter consumerOffsets)%Z
             then commitOffsets env c
             else ret tt
           else ret tt) ;;
          log Debug "success" ;;
          ret None
      end
  end.

(** [err.(kafka.Error)] succeeds and the code is [ErrPartitionEOF]. *)
Definition isPartitionEOF (err : error) : bool :=
  match err with
  | KafkaError code _ => (code =? ErrPartitionEOF)%Z
  | _ => false
  end.

Definition handlePartitionEOF (env : Env) (c : Consumer) (e : TopicPartition) : M (option error) :=
  commitOffsets env c ;;
  modifyTracker Clear ;;
  match Error e with
  | Some err =>
      if isPartitionEOF err then
        log Info "success" ;;
        ret None
      else
        log Error_ "failed to check" ;;
        callback env (OnError err) ;;
        ret (Some err)
  | None =>
      log Info "success" ;;
      ret None
  end.

Definition handleOffsetCommitted (env : Env) (c : Consumer)
    (Err : option error) (Offsets : list TopicPartition) : M (option error) :=
  match Err with
  | Some err =>
      log Error_ "committed offsets" ;;
      callback env (OnError err) ;;
      ret (Some err)
  | None =>
      match checkPartitions Offsets with
      | Some err =>
          log Error_ "failed to check" ;;
          callback env (OnError err) ;;
          ret (Some err)
      | None =>
          log Info "success" ;;
          ret None
      end
  end.

(** The [switch e := ev.(type)] of the event loop; [None] lets the loop go
    on, an error ends it. *)
Definition dispatch (env : Env) (c : Consumer) (ev : KEvent) : M (option error) :=
  match ev with
  | AssignedPartitions ps => handleRebalance env c ps
  | RevokedPartitions ps => handleRevoke env c ps
  | MessageEvent m => handleMessage env c m
  | PartitionEOF tp => handlePartitionEOF env c tp
  | OffsetsCommitted e offs => handleOffsetCommitted env c e offs
  | ErrorEvent code str =>
      log Error_ "error event" ;;
      callback env (OnError (KafkaError code str)) ;;
      ret None
  | OtherEvent _ =>
      log Error_ "unknown event" ;;
      ret None
  end.

(** The [for { select { ... } }] of [listen], one input per iteration.
    When the inputs run out the select waits for ever. *)
Fixpoint listen_loop (env : Env) (c : Consumer) (ins : list Input) : M (option error) :=
  match ins with
  | [] => blocked
  | InCtxDone :: _ =>
      fun w => (Ret None, mkWorld (trace w) true (mu w) (wg w) (tracker w))
  | InTick :: rest =>
      commitOffsets env c ;;
      listen_loop env c rest
  | InEvent ev :: rest =>
      err <- dispatch env c ev ;;
      match err with
      | Some e => ret (Some e)
      | None => listen_loop env c rest
      end
  end.

(** The first deferred function of [listen]. Its own defers log
    [success closed] and then [done] when it ends. *)
Definition listen_closing (env : Env) : M unit :=
  defer (log Info "done")
    (log Info "closing..." ;;
     defer (log Info "success closed")
       (resp <- reader env Unsubscribe ;;
        (match snd (resp : Response) with
         | Some _ => log Error_ "failed to unsubscribe"
         | None =>
             resp <- reader env Unassign ;;
             match snd (resp : Response) with
             | Some _ => log Error_ "failed to unassign"
             | None => ret tt
             end
         end) ;;
        resp <- reader env Close ;;
        match snd (resp : Response) with
        | Some _ => log Error_ "failed to close reader"
        | None => ret tt
        end)).

Definition listen (env : Env) (c : Consumer) (ins : list Input) : M (option error) :=
  log Info "start listener" ;;
  resp <- reader env (SubscribeTopics (topics c)) ;;
  match snd (resp : Response) with
  | Some err => ret (errors_Wrap (Some err) "subscribe to topics failed")
  | None =>
      defer (listen_closing env)
        (modifyTracker (fun _ => newOffset) ;;
         defer (commitOffsets env c)
           (let d := if (commitOffsetDuration c <=? 0)%Z
                     then time_Second * 5
                     else commitOffsetDuration c in
            emit (ETickerNew d) ;;
            defer (emit ETickerStop)
              (listen_loop env c ins)))
  end.

Definition Start (env : Env) (c : Consumer) (ins : list Input) : M (option error) :=
  defer (notify StateClosed)
    (mu_Lock ;;
     defer (ctxCancel ;; mu_Unlock)
       (wg_Add 1 ;;
        defer wg_Done
          (log Info "start" ;;
           defer_recover (fun v => log Error_ (String.append "panic:" (Sprintln v))) None
             (done <- ctx_Done ;;
              if done : bool then
                let err := errors_New "consumer already closed" in
                log Error_ "failed to start consumer" ;;
                ret (Some err)
              else
                notify StateRun ;;
                listen env c ins)))).

Definition Stop : M unit :=
  ctxCancel ;;
  mu_Lock ;;
  defer mu_Unlock wg_Wait.

(** The goroutine that [Sleep] starts. Dereferencing a nil [Topic] for the
    log fields panics. *)
Fixpoint Sleep_probe (env : Env) (partitions : list TopicPartition) : M unit :=
  match partitions with
  | [] => ret tt
  | partition :: rest =>
      resp <- reader env (GetMetadata (Topic partition) false 2000) ;;
      (match snd (resp : Response) with
       | Some _ =>
           match Topic partition with
           | Some _ => log Warn "may be partition haven't been resumed"
           | None => panic "invalid memory address or nil pointer dereference"
           end
       | None => ret tt
       end) ;;
      Sleep_probe env rest
  end.

Definition Sleep_task (env : Env) (delay : Z) (partitions : list TopicPartition) : M unit :=
  emit (ETimeSleep delay) ;;
  done <- ctx_Done ;;
  if done : bool then
    log Warn "service already stopped"
  else
    resp <- reader env (Resume partitions) ;;
    (match snd (resp : Response) with
     | Some _ => log Warn "failed to resume consumer"
     | None => ret tt
     end) ;;
    Sleep_probe env partitions.

Definition Sleep (env : Env) (delay : Z) (partitions : list TopicPartition) : M (option error) :=
  match partitions with
  | [] => ret None
  | _ :: _ =>
      resp <- reader env (Pause partitions) ;;
      match snd (resp : Response) with
      | Some err =>
          log Warn "failed to pause consumer" ;;
          ret (Some err)
      | None =>
          emit (EGo delay partitions) ;;
          ret None
      end
  end.

(** ** Group

    [Group.Start] runs several goroutines that meet on the channel
    [retval]: the caller of [Start], one goroutine that waits for the
    group's context, and one goroutine per consumer.  The embedding is a
    step function on the state of these goroutines; a schedule, the list of
    who moves next, drives it.  A step that the chosen goroutine cannot take
    yet (a send on a full channel, a receive on an empty one, a wait) is
    [None]. *)

Module Group.

(** Where the caller of [Start] stands. *)
Inductive MainPc : Type :=
| MWaitStart
| MCheckCtx
| MMake
| MGoCanceller
| MLaunch (k : nat)
| MReceive
| MStop (v : option error) (k : nat)
| MJoin (v : option error) (k : nat)
| MReturned (v : option error).

(** Where the goroutine [<-g.ctx.Done(); retval <- nil] stands. *)
Inductive CancellerPc : Type :=
| CNotLaunched
| CWaiting
| CSending
| CExited.

(** Where the goroutine of one consumer stands: before [go], before
    [worker.Start()], inside it, at [retval <- ...] with the result, at the
    deferred [g.wg.Done()], gone. *)
Inductive WorkerPc : Type :=
| WNotLaunched
| WLaunched
| WRunning
| WSending (r : option error)
| WSent
| WExited.

Inductive GEvent : Type :=
| GLog (msg : string)
| GMake (capacity : nat)
| GGo (who : option nat)
| GSend (who : option nat) (v : option error)
| GRecv (v : option error)
| GStopCall (k : nat)
| GStopReturn (k : nat).

Record GState : Type := mkG {
  gctx : bool;
  gwg : Z;
  capacity : nat;
  retval : list (option error);
  main : MainPc;
  canceller : CancellerPc;
  workers : list WorkerPc;
  gtrace : list GEvent
}.

(** Who moves: the caller of [Start], the context goroutine, the goroutine
    of consumer [k] (with the result of [worker.Start()], used at the step
    where it returns), or a [Group.Stop] elsewhere cancelling the context. *)
Inductive Choice : Type :=
| ByMain
| ByCanceller
| ByWorker (k : nat) (r : option error)
| ByGroupStop.

Definition init (n : nat) (closed : bool) : GState :=
  mkG closed 0 0 [] MWaitStart CNotLaunched (replicate n WNotLaunched) [].

Definition Start_step (s : GState) : option GState :=
  match main s with
  | MWaitStart =>
      (* g.logger.Info; g.wg.Wait() *)
      if (gwg s =? 0)%Z
      then Some (mkG (gctx s) (gwg s) (capacity s) (retval s) MCheckCtx
                     (canceller s) (workers s) (gtrace s ++ [GLog "wait for start"]))
      else None
  | MCheckCtx =>
      (* select { case <-g.ctx.Done(): return errors.Wrap(err, ...) } with
         the named result err still nil *)
      if gctx s
      then Some (mkG (gctx s) (gwg s) (capacity s) (retval s)
                     (MReturned (errors_Wrap None "consumers group already closed"))
                     (canceller s) (workers s) (gtrace s))
      else Some (mkG (gctx s) (gwg s) (capacity s) (retval s) MMake
                     (canceller s) (workers s) (gtrace s))
  | MMake =>
      (* retval := make(chan error, g.consumers.Len()+1) *)
      let n := (length (workers s) + 1)%nat in
      Some (mkG (gctx s) (gwg s) n [] MGoCanceller
                (canceller s) (workers s) (gtrace s ++ [GMake n]))
  | MGoCanceller =>
      Some (mkG (gctx s) (gwg s) (capacity s) (retval s) (MLaunch 0)
                CWaiting (workers s) (gtrace s ++ [GGo None]))
  | MLaunch k =>
      (* g.wg.Add(1); go func(worker) {...} for the consumer at item k *)
      match workers s !! k with
      | Some _ =>
          Some (mkG (gctx s) (gwg s + 1) (capacity s) (retval s) (MLaunch (S k))
                    (canceller s) (<[ k := WLaunched ]> (workers s))
                    (gtrace s ++ [GGo (Some k)]))
      | None =>
          Some (mkG (gctx s) (gwg s) (capacity s) (retval s) MReceive
                    (canceller s) (workers s) (gtrace s))
      end
  | MReceive =>
      (* return <-retval, then the deferred loop over the consumers *)
      match retval s with
      | v :: rest =>
          Some (mkG (gctx s) (gwg s) (capacity s) rest (MStop v 0)
                    (canceller s) (workers s) (gtrace s ++ [GRecv v]))
      | [] => None
      end
  | MStop v k =>
      (* Stop() of the consumer at item k: c.ctxCancel() *)
      match workers s !! k with
      | Some _ =>
          Some (mkG (gctx s) (gwg s) (capacity s) (retval s) (MJoin v k)
                    (canceller s) (workers s) (gtrace s ++ [GStopCall k]))
      | None =>
          Some (mkG (gctx s) (gwg s) (capacity s) (retval s) (MReturned v)
                    (canceller s) (workers s) (gtrace s))
      end
  | MJoin v k =>
      (* c.mu.Lock(); c.wg.Wait(): held while the consumer is in Start *)
      match workers s !! k with
      | Some WRunning => None
      | _ =>
          Some (mkG (gctx s) (gwg s) (capacity s) (retval s) (MStop v (S k))
                    (canceller s) (workers s) (gtrace s ++ [GStopReturn k]))
      end
  | MReturned _ => None
  end.

Definition canceller_step (s : GState) : option GState :=
  match canceller s with
  | CNotLaunched => None
  | CWaiting =>
      if gctx s
      then Some (mkG (gctx s) (gwg s) (capacity s) (retval s) (main s)
                     CSending (workers s) (gtrace s))
      else None
  | CSending =>
      if (length (retval s) <? capacity s)%nat
      then Some (mkG (gctx s) (gwg s) (capacity s) (retval s ++ [None]) (main s)
                     CExited (workers s) (gtrace s ++ [GSend None None]))
      else None
  | CExited => None
  end.

Definition worker_step (k : nat) (r : option error) (s : GState) : option GState :=
  match workers s !! k with
  | Some WLaunched =>
      Some (mkG (gctx s) (gwg s) (capacity s) (retval s) (main s)
                (canceller s) (<[ k := WRunning ]> (workers s)) (gtrace s))
  | Some WRunning =>
      Some (mkG (gctx s) (gwg s) (capacity s) (retval s) (main s)
                (canceller s) (<[ k := WSending r ]> (workers s)) (gtrace s))
  | Some (WSending v) =>
      if (length (retval s) <? capacity s)%nat
      then Some (mkG (gctx s) (gwg s) (capacity s) (retval s ++ [v]) (main s)
                     (canceller s) (<[ k := WSent ]> (workers s))
                     (gtrace s ++ [GSend (Some k) v]))
      else None
  | Some WSent =>
      Some (mkG (gctx s) (gwg s - 1) (capacity s) (retval s) (main s)
                (canceller s) (<[ k := WExited ]> (workers s)) (gtrace s))
  | _ => None
  end.

(** [g.ctxCancel()] of [Group.Stop]; the [g.wg.Wait()] that follows holds
    the goroutine that called [Stop] and changes nothing here. *)
Definition Stop_cancel (s : GState) : GState :=
  mkG true (gwg s) (capacity s) (retval s) (main s)
      (canceller s) (workers s) (gtrace s).

Definition step (ch : Choice) (s : GState) : option GState :=
  match ch with
  | ByMain => Start_step s
  | ByCanceller => canceller_step s
  | ByWorker k r => worker_step k r s
  | ByGroupStop => Some (Stop_cancel s)
  end.

Fixpoint run (sched : list Choice) (s : GState) : option GState :=
  match sched with
  | [] => Some s
  | ch :: rest =>
      match step ch s with
      | Some s' => run rest s'
      | None => None
      end
  end.

(** The sends on [retval], in order: who sent ([None] is the goroutine of
    the context, [Some k] that of consumer [k]) and what. *)
Definition sends (t : list GEvent) : list (option nat * option error) :=
  flat_map (fun e => match e with GSend who v => [(who, v)] | _ => [] end) t.

(** The consumers whose [Stop] was called, in the order of the calls. *)
Definition stop_calls (t : list GEvent) : list nat :=
  flat_map (fun e => match e with GStopCall k => [k] | _ => [] end) t.

(** The consumers launched on a goroutine, in the order of the [go]. *)
Definition launches (t : list GEvent) : list nat :=
  flat_map (fun e => match e with GGo (Some k) => [k] | _ => [] end) t.

(** A goroutine stands at a send on [retval]. *)
Definition at_send (s : GState) : Prop :=
  canceller s = CSending \/ exists k r, workers s !! k = Some (WSending r).

(** The goroutines that have still to send on [retval]. *)
Definition unsent (p : WorkerPc) : nat :=
  match p with
  | WNotLaunched | WLaunched | WRunning | WSending _ => 1
  | WSent | WExited => 0
  end.

Definition pending (s : GState) : nat :=
  (sum_list (map unsent (workers s)) +
   match canceller s with
   | CExited => 0
   | _ => 1
   end)%nat.

(** Nothing of [Start] has happened yet beyond its first log. *)
Definition fresh (n : nat) (s : GState) : Prop :=
  retval s = [] /\ canceller s = CNotLaunched /\
  workers s = replicate n WNotLaunched /\
  sends (gtrace s) = [] /\ launches (gtrace s) = [] /\ stop_calls (gtrace s) = [].

(** The channel is made, the context goroutine runs. *)
Definition started (n : nat) (s : GState) : Prop :=
  capacity s = (n + 1)%nat /\ canceller s <> CNotLaunched.

(** What the place of the caller of [Start] tells about the rest of the
    state. [Start] returns either from its first check, with nil, on a
    cancelled context and with nothing launched, or after the receive, with
    the first value sent and with [Stop] called on every consumer. *)
Definition phase (n : nat) (s : GState) : Prop :=
  match main s with
  | MWaitStart | MCheckCtx | MMake => fresh n s
  | MGoCanceller => fresh n s /\ capacity s = (n + 1)%nat
  | MLaunch k =>
      started n s /\ (k <= n)%nat /\
      launches (gtrace s) = seq 0 k /\
      (forall i, (k <= i < n)%nat -> workers s !! i = Some WNotLaunched) /\
      map snd (sends (gtrace s)) = retval s /\ stop_calls (gtrace s) = []
  | MReceive =>
      started n s /\ launches (gtrace s) = seq 0 n /\
      map snd (sends (gtrace s)) = retval s /\ stop_calls (gtrace s) = []
  | MStop v k =>
      started n s /\ launches (gtrace s) = seq 0 n /\
      map snd (sends (gtrace s)) = v :: retval s /\
      stop_calls (gtrace s) = seq 0 k /\ (k <= n)%nat
  | MJoin v k =>
      started n s /\ launches (gtrace s) = seq 0 n /\
      map snd (sends (gtrace s)) = v :: retval s /\
      stop_calls (gtrace s) = seq 0 (S k) /\ (k < n)%nat
  | MReturned v =>
      (fresh n s /\ v = None /\ gctx s = true) \/
      (started n s /\ launches (gtrace s) = seq 0 n /\
       map snd (sends (gtrace s)) = v :: retval s /\
       stop_calls (gtrace s) = seq 0 n)
  end.

(** What holds in every state that a schedule reaches from [init n _]. *)
Definition Inv (n : nat) (s : GState) : Prop :=
  length (workers s) = n /\
  (length (sends (gtrace s)) + pending s = n + 1)%nat /\
  (canceller s = CSending \/ canceller s = CExited -> gctx s = true) /\
  (forall v, In (None, v) (sends (gtrace s)) -> v = None /\ canceller s = CExited) /\
  phase n s.

(** What holds in every state reached from a group that was closed before
    [Start]: the caller stands before its check of the context or has
    returned nil, and nothing else has moved. *)
Definition closed_inv (n : nat) (s : GState) : Prop :=
  gctx s = true /\ fresh n s /\
  (main s = MWaitStart \/ main s = MCheckCtx \/ main s = MReturned None).

End Group.

(** ** Reading traces *)

(** The [OnCommit] invocations of a trace, in order. *)
Definition onCommit_calls (t : list Event) : list (string * Z * Z * Z) :=
  flat_map (fun e =>
              match e with
              | ECallback (OnCommit topic p o n) _ => [(topic, p, o, n)]
              | _ => []
              end) t.

(** The lists handed to the commit call, in order. *)
Definition commit_rpcs (t : list Event) : list (list TopicPartition) :=
  flat_map (fun e =>
              match e with
              | EReader (CommitOffsets l) _ => [l]
              | _ => []
              end) t.

(** The lists handed to [Assign], in order. *)
Definition assign_calls (t : list Event) : list (list TopicPartition) :=
  flat_map (fun e =>
              match e with
              | EReader (Assign l) _ => [l]
              | _ => []
              end) t.

(** The states notified to the observable, in order. *)
Definition notifications (t : list Event) : list State :=
  flat_map (fun e => match e with ENotify s => [s] | _ => [] end) t.

(** The calls on the reader, in order. *)
Definition reader_calls (t : list Event) : list Call :=
  flat_map (fun e => match e with EReader c _ => [c] | _ => [] end) t.

(** The panics raised by callbacks, in order. *)
Definition panics (t : list Event) : list PanicValue :=
  flat_map (fun e => match e with ECallback _ (Panicked v) => [v] | _ => [] end) t.

(** What a flush of the tracker may leave in the trace. *)
Definition flush_event (e : Event) : Prop :=
  match e with
  | ELog _ _ => True
  | EReader (CommitOffsets _) _ => True
  | ECallback (OnError _) _ => True
  | ECallback (OnCommit _ _ _ _) _ => True
  | _ => False
  end.

(** What the event loop may leave in the trace while it runs. *)
Definition loop_event (e : Event) : Prop :=
  match e with
  | ELog _ _ => True
  | EReader (CommitOffsets _) _ => True
  | EReader (Committed _ _) _ => True
  | EReader (Assign _) _ => True
  | EReader Unassign _ => True
  | ECallback _ _ => True
  | _ => False
  end.

(** [m] leaves the mutex and the wait group as they are, only adds events
    that satisfy [P] to the trace, and panics exactly when one of its
    callbacks does, with the value of that callback. *)
Definition tame (P : Event -> Prop) {A : Type} (m : M A) : Prop :=
  forall w r w', m w = (r, w') ->
    mu w' = mu w /\ wg w' = wg w /\
    exists d, trace w' = trace w ++ d /\ Forall P d /\
              panics d = match r with Panic v => [v] | _ => [] end.

(** What [Start] may leave in the trace before its event loop is left. *)
Definition running_event (e : Event) : Prop :=
  match e with
  | ETickerStop => False
  | ECtxCancel => False
  | ENotify StateClosed => False
  | EReader Unsubscribe _ => False
  | EReader Close _ => False
  | _ => True
  end.

(** The trace of [listen_closing], given what [Unsubscribe], [Unassign] and
    [Close] answer: [Unassign] is called only when [Unsubscribe] succeeded,
    [Close] is called in every case. *)
Definition closing_events (r1 r2 r3 : Response) : list Event :=
  [ELog Info "closing..."; EReader Unsubscribe r1] ++
  match snd r1 with
  | Some _ => [ELog Error_ "failed to unsubscribe"]
  | None =>
      EReader Unassign r2 ::
      match snd r2 with
      | Some _ => [ELog Error_ "failed to unassign"]
      | None => []
      end
  end ++
  [EReader Close r3] ++
  match snd r3 with
  | Some _ => [ELog Error_ "failed to close reader"]
  | None => []
  end ++
  [ELog Info "success closed"; ELog Info "done"].

Definition closing_trace (d : list Event) : Prop :=
  exists r1 r2 r3, d = closing_events r1 r2 r3.

(** A lifecycle of one consumer: calls of [Start] (with the inputs its
    loop will see) and of [Stop], one after the other. *)
Inductive Op : Type :=
| OpStart (ins : list Input)
| OpStop.

Fixpoint run_ops (env : Env) (c : Consumer) (ops : list Op) : M unit :=
  match ops with
  | [] => ret tt
  | OpStart ins :: rest => Start env c ins ;; run_ops env c rest
  | OpStop :: rest => Stop ;; run_ops env c rest
  end.

Definition count_starts (ops : list Op) : nat :=
  length (List.filter (fun o => match o with OpStart _ => true | OpStop => false end) ops).

Definition count_closed (t : list Event) : nat :=
  length (List.filter (fun s => match s with StateClosed => true | StateRun => false end)
                 (notifications t)).

(** [call] is the invocation of [OnCommit] that [commitOffsets] makes for
    the committed partition [item], given the counts of the snapshot. *)
Definition commit_call_of (count : gmap PartitionKey Z) (item : TopicPartition)
    (call : string * Z * Z * Z) : Prop :=
  let '(topic, p, o, n) := call in
  (forall t, Topic item = Some t -> topic = t) /\
  p = Partition item /\
  o = Offset item /\
  n = default 0 (count !! getPartitionKey (Topic item) (Partition item)).

(** How [handleRebalance] turns a committed offset [c] into the partition
    [a] that it assigns: an offset that is not negative goes up by one (in
    64-bit arithmetic, so by exactly one below the largest [int64]), a
    negative one, such as [OffsetInvalid], stays. *)
Definition reconciled (c a : TopicPartition) : Prop :=
  Topic a = Topic c /\ Partition a = Partition c /\ Error a = Error c /\
  (0 <= Offset c -> Offset a = wrap64 (Offset c + 1)) /\
  (0 <= Offset c < 2 ^ 63 - 1 -> Offset a = Offset c + 1) /\
  (Offset c < 0 -> Offset a = Offset c).

(** The trace of one flush of the tracker: flush events only, with at most
    one commit call, which carries a list that is not empty. *)
Definition one_flush (flush : list Event) : Prop :=
  Forall flush_event flush /\
  (commit_rpcs flush = [] \/ exists l, l <> [] /\ commit_rpcs flush = [l]).

(** The polls of the context ([select] on [ctx.Done()] with a default) of a
    trace, in order, with what they saw. *)
Definition ctx_checks (t : list Event) : list bool :=
  flat_map (fun e => match e with ECtxDone b => [b] | _ => [] end) t.

(** The notifications of a lifecycle: every [Start] notifies [StateClosed],
    after [StateRun] when the consumer was not closed before the call. *)
Fixpoint lifecycle_notifications (closed : bool) (ops : list Op) : list State :=
  match ops with
  | [] => []
  | OpStop :: rest => lifecycle_notifications true rest
  | OpStart _ :: rest =>
      (if closed then [StateClosed] else [StateRun; StateClosed]) ++
      lifecycle_notifications true rest
  end.

(** ** Scenarios

    A broker that accepts every call, answers [Committed] with offset 41 on
    partition 0 of topic T and confirms the offsets it is asked to commit;
    callbacks that accept everything. *)
Module Scenario.

Definition tp (o : Z) : TopicPartition := mkTP (Some "T") 0 o None.

Definition message (o : Z) : Input :=
  InEvent (MessageEvent (mkMessage (tp o) "" "")).

Definition broker (h : list Event) (c : Call) : Response :=
  match c with
  | Committed _ _ => ([tp 41], None)
  | CommitOffsets l => (l, None)
  | _ => ([], None)
  end.

Definition env : Env := mkEnv broker (fun _ _ => Returned None).

(** The same broker, with an [OnProcess] that panics. *)
Definition env_panic : Env :=
  mkEnv broker
        (fun _ cb => match cb with
                     | OnProcess _ => Panicked "boom"
                     | _ => Returned None
                     end).

(** A broker whose commit call fails. *)
Definition env_commit_fails : Env :=
  mkEnv (fun _ c => match c with
                    | CommitOffsets _ => ([], Some (KafkaError (-1) "broker down"))
                    | _ => ([], None)
                    end)
        (fun _ _ => Returned None).

(** A broker whose [Committed] call fails. *)
Definition env_committed_fails : Env :=
  mkEnv (fun _ c => match c with
                    | Committed _ _ => ([], Some (KafkaError (-185) "timed out"))
                    | _ => ([], None)
                    end)
        (fun _ _ => Returned None).

Definition idle : World := mkWorld [] false false 0 newOffset.

Definition closed : World := mkWorld [] true false 0 newOffset.

(** A world whose tracker holds one processed message. *)
Definition tracking : World := mkWorld [] false false 0 (Add (tp 13) newOffset).

Definition consumer (count : Z) : Consumer := mkConsumer ["T"] count 0.

(** The partitions of a rebalance: offset unset. *)
Definition assigned : list TopicPartition := [tp OffsetInvalid].

Definition rebalanced : World :=
  snd (handleRebalance env (consumer 0) assigned idle).

(** One message, then the context is cancelled. *)
Definition one_message : list Input := [message 11; InCtxDone].

Definition stopped : World := snd (Start env (consumer 0) one_message idle).

(** One message whose handler panics. *)
Definition crashed : World := snd (Start env_panic (consumer 0) [message 11] idle).

(** A consumer started, stopped, and started again. *)
Definition restarted : list Op := [OpStart [InCtxDone]; OpStop; OpStart []].

(** A consumer stopped before its first start. *)
Definition stopped_first : list Op := [OpStop; OpStart []].

Definition delay : Z := 200000000.

(** A group of one consumer whose [Start] fails: the caller launches, the
    worker runs, returns and sends, the caller receives, stops the consumer
    and returns. *)
Definition failure : option error := Some (ErrorString "handler failed").

Definition worker_first : list Group.Choice :=
  [Group.ByMain; Group.ByMain; Group.ByMain; Group.ByMain; Group.ByMain;
   Group.ByMain; Group.ByWorker 0 None; Group.ByWorker 0 failure;
   Group.ByWorker 0 None; Group.ByMain; Group.ByMain; Group.ByMain;
   Group.ByMain].

(** The same group stopped from outside before its consumer returns: the
    goroutine of the context sends first. *)
Definition cancelled_first : list Group.Choice :=
  [Group.ByMain; Group.ByMain; Group.ByMain; Group.ByMain; Group.ByMain;
   Group.ByMain; Group.ByGroupStop; Group.ByCanceller; Group.ByCanceller;
   Group.ByMain; Group.ByMain; Group.ByMain; Group.ByMain].

(** A group closed before [Start]: the caller waits, checks, returns. *)
Definition closed_start : list Group.Choice := [Group.ByMain; Group.ByMain].

End Scenario.


(** ** Further readers of traces *)

(** The errors handed to [OnError], in order. *)
Definition onError_calls (t : list Event) : list error :=
  flat_map (fun e => match e with ECallback (OnError err) _ => [err] | _ => [] end) t.

(** The messages handed to [OnProcess], in order. *)
Definition onProcess_calls (t : list Event) : list Message :=
  flat_map (fun e => match e with ECallback (OnProcess m) _ => [m] | _ => [] end) t.

(** The goroutines started by [Sleep], in order: delay and partitions. *)
Definition spawned (t : list Event) : list (Z * list TopicPartition) :=
  flat_map (fun e => match e with EGo d ps => [(d, ps)] | _ => [] end) t.

(** The number of calls of [Close] on the reader. *)
Definition close_calls (t : list Event) : nat :=
  length (flat_map (fun e => match e with EReader Close _ => [tt] | _ => [] end) t).

(** The commit call that a flush of the tracker [o] makes: one call with
    the snapshot, none when the snapshot is empty. *)
Definition flush_rpc (o : offset) : list (list TopicPartition) :=
  match fst (Get o) with
  | [] => []
  | l => [l]
  end.

(** The events after which the select of [listen] goes on in every case:
    a tick of the commit ticker, an error event of the client, an event of
    a type the switch does not know. *)
Definition informational (i : Input) : Prop :=
  match i with
  | InTick => True
  | InEvent (ErrorEvent _ _) => True
  | InEvent (OtherEvent _) => True
  | _ => False
  end.

(** The partition lists handed to [OnRebalance], in order. *)
Definition onRebalance_calls (t : list Event) : list (list TopicPartition) :=
  flat_map (fun e => match e with ECallback (OnRebalance ps) _ => [ps] | _ => [] end) t.

(** How often a trace unsubscribes the reader. *)
Definition unsubscribe_calls (t : list Event) : nat :=
  length (flat_map (fun e => match e with EReader Unsubscribe _ => [tt] | _ => [] end) t).

(** The callbacks invoked in a trace, in order. *)
Definition callback_calls (t : list Event) : list Callback :=
  flat_map (fun e => match e with ECallback cb _ => [cb] | _ => [] end) t.

(** ** The wait group of [Group] *)

(** A goroutine of a consumer that was launched and has not yet run its
    deferred [g.wg.Done()]. *)
Definition live (p : Group.WorkerPc) : nat :=
  match p with
  | Group.WLaunched | Group.WRunning | Group.WSending _ | Group.WSent => 1
  | Group.WNotLaunched | Group.WExited => 0
  end.

(** The counter of [g.wg] is the number of live goroutines, and the place
    of the caller of [Start] tells which consumers are launched. *)
Definition wg_inv (n : nat) (s : Group.GState) : Prop :=
  length (Group.workers s) = n /\
  Group.gwg s = Z.of_nat (sum_list (map live (Group.workers s))) /\
  match Group.main s with
  | Group.MWaitStart | Group.MCheckCtx | Group.MMake | Group.MGoCanceller =>
      Group.workers s = replicate n Group.WNotLaunched
  | Group.MLaunch k =>
      (forall i p, (i < k)%nat -> Group.workers s !! i = Some p -> p <> Group.WNotLaunched) /\
      (forall i, (k <= i < n)%nat -> Group.workers s !! i = Some Group.WNotLaunched)
  | Group.MReceive | Group.MStop _ _ | Group.MJoin _ _ =>
      forall i p, Group.workers s !! i = Some p -> p <> Group.WNotLaunched
  | Group.MReturned _ =>
      Group.workers s = replicate n Group.WNotLaunched \/
      forall i p, Group.workers s !! i = Some p -> p <> Group.WNotLaunched
  end.

(** The caller of [Start] has left the loop that launches the consumers
    and is on its way through the receive and the deferred stops. *)
Definition launched_all (s : Group.GState) : Prop :=
  match Group.main s with
  | Group.MReceive | Group.MStop _ _ | Group.MJoin _ _ => True
  | _ => False
  end.

(** ** NewGroup

    What [NewGroup] asks of its surroundings: the result of
    [uuid.NewUUID], the number of processors, and the result of the call
    number [i] of the constructor [New] ([None]: the consumer is made). *)
Record GroupEnv : Type := mkGroupEnv {
  uuid_NewUUID : option error;
  runtime_NumCPU : Z;
  New_ : nat -> option error
}.

(** The loop [for i := 0; i < workers; i++] of [NewGroup], with the
    iterations left to do and the consumers pushed to the list so far, each
    named by the call of [New] that made it.  On a failure the function
    returns at once; the consumers made so far are handed back here to tell
    how many calls of [New] were made. *)
Fixpoint NewGroup_loop (env : GroupEnv) (todo : nat) (consumers : list nat)
    : list nat * option error :=
  match todo with
  | O => (consumers, None)
  | S todo' =>
      let i := length consumers in
      match New_ env i with
      | Some err => (consumers, errors_Wrap (Some err) "failed to start consumer group")
      | None => NewGroup_loop env todo' (consumers ++ [i])
      end
  end.

(** [NewGroup]: the group it returns, as the state in which [Start] finds
    it (context not cancelled, wait group at zero, one place per consumer),
    its error, and the consumers that [New] made. *)
Definition NewGroup (env : GroupEnv) (Workers : Z)
    : option Group.GState * option error * list nat :=
  match uuid_NewUUID env with
  | Some err => (None, Some err, [])
  | None =>
      let workers := if (Workers <=? 0)%Z then runtime_NumCPU env else Workers in
      match NewGroup_loop env (Z.to_nat workers) [] with
      | (made, Some err) => (None, Some err, made)
      | (made, None) => (Some (Group.init (length made) false), None, made)
      end
  end.

(** ** More readers of traces *)

(** The topic that [commitOffsets] reports for the partition at place [i]
    of the answer of the commit call: its own, or that of the nearest
    partition before it that names one, or the empty string. *)
Definition reported_topic (success : list TopicPartition) (i : nat) : string :=
  default "" (last (omap Topic (take (S i) success))).

(** The periods of the tickers that a trace creates, in order. *)
Definition tickers (t : list Event) : list Z :=
  flat_map (fun e => match e with ETickerNew d => [d] | _ => [] end) t.

(** [m] only adds to the trace. *)
Definition grows {A : Type} (m : M A) : Prop :=
  forall w r w', m w = (r, w') -> exists d, trace w' = trace w ++ d.

(** ** More scenarios *)
Module Cases.
Import Scenario.

(** The partitions of a revocation. *)
Definition revoked : list TopicPartition := [tp 5].

Definition after_revoke : World :=
  snd (handleRevoke env (consumer 0) revoked tracking).

(** The end of partition 0 of T, as the reader reports it. *)
Definition eof : TopicPartition :=
  mkTP (Some "T") 0 7 (Some (KafkaError ErrPartitionEOF "Broker: No more messages")).

Definition after_eof : World :=
  snd (handlePartitionEOF env (consumer 0) eof tracking).

(** A commit reported as failed. *)
Definition commit_failure : error := KafkaError (-1) "broker down".

Definition after_report : World :=
  snd (handleOffsetCommitted env (consumer 0) (Some commit_failure) [] tracking).

(** The scenario's broker with an [OnProcess] that returns an error. *)
Definition process_error : error := ErrorString "handler failed".

Definition env_process_fails : Env :=
  mkEnv broker
        (fun _ cb => match cb with
                     | OnProcess _ => Returned (Some process_error)
                     | _ => Returned None
                     end).

Definition after_refusal : World :=
  snd (handleMessage env_process_fails (consumer 0) (mkMessage (tp 11) "" "") idle).

Definition after_lost : World :=
  snd (dispatch env_commit_fails (consumer 0) (RevokedPartitions revoked) tracking).

Definition after_sleep : World := snd (Sleep env delay revoked idle).

Definition after_task : World := snd (Sleep_task env delay revoked idle).

(** A tick, an error event and an event of an unknown type. *)
Definition informational_inputs : list Input :=
  [InTick; InEvent (ErrorEvent (-195) "Local: Broker transport failure");
   InEvent (OtherEvent "stats")].

Definition refused : World :=
  snd (Start env_process_fails (consumer 0) [message 11] idle).

(** What is tried on the consumer after its first start has returned. *)
Definition later_ops : list Op := [OpStop; OpStart [message 11]; OpStart []].

Definition after_first : World :=
  snd (run_ops env (consumer 0) [OpStart [InCtxDone]] idle).

(** A group of one consumer at the receive of [Start], its consumer inside
    its own [Start]. *)
Definition at_receive : list Group.Choice :=
  [Group.ByMain; Group.ByMain; Group.ByMain; Group.ByMain; Group.ByMain;
   Group.ByMain; Group.ByWorker 0 None].

(** The same group, stopped from outside while [Start] waits. *)
Definition stop_at_receive : list Group.Choice := at_receive ++ [Group.ByGroupStop].

(** Four processors, and a third call of [New] that fails. *)
Definition no_broker : error := ErrorString "create reader failed".

Definition third_fails : GroupEnv :=
  mkGroupEnv None 4
             (fun i => match i with
                       | 2%nat => Some no_broker
                       | _ => None
                       end).

(** A broker that confirms two partitions, the second without its topic. *)
Definition confirmed : list TopicPartition :=
  [mkTP (Some "T") 0 14 None; mkTP None 1 3 None].

Definition env_no_topic : Env :=
  mkEnv (fun _ c => match c with
                    | CommitOffsets _ => (confirmed, None)
                    | _ => ([], None)
                    end)
        (fun _ _ => Returned None).

Definition after_commit : World := snd (commitOffsets env_no_topic (consumer 0) tracking).

Definition after_listen : World := snd (listen env (consumer 0) [InCtxDone] idle).

End Cases.

(** ** The monad: how the combinators treat the trace *)

Lemma tame_weaken (P Q : Event -> Prop) {A : Type} (m : M A) :
  (forall e, P e -> Q e) -> tame P m -> tame Q m.
Proof.
  intros HPQ Hm w r w' E. destruct (Hm w r w' E) as (H1 & H2 & d & H3 & H4 & H5).
  repeat split; auto. exists d. repeat split; auto.
  eapply Forall_impl; eauto.
Qed.

Lemma panics_app (t1 t2 : list Event) :
  panics (t1 ++ t2) = panics t1 ++ panics t2.
Proof. unfold panics. apply flat_map_app. Qed.

Lemma tame_ret (P : Event -> Prop) {A : Type} (a : A) : tame P (ret a).
Proof.
  intros w r w' E. inversion E; subst. repeat split; auto.
  exists []. rewrite app_nil_r. auto.
Qed.

Lemma tame_blocked (P : Event -> Prop) {A : Type} : tame P (@blocked A).
Proof.
  intros w r w' E. inversion E; subst. repeat split; auto.
  exists []. rewrite app_nil_r. auto.
Qed.

Lemma tame_bind (P : Event -> Prop) {A B : Type} (m : M A) (k : A -> M B) :
  tame P m -> (forall a, tame P (k a)) -> tame P (bind m k).
Proof.
  intros Hm Hk w r w' E. unfold bind in E.
  destruct (m w) as [o w1] eqn:Em.
  destruct (Hm _ _ _ Em) as (H1 & H2 & d & H3 & H4 & H5).
  destruct o as [a | v | ].
  - destruct (Hk a _ _ _ E) as (K1 & K2 & d' & K3 & K4 & K5).
    repeat split; try congruence.
    exists (d ++ d'). repeat split.
    + rewrite K3, H3, app_assoc. reflexivity.
    + apply Forall_app; auto.
    + rewrite panics_app, H5, K5. reflexivity.
  - inversion E; subst. repeat split; auto. exists d; auto.
  - inversion E; subst. repeat split; auto. exists d; auto.
Qed.

Lemma tame_emit (P : Event -> Prop) (e : Event) :
  P e -> panics [e] = [] -> tame P (emit e).
Proof.
  intros He Hp w r w' E. inversion E; subst. simpl. repeat split; auto.
  exists [e]. auto.
Qed.

Lemma tame_log (P : Event -> Prop) (lvl : Level) (msg : string) :
  P (ELog lvl msg) -> tame P (log lvl msg).
Proof. intros H. apply tame_emit; auto. Qed.

Lemma tame_reader (P : Event -> Prop) (env : Env) (c : Call) :
  (forall r, P (EReader c r)) -> tame P (reader env c).
Proof.
  intros He w r w' E. inversion E; subst. simpl. repeat split; auto.
  eexists [_]. auto.
Qed.

Lemma tame_callback (P : Event -> Prop) (env : Env) (cb : Callback) :
  (forall r, P (ECallback cb r)) -> tame P (callback env cb).
Proof.
  intros He w r w' E. unfold callback in E.
  destruct (callback_ env (trace w) cb) eqn:Ec; inversion E; subst; simpl;
    repeat split; auto; eexists [_]; repeat split; auto; simpl; rewrite Ec; auto.
Qed.

Lemma tame_getTracker (P : Event -> Prop) : tame P getTracker.
Proof.
  intros w r w' E. inversion E; subst. repeat split; auto.
  exists []. rewrite app_nil_r. auto.
Qed.

Lemma tame_modifyTracker (P : Event -> Prop) (f : offset -> offset) :
  tame P (modifyTracker f).
Proof.
  intros w r w' E. inversion E; subst. simpl. repeat split; auto.
  exists []. rewrite app_nil_r. auto.
Qed.

(** Breaks a goal [tame P m] along the structure of [m]. *)
Ltac tame_step :=
  match goal with
  | |- tame _ (bind _ _) => apply tame_bind; [ | intros ? ]
  | |- tame _ (ret _) => apply tame_ret
  | |- tame _ blocked => apply tame_blocked
  | |- tame _ (log _ _) => apply tame_log; exact I
  | |- tame _ (reader _ _) => apply tame_reader; intros ?; exact I
  | |- tame _ (callback _ _) => apply tame_callback; intros ?; exact I
  | |- tame _ getTracker => apply tame_getTracker
  | |- tame _ (modifyTracker _) => apply tame_modifyTracker
  | |- tame _ (match ?x with _ => _ end) => destruct x eqn:?
  | |- tame _ (let (_, _) := ?x in _) => destruct x eqn:?
  end.

Ltac tame_auto := repeat (tame_step; simpl).

Lemma tame_commitOffsets_each (env : Env) (count : gmap PartitionKey Z)
    (success : list TopicPartition) (topic : string) :
  tame flush_event (commitOffsets_each env count success topic).
Proof.
  revert topic. induction success as [ | item rest IH]; intros topic; simpl.
  - apply tame_ret.
  - tame_auto; apply IH.
Qed.

Lemma tame_commitOffsets (env : Env) (c : Consumer) :
  tame flush_event (commitOffsets env c).
Proof.
  unfold commitOffsets. tame_auto. apply tame_commitOffsets_each.
Qed.

(** ** commitOffsets *)

Arguments Get : simpl never.
Arguments Counter : simpl never.

Lemma onCommit_calls_app (t1 t2 : list Event) :
  onCommit_calls (t1 ++ t2) = onCommit_calls t1 ++ onCommit_calls t2.
Proof. unfold onCommit_calls. apply flat_map_app. Qed.

Lemma commitOffsets_each_returns (env : Env) (count : gmap PartitionKey Z)
    (success : list TopicPartition) (topic : string) (w w' : World) :
  commitOffsets_each env count success topic w = (Ret tt, w') ->
  tracker w' = fold_left (fun o item => Remove item o) success (tracker w) /\
  exists calls,
    onCommit_calls (trace w') = onCommit_calls (trace w) ++ calls /\
    Forall2 (commit_call_of count) success calls.
Proof.
  revert topic w. induction success as [ | item rest IH]; intros topic w E.
  - inversion E; subst. split; auto. exists []. rewrite app_nil_r. auto.
  - simpl in E. unfold bind, modifyTracker, callback in E. simpl in E.
    match type of E with
    | context [callback_ env ?h ?cb] => destruct (callback_ env h cb) eqn:Ecb
    end; [ | discriminate ].
    apply IH in E. simpl in E. destruct E as (Ht & calls & Hc & Hf).
    split; [ exact Ht | ].
    eexists (_ :: calls). split.
    + rewrite Hc, onCommit_calls_app. simpl. rewrite <- app_assoc. reflexivity.
    + constructor; auto. simpl. repeat split; auto.
      intros t Et. rewrite Et. reflexivity.
Qed.

(** C10. [commitOffsets] leaves the tracker alone unless the commit went
    through: with an empty snapshot it does nothing at all (no commit call,
    no callback); when the commit call fails or a returned partition carries
    an error it returns with the tracker unchanged and without any
    [OnCommit]; after a commit that succeeded it removes the returned
    partitions from the tracker and invokes [OnCommit] once per returned
    partition. *)
Theorem commitOffsets_atomic (env : Env) (c : Consumer) (w : World) :
  let snapshot := fst (Get (tracker w)) in
  let count := snd (Get (tracker w)) in
  let resp := reader_ env (trace w) (CommitOffsets snapshot) in
  let r := fst (commitOffsets env c w) in
  let w' := snd (commitOffsets env c w) in
  (snapshot = [] -> r = Ret tt /\ w' = w) /\
  (snapshot <> [] ->
   snd resp <> None \/ checkPartitions (fst resp) <> None ->
   tracker w' = tracker w /\
   onCommit_calls (trace w') = onCommit_calls (trace w) /\
   commit_rpcs (trace w') = commit_rpcs (trace w) ++ [snapshot]) /\
  (snapshot <> [] ->
   snd resp = None -> checkPartitions (fst resp) = None ->
   r = Ret tt ->
   tracker w' = fold_left (fun o item => Remove item o) (fst resp) (tracker w) /\
   exists calls,
     onCommit_calls (trace w') = onCommit_calls (trace w) ++ calls /\
     Forall2 (commit_call_of count) (fst resp) calls).
Proof.
  cbv zeta. destruct (commitOffsets env c w) as [r w'] eqn:E. cbn [fst snd].
  unfold commitOffsets, bind, getTracker in E.
  destruct (Get (tracker w)) as [list_ count] eqn:EG. cbn [fst snd].
  destruct list_ as [ | p rest].
  { inversion E; subst. split; [ intros _; split; reflexivity | ].
    split; intros H; exfalso; apply H; reflexivity. }
  split; [ intros H; discriminate | ].
  unfold reader in E. simpl in E.
  destruct (reader_ env (trace w) (CommitOffsets (p :: rest))) as [success err] eqn:ER.
  cbn [fst snd].
  assert (X : forall e w1,
             trace w1 = trace w ++ [EReader (CommitOffsets (p :: rest)) (success, err)] ->
             tracker w1 = tracker w ->
             (log Error_ "failed to commit" ;; callback env (OnError e) ;; ret tt) w1 = (r, w') ->
             tracker w' = tracker w /\
             onCommit_calls (trace w') = onCommit_calls (trace w) /\
             commit_rpcs (trace w') = commit_rpcs (trace w) ++ [p :: rest]).
  { intros e w1 Ht Hk E1. unfold bind, log, emit, callback in E1. simpl in E1.
    destruct (callback_ env _ (OnError e)); inversion E1; subst; simpl; rewrite Ht;
      unfold onCommit_calls, commit_rpcs; rewrite !flat_map_app; simpl;
      rewrite !app_nil_r; auto. }
  split.
  - intros _ Hfail.
    destruct err as [e | ].
    + eapply X; [ | | exact E]; reflexivity.
    + destruct (checkPartitions success) as [e | ] eqn:EC.
      * eapply X; [ | | exact E]; reflexivity.
      * destruct Hfail as [H | H]; exfalso; apply H; reflexivity.
  - intros _ Herr Hchk Hr. subst err r. rewrite Hchk in E.
    unfold log, emit in E. simpl in E.
    apply commitOffsets_each_returns in E. simpl in E.
    destruct E as (Ht & calls & Hc & Hf).
    split; [ exact Ht | ]. exists calls. split; auto.
    rewrite Hc, !onCommit_calls_app. simpl. rewrite !app_nil_r. reflexivity.
Qed.

(** ** handleRebalance *)

Lemma wrap64_small (z : Z) : - 2 ^ 63 <= z < 2 ^ 63 -> wrap64 z = z.
Proof.
  intros H. unfold wrap64. rewrite Z.mod_small; lia.
Qed.

Lemma reconcile_reconciled (cs : list TopicPartition) :
  Forall2 reconciled cs (map reconcile cs).
Proof.
  induction cs as [ | c cs IH]; simpl; constructor; auto.
  unfold reconciled, reconcile.
  destruct (Z.leb_spec 0 (Offset c)); simpl; repeat split; auto; try lia.
  intros H1. apply wrap64_small. lia.
Qed.

Lemma assign_calls_app (t1 t2 : list Event) :
  assign_calls (t1 ++ t2) = assign_calls t1 ++ assign_calls t2.
Proof. unfold assign_calls. apply flat_map_app. Qed.

Lemma commitOffsets_panic (env : Env) (c : Consumer) (w w' : World) (v : PanicValue) :
  commitOffsets env c w = (Panic v, w') ->
  exists d, trace w' = trace w ++ d /\ In v (panics d).
Proof.
  intros E. destruct (tame_commitOffsets env c _ _ _ E) as (_ & _ & d & H1 & _ & H2).
  exists d. split; auto. rewrite H2. simpl. auto.
Qed.

Lemma commitOffsets_not_blocked (env : Env) (c : Consumer) (w w' : World) :
  commitOffsets env c w <> (Blocked, w').
Proof.
  intros E. unfold commitOffsets, bind, getTracker in E.
  destruct (Get (tracker w)) as [list_ count].
  destruct list_ as [ | p rest]; [ inversion E | ].
  unfold reader in E. simpl in E.
  destruct (reader_ env (trace w) (CommitOffsets (p :: rest))) as [success err].
  assert (X : forall e w1,
             (log Error_ "failed to commit" ;; callback env (OnError e) ;; ret tt) w1
               <> (Blocked, w')).
  { intros e w1 E1. unfold bind, log, emit, callback in E1. simpl in E1.
    destruct (callback_ env _ (OnError e)); inversion E1. }
  destruct err as [e | ]; [ eapply X; exact E | ].
  destruct (checkPartitions success) as [e | ]; [ eapply X; exact E | ].
  unfold log, emit in E. simpl in E.
  match type of E with
  | commitOffsets_each _ _ _ ?t ?w1 = _ => generalize dependent w1; generalize t
  end.
  clear. induction success as [ | item rest IH]; intros topic w1 E.
  - inversion E.
  - simpl in E. unfold bind, modifyTracker, callback in E. simpl in E.
    match type of E with
    | context [callback_ env ?h ?cb] => destruct (callback_ env h cb) eqn:Ecb
    end; [ eapply IH; eauto | inversion E ].
Qed.

(** C1. For an [AssignedPartitions] event, [handleRebalance] first flushes;
    then, unless a partition of the event carries an error, it asks the
    reader for the committed offsets of exactly the assigned partitions with
    a timeout of 5000 ms.  When that fails the handler calls [OnError] and
    returns the error, no [Assign] is made and the event loop ends with the
    same result.  Otherwise the very next call is [Assign], with the list
    obtained from the answer by raising every offset that is not negative by
    one and keeping the negative ones (such as -1001). *)
Theorem handleRebalance_reconciles (env : Env) (c : Consumer)
    (ps : list TopicPartition) (w : World) (r : Outcome (option error)) (w' : World) :
  handleRebalance env c ps w = (r, w') ->
  exists flush tail,
    trace w' = trace w ++ flush ++ tail /\
    Forall flush_event flush /\
    ((exists v, r = Panic v /\ In v (panics flush) /\ tail = []) \/
     match checkPartitions ps with
     | Some e =>
         exists res,
           tail = [ELog Error_ "failed to check assigned partitions";
                   ECallback (OnError e) res]
     | None =>
         exists cs err rest,
           tail = EReader (Committed ps 5000) (cs, err) :: rest /\
           match err with
           | Some e =>
               assign_calls rest = [] /\
               (r = Ret (Some e) \/ exists v, r = Panic v /\ In v (panics rest)) /\
               forall more,
                 listen_loop env c (InEvent (AssignedPartitions ps) :: more) w = (r, w')
           | None =>
               exists l ra rest2,
                 rest = EReader (Assign l) ra :: rest2 /\
                 assign_calls rest2 = [] /\
                 Forall2 reconciled cs l
           end
     end).
Proof.
  intros E. pose proof E as E0. unfold handleRebalance, bind in E.
  destruct (commitOffsets env c w) as [o w1] eqn:Ec.
  destruct (tame_commitOffsets env c _ _ _ Ec) as (_ & _ & flush & Hf & HF & _).
  exists flush.
  destruct o as [[] | v | ].
  2:{ inversion E; subst. exists []. rewrite app_nil_r. repeat split; auto.
      left. exists v. repeat split; auto.
      apply commitOffsets_panic in Ec. destruct Ec as (d & Hd & Hin).
      rewrite Hf in Hd. apply app_inv_head in Hd. subst d. exact Hin. }
  2:{ exfalso. eapply commitOffsets_not_blocked; eauto. }
  unfold modifyTracker in E. simpl in E.
  destruct (checkPartitions ps) as [e | ] eqn:Echk.
  - unfold log, emit, callback in E. simpl in E.
    destruct (callback_ env _ (OnError e)); inversion E; subst;
      (eexists; split;
       [ simpl; rewrite Hf, <- !app_assoc; simpl; reflexivity
       | split; [ exact HF | right; eexists; reflexivity ] ]).
  - cbn [trace] in E.
    destruct (reader_ env (trace w1) (Committed ps 5000)) as [cs err] eqn:ER.
    destruct err as [e | ].
    + unfold log, emit, callback in E. simpl in E.
      destruct (callback_ env _ (OnError e)) as [e' | v] eqn:Ecb;
        inversion E; subst;
        (eexists; split;
         [ simpl; rewrite Hf, <- !app_assoc; simpl; reflexivity
         | split; [ exact HF | right ] ]);
        exists cs, (Some e); eexists; (split; [ reflexivity | ]);
        (split; [ reflexivity | split ]).
      * left. reflexivity.
      * intros more. simpl. unfold bind. unfold dispatch. rewrite E0. reflexivity.
      * right. exists v. split; auto. simpl. auto.
      * intros more. simpl. unfold bind. unfold dispatch. rewrite E0. reflexivity.
    + simpl in E.
      match type of E with
      | context [reader_ env ?h (Assign ?l)] =>
          destruct (reader_ env h (Assign l)) as [x ea] eqn:EA
      end.
      simpl in E.
      assert (G : forall tl, assign_calls tl = [] ->
                  trace w' = trace w1 ++
                    EReader (Committed ps 5000) (cs, None) ::
                    EReader (Assign (map reconcile cs)) (x, ea) :: tl ->
                  exists tail,
                    trace w' = trace w ++ flush ++ tail /\
                    Forall flush_event flush /\
                    ((exists v, r = Panic v /\ In v (panics flush) /\ tail = []) \/
                     exists cs0 err rest,
                       tail = EReader (Committed ps 5000) (cs0, err) :: rest /\
                       match err with
                       | Some e =>
                           assign_calls rest = [] /\
                           (r = Ret (Some e) \/
                            exists v, r = Panic v /\ In v (panics rest)) /\
                           forall more,
                             listen_loop env c
                               (InEvent (AssignedPartitions ps) :: more) w = (r, w')
                       | None =>
                           exists l ra rest2,
                             rest = EReader (Assign l) ra :: rest2 /\
                             assign_calls rest2 = [] /\
                             Forall2 reconciled cs0 l
                       end)).
      { intros tl Htl Ht. eexists. split; [ | split; [ exact HF | right ] ].
        - rewrite Ht, Hf, <- !app_assoc. reflexivity.
        - exists cs, None. eexists. split; [ reflexivity | ].
          exists (map reconcile cs), (x, ea), tl. repeat split; auto.
          apply reconcile_reconciled. }
      destruct ea as [e | ].
      * unfold log, emit, callback in E. simpl in E.
        destruct (callback_ env _ (OnError e)); inversion E; subst; simpl;
          (eapply G; [ | rewrite <- !app_assoc; simpl; reflexivity ]); reflexivity.
      * unfold log, emit, callback in E. simpl in E.
        destruct (callback_ env _ (OnRebalance ps)); inversion E; subst; simpl;
          (eapply G; [ | rewrite <- !app_assoc; simpl; reflexivity ]); reflexivity.
Qed.

(** ** handleMessage *)

Lemma commit_rpcs_app (t1 t2 : list Event) :
  commit_rpcs (t1 ++ t2) = commit_rpcs t1 ++ commit_rpcs t2.
Proof. unfold commit_rpcs. apply flat_map_app. Qed.

Lemma commitOffsets_each_rpcs (env : Env) (count : gmap PartitionKey Z)
    (success : list TopicPartition) (topic : string) (w : World)
    (r : Outcome unit) (w' : World) :
  commitOffsets_each env count success topic w = (r, w') ->
  commit_rpcs (trace w') = commit_rpcs (trace w).
Proof.
  revert topic w. induction success as [ | item rest IH]; intros topic w E.
  - inversion E; subst. reflexivity.
  - simpl in E. unfold bind, modifyTracker, callback in E. simpl in E.
    match type of E with
    | context [callback_ env ?h ?cb] => destruct (callback_ env h cb) eqn:Ecb
    end.
    + apply IH in E. simpl in E. rewrite E, commit_rpcs_app. simpl.
      apply app_nil_r.
    + inversion E; subst. simpl. rewrite commit_rpcs_app. simpl. apply app_nil_r.
Qed.

(** A flush makes one commit call, with the snapshot, unless the snapshot
    is empty. *)
Lemma commitOffsets_rpcs (env : Env) (c : Consumer) (w : World)
    (r : Outcome unit) (w' : World) :
  commitOffsets env c w = (r, w') ->
  commit_rpcs (trace w') =
  commit_rpcs (trace w) ++
  match fst (Get (tracker w)) with
  | [] => []
  | l => [l]
  end.
Proof.
  intros E. unfold commitOffsets, bind, getTracker in E.
  destruct (Get (tracker w)) as [list_ count]. cbn [fst].
  destruct list_ as [ | p rest].
  { inversion E; subst. symmetry. apply app_nil_r. }
  unfold reader in E. simpl in E.
  destruct (reader_ env (trace w) (CommitOffsets (p :: rest))) as [success err].
  assert (X : forall e w1,
             commit_rpcs (trace w1) = commit_rpcs (trace w) ++ [p :: rest] ->
             (log Error_ "failed to commit" ;; callback env (OnError e) ;; ret tt) w1
               = (r, w') ->
             commit_rpcs (trace w') = commit_rpcs (trace w) ++ [p :: rest]).
  { intros e w1 Ht E1. unfold bind, log, emit, callback in E1. simpl in E1.
    destruct (callback_ env _ (OnError e)); inversion E1; subst; simpl;
      rewrite !commit_rpcs_app, Ht; simpl; rewrite !app_nil_r; reflexivity. }
  assert (Y : forall t, commit_rpcs ((trace w ++ [EReader (CommitOffsets (p :: rest)) t]))
                        = commit_rpcs (trace w) ++ [p :: rest]).
  { intros t. rewrite commit_rpcs_app. reflexivity. }
  destruct err as [e | ].
  - eapply X; [ | exact E]. apply Y.
  - destruct (checkPartitions success) as [e | ].
    + eapply X; [ | exact E]. apply Y.
    + unfold log, emit in E. simpl in E.
      apply commitOffsets_each_rpcs in E. simpl in E.
      rewrite E, commit_rpcs_app, Y. simpl. apply app_nil_r.
Qed.

Lemma Get_Add_nonempty (p : TopicPartition) (o : offset) :
  fst (Get (Add p o)) <> [].
Proof.
  unfold Get, Add. cbn [fst]. intros H.
  apply map_eq_nil in H. apply map_to_list_empty_iff in H.
  revert H. apply insert_non_empty.
Qed.

(** C7. When a message without an embedded error has been processed with
    success, its offset is added to the tracker and then a commit follows
    exactly when [commitOffsetCount] is positive and the counter of the
    tracker has reached it; otherwise (so always when [commitOffsetCount] is
    0) no commit call is made by the handler, the tracker keeps the added
    offset and the handler returns nil. *)
Theorem handleMessage_count_flush (env : Env) (c : Consumer) (e : Message)
    (w : World) (r : Outcome (option error)) (w' : World) :
  handleMessage env c e w = (r, w') ->
  Error (MsgTopicPartition e) = None ->
  callback_ env (trace w) (OnProcess e) = Returned None ->
  let added := Add (MsgTopicPartition e) (tracker w) in
  let due := 0 < commitOffsetCount c /\ commitOffsetCount c <= Counter added in
  (due ->
   fst (Get added) <> [] /\
   commit_rpcs (trace w') = commit_rpcs (trace w) ++ [fst (Get added)]) /\
  (~ due ->
   commit_rpcs (trace w') = commit_rpcs (trace w) /\
   tracker w' = added /\ r = Ret None) /\
  (commit_rpcs (trace w') <> commit_rpcs (trace w) <-> due).
Proof.
  intros E Herr Hproc added due.
  unfold handleMessage in E. rewrite Herr in E.
  unfold bind, callback in E. rewrite Hproc in E.
  unfold modifyTracker, getTracker in E. cbn [trace cancelled mu wg tracker] in E.
  fold added in E.
  assert (Hne : fst (Get added) <> []) by apply Get_Add_nonempty.
  assert (A : due ->
              commit_rpcs (trace w') = commit_rpcs (trace w) ++ [fst (Get added)]).
  { intros [H1 H2].
    destruct (Z.ltb_spec 0 (commitOffsetCount c)); [ | lia ].
    cbn [tracker] in E.
    destruct (Z.leb_spec (commitOffsetCount c) (Counter added)); [ | lia ].
    match type of E with
    | context [commitOffsets env c ?w1] =>
        destruct (commitOffsets env c w1) as [o w2] eqn:Ec
    end.
    apply commitOffsets_rpcs in Ec. cbn [trace tracker] in Ec.
    rewrite commit_rpcs_app in Ec.
    change (commit_rpcs [ECallback (OnProcess e) (Returned None)])
      with (@nil (list TopicPartition)) in Ec.
    rewrite app_nil_r in Ec.
    assert (Hw : commit_rpcs (trace w') = commit_rpcs (trace w2)).
    { destruct o as [[] | v | ]; inversion E; subst; auto.
      simpl. rewrite commit_rpcs_app. simpl. apply app_nil_r. }
    rewrite Hw, Ec. destruct (fst (Get added)); [ congruence | reflexivity ]. }
  assert (B : ~ due ->
              commit_rpcs (trace w') = commit_rpcs (trace w) /\
              tracker w' = added /\ r = Ret None).
  { intros Hn.
    destruct (Z.ltb_spec 0 (commitOffsetCount c)).
    - cbn [tracker] in E.
      destruct (Z.leb_spec (commitOffsetCount c) (Counter added)).
      + exfalso. apply Hn. split; assumption.
      + inversion E; subst. simpl. rewrite !commit_rpcs_app. simpl.
        rewrite !app_nil_r. auto.
    - inversion E; subst. simpl. rewrite !commit_rpcs_app. simpl.
      rewrite !app_nil_r. auto. }
  split; [ auto | ]. split; [ exact B | ]. split.
  - intros Hd.
    destruct (Z.ltb_spec 0 (commitOffsetCount c));
      [ destruct (Z.leb_spec (commitOffsetCount c) (Counter added)) | ].
    + split; assumption.
    + exfalso. apply Hd. apply B. unfold due. lia.
    + exfalso. apply Hd. apply B. unfold due. lia.
  - intros Hd Heq. apply A in Hd. rewrite Hd in Heq.
    apply (f_equal (@length _)) in Heq. rewrite length_app in Heq. simpl in Heq. lia.
Qed.

(** ** The event loop *)

Lemma flush_loop_event (e : Event) : flush_event e -> loop_event e.
Proof. destruct e as [ | [] | [] | | | | | | | ]; simpl; auto. Qed.

Lemma loop_running_event (e : Event) : loop_event e -> running_event e.
Proof. destruct e as [ | [] | [] | [] | | | | | | ]; simpl; auto. Qed.

Lemma tame_commitOffsets_loop (env : Env) (c : Consumer) :
  tame loop_event (commitOffsets env c).
Proof.
  eapply tame_weaken; [ apply flush_loop_event | apply tame_commitOffsets ].
Qed.

Ltac tame_loop :=
  repeat first [ apply tame_commitOffsets_loop | tame_step; simpl ].

Lemma tame_dispatch (env : Env) (c : Consumer) (ev : KEvent) :
  tame loop_event (dispatch env c ev).
Proof.
  destruct ev; simpl.
  - unfold handleRebalance. tame_loop.
  - unfold handleRevoke. tame_loop.
  - unfold handleMessage. tame_loop.
  - unfold handlePartitionEOF. tame_loop.
  - unfold handleOffsetCommitted. tame_loop.
  - tame_loop.
  - tame_loop.
Qed.

Lemma tame_listen_loop (env : Env) (c : Consumer) (ins : list Input) :
  tame loop_event (listen_loop env c ins).
Proof.
  induction ins as [ | i rest IH]; simpl.
  - apply tame_blocked.
  - destruct i as [ | | ev].
    + intros w r w' E. inversion E; subst. simpl. repeat split; auto.
      exists []. rewrite app_nil_r. auto.
    + apply tame_bind; [ apply tame_commitOffsets_loop | intros _; exact IH ].
    + apply tame_bind; [ apply tame_dispatch | intros [e | ]; [ apply tame_ret | exact IH ] ].
Qed.

Lemma panics_closing_events (r1 r2 r3 : Response) :
  panics (closing_events r1 r2 r3) = [].
Proof.
  unfold closing_events.
  destruct (snd r1), (snd r2), (snd r3); reflexivity.
Qed.

Lemma listen_closing_run (env : Env) (w : World) (r : Outcome unit) (w' : World) :
  listen_closing env w = (r, w') ->
  r = Ret tt /\ cancelled w' = cancelled w /\ mu w' = mu w /\ wg w' = wg w /\
  exists d, trace w' = trace w ++ d /\ closing_trace d.
Proof.
  intros E. unfold listen_closing, defer, bind, log, emit, reader in E. simpl in E.
  remember (reader_ env (trace w ++ [ELog Info "closing..."]) Unsubscribe) as r1 eqn:E1.
  destruct r1 as [x1 [e1 | ]]; simpl in E.
  - match type of E with
    | context [reader_ env ?h Close] => remember (reader_ env h Close) as r3 eqn:E3
    end.
    destruct r3 as [x3 [e3 | ]]; simpl in E; inversion E; subst; simpl;
      repeat split; eexists; (split; [ rewrite <- !app_assoc; simpl; reflexivity | ]).
    + exists (x1, Some e1), ([], None), (x3, Some e3). reflexivity.
    + exists (x1, Some e1), ([], None), (x3, None). reflexivity.
  - match type of E with
    | context [reader_ env ?h Unassign] => remember (reader_ env h Unassign) as r2 eqn:E2
    end.
    destruct r2 as [x2 [e2 | ]]; simpl in E;
      match type of E with
      | context [reader_ env ?h Close] => remember (reader_ env h Close) as r3 eqn:E3
      end;
      destruct r3 as [x3 [e3 | ]]; simpl in E; inversion E; subst; simpl;
        repeat split; eexists; (split; [ rewrite <- !app_assoc; simpl; reflexivity | ]).
    + exists (x1, None), (x2, Some e2), (x3, Some e3). reflexivity.
    + exists (x1, None), (x2, Some e2), (x3, None). reflexivity.
    + exists (x1, None), (x2, None), (x3, Some e3). reflexivity.
    + exists (x1, None), (x2, None), (x3, None). reflexivity.
Qed.

Lemma defer_inv {A : Type} (d : M unit) (body : M A) (w : World)
    (r : Outcome A) (w' : World) :
  defer d body w = (r, w') ->
  exists rb w1,
    body w = (rb, w1) /\
    match rb with
    | Blocked => r = Blocked /\ w' = w1
    | _ =>
        exists rd, d w1 = (rd, w') /\
                   r = match rd with
                       | Ret _ => rb
                       | Panic v => Panic v
                       | Blocked => Blocked
                       end
    end.
Proof.
  intros E. unfold defer in E. destruct (body w) as [rb w1].
  exists rb, w1. split; auto.
  destruct rb as [a | v | ].
  - destruct (d w1) as [rd w2]. exists rd.
    destruct rd as [[] | v' | ]; inversion E; auto.
  - destruct (d w1) as [rd w2]. exists rd.
    destruct rd as [[] | v' | ]; inversion E; auto.
  - inversion E; auto.
Qed.

Lemma commitOffsets_one_flush (env : Env) (c : Consumer) (w : World)
    (r : Outcome unit) (w' : World) (flush : list Event) :
  commitOffsets env c w = (r, w') ->
  trace w' = trace w ++ flush ->
  Forall flush_event flush ->
  one_flush flush.
Proof.
  intros E Ht HF. split; [ exact HF | ].
  apply commitOffsets_rpcs in E. rewrite Ht, commit_rpcs_app in E.
  apply app_inv_head in E. rewrite E.
  destruct (fst (Get (tracker w))) as [ | p l].
  - left. reflexivity.
  - right. exists (p :: l). split; [ discriminate | reflexivity ].
Qed.

Arguments listen_loop : simpl never.
Arguments commitOffsets : simpl never.
Arguments listen_closing : simpl never.

(** What a call of [listen] leaves behind: the subscription, the ticker,
    the events of the loop and, when the loop is left, the shutdown. *)
Lemma listen_run (env : Env) (c : Consumer) (ins : list Input) (w : World)
    (r : Outcome (option error)) (w' : World) :
  listen env c ins w = (r, w') ->
  let h := trace w ++ [ELog Info "start listener"] in
  let resp := reader_ env h (SubscribeTopics (topics c)) in
  mu w' = mu w /\ wg w' = wg w /\
  match snd resp with
  | Some e =>
      r = Ret (Some (WithMessage "subscribe to topics failed" e)) /\
      trace w' = h ++ [EReader (SubscribeTopics (topics c)) resp]
  | None =>
      exists d body,
        trace w' = h ++ [EReader (SubscribeTopics (topics c)) resp; ETickerNew d] ++ body /\
        ((r = Blocked /\ Forall loop_event body /\ panics body = []) \/
         exists loopd flush closing,
           body = loopd ++ [ETickerStop] ++ flush ++ closing /\
           Forall loop_event loopd /\ one_flush flush /\
           closing_trace closing /\
           match r with
           | Ret _ => panics (loopd ++ flush) = []
           | Panic v => exists q, panics (loopd ++ flush) = q ++ [v]
           | Blocked => False
           end)
  end.
Proof.
  intros E h resp. unfold listen, bind, log, emit, reader in E.
  cbn [trace cancelled mu wg tracker] in E. fold h in E. fold resp in E.
  cbv beta iota zeta in E.
  destruct resp as [x [e | ]] eqn:Eresp; cbn [snd] in *.
  { inversion E; subst. simpl. auto. }
  apply defer_inv in E. destruct E as (r1 & w1 & E & Hclose).
  unfold bind, modifyTracker in E. cbn [trace cancelled mu wg tracker] in E.
  cbv beta iota in E.
  apply defer_inv in E. destruct E as (r2 & w2 & E & Hflush).
  unfold bind, emit in E. cbn [trace cancelled mu wg tracker] in E.
  cbv beta iota in E.
  apply defer_inv in E. destruct E as (r3 & w3 & E & Hstop).
  destruct (tame_listen_loop env c ins _ _ _ E) as (L1 & L2 & loopd & L3 & L4 & L5).
  cbn [trace cancelled mu wg tracker] in L1, L2, L3.
  assert (B : r3 = Blocked ->
              r = Blocked /\ w' = w3).
  { intros ->. destruct Hstop as [-> ->]. destruct Hflush as [-> ->].
    destruct Hclose as [-> ->]. auto. }
  destruct r3 as [x3 | v3 | ].
  3:{ destruct (B eq_refl) as [-> ->].
      split; [ exact L1 | split; [ exact L2 | ] ].
      eexists _, loopd. split.
      - rewrite L3, <- !app_assoc. reflexivity.
      - left. auto. }
  all: destruct Hstop as (rd & Hd & ->); unfold emit in Hd; inversion Hd; subst rd w2;
    clear Hd; cbn iota in Hflush;
    destruct Hflush as (rf & Hf & ->);
    assert (NB : rf <> Blocked)
      by (intros ->; eapply commitOffsets_not_blocked; exact Hf);
    destruct (tame_commitOffsets env c _ _ _ Hf) as (F1 & F2 & flush & F3 & F4 & F5);
    pose proof (commitOffsets_one_flush env c _ _ _ _ Hf F3 F4) as F6;
    cbn [trace cancelled mu wg tracker] in F1, F2, F3;
    (destruct rf as [[] | vf | ]; [ | | exfalso; apply NB; reflexivity ]);
    cbn iota in Hclose; destruct Hclose as (rc & Hc & ->);
    apply listen_closing_run in Hc;
    destruct Hc as (-> & C1 & C2 & C3 & closing & C4 & C5);
    (split; [ congruence | split; [ congruence | ] ]);
    eexists _, (loopd ++ [ETickerStop] ++ flush ++ closing);
    (split; [ rewrite C4, F3, L3, <- !app_assoc; reflexivity | right ]);
    exists loopd, flush, closing;
    (split; [ reflexivity | ]); repeat (split; [ assumption | ]);
    rewrite panics_app, L5, F5; simpl; eauto.
  - exists []. reflexivity.
  - exists []. reflexivity.
  - exists [v3]. reflexivity.
Qed.

Arguments listen : simpl never.

(** Brings both sides of an equation between traces to the same shape. *)
Ltac trace_eq :=
  repeat first [ rewrite <- app_assoc | rewrite <- app_comm_cons ];
  simpl; reflexivity.

(** What a call of [Start] leaves behind. *)
Lemma Start_run (env : Env) (c : Consumer) (ins : list Input) (w : World)
    (r : Outcome (option error)) (w' : World) :
  Start env c ins w = (r, w') ->
  mu w = false ->
  (r = Blocked \/ (cancelled w' = true /\ mu w' = false /\ wg w' = wg w)) /\
  if cancelled w then
    r = Ret (Some (errors_New "consumer already closed")) /\
    trace w' = trace w ++ [ELog Info "start"; ECtxDone true;
                           ELog Error_ "failed to start consumer";
                           ECtxCancel; ENotify StateClosed]
  else
    let h := trace w ++ [ELog Info "start"; ECtxDone false; ENotify StateRun;
                         ELog Info "start listener"] in
    let resp := reader_ env h (SubscribeTopics (topics c)) in
    match snd resp with
    | Some e =>
        r = Ret (Some (WithMessage "subscribe to topics failed" e)) /\
        trace w' = h ++ [EReader (SubscribeTopics (topics c)) resp;
                         ECtxCancel; ENotify StateClosed]
    | None =>
        exists d,
          (exists body,
             r = Blocked /\
             trace w' = h ++ [EReader (SubscribeTopics (topics c)) resp; ETickerNew d] ++ body /\
             Forall loop_event body /\ panics body = []) \/
          (exists loopd flush closing rec,
             trace w' = h ++ [EReader (SubscribeTopics (topics c)) resp; ETickerNew d] ++
                        loopd ++ [ETickerStop] ++ flush ++ closing ++ rec ++
                        [ECtxCancel; ENotify StateClosed] /\
             Forall loop_event loopd /\ one_flush flush /\
             closing_trace closing /\
             ((panics (loopd ++ flush) = [] /\ rec = [] /\ exists x, r = Ret x) \/
              (exists q v,
                 panics (loopd ++ flush) = q ++ [v] /\
                 rec = [ELog Error_ (String.append "panic:" (Sprintln v))] /\
                 r = Ret None)))
    end.
Proof.
  intros E Hmu. unfold Start in E.
  apply defer_inv in E. destruct E as (r1 & w1 & E & Hn).
  unfold bind at 1, mu_Lock in E. rewrite Hmu in E.
  apply defer_inv in E. destruct E as (r2 & w2 & E & Hc).
  unfold bind at 1, wg_Add in E. cbn [trace cancelled mu wg tracker] in E.
  apply defer_inv in E. destruct E as (r3 & w3 & E & Hd).
  unfold bind at 1, log, emit in E. cbn [trace cancelled mu wg tracker] in E.
  unfold defer_recover, bind at 1, ctx_Done in E.
  cbn [trace cancelled mu wg tracker] in E.
  (* the deferred functions of Start, applied to the result of the body *)
  assert (D : forall x, r3 = Ret x ->
              r = Ret x /\ cancelled w' = true /\ mu w' = false /\ wg w' = wg w3 + -1 /\
              trace w' = trace w3 ++ [ECtxCancel; ENotify StateClosed]).
  { intros x ->. destruct Hd as (rd & Hd & ->). unfold wg_Done, wg_Add in Hd.
    inversion Hd; subst rd w2; clear Hd. cbn iota in Hc.
    destruct Hc as (rd & Hc & ->).
    unfold bind, ctxCancel, mu_Unlock in Hc. cbn [trace cancelled mu wg tracker] in Hc.
    inversion Hc; subst rd w1; clear Hc. cbn iota in Hn.
    destruct Hn as (rd & Hn & ->). unfold notify, emit in Hn.
    inversion Hn; subst; simpl. rewrite <- app_assoc. auto. }
  destruct (cancelled w) eqn:Hcan.
  - unfold bind, log, emit in E. cbn [trace cancelled mu wg tracker] in E.
    inversion E; subst r3 w3; clear E.
    destruct (D _ eq_refl) as (-> & D1 & D2 & D3 & D4).
    cbn [trace cancelled mu wg tracker] in D3, D4.
    split; [ right; repeat split; auto; lia | ]. split; [ reflexivity | ].
    rewrite D4. trace_eq.
  - unfold bind at 1, notify, emit in E. cbn [trace cancelled mu wg tracker] in E.
    match type of E with
    | context [listen env c ins ?w0] =>
        destruct (listen env c ins w0) as [rl wl] eqn:El
    end.
    apply listen_run in El. cbn [trace cancelled mu wg tracker] in El.
    cbv zeta in El. destruct El as (L1 & L2 & El).
    rewrite <- !app_assoc in El. simpl in El. cbv zeta.
    match type of El with
    | context [reader_ env ?h0 ?c0] => destruct (reader_ env h0 c0) as [x [e | ]] eqn:Er
    end; cbn [snd] in *.
    + destruct El as (-> & Ht). inversion E; subst r3 w3; clear E.
      destruct (D _ eq_refl) as (-> & D1 & D2 & D3 & D4).
      split; [ right; repeat split; auto; lia | ]. split; [ reflexivity | ].
      rewrite D4, Ht. trace_eq.
    + destruct El as (d & body & Ht & [ (-> & B1 & B2) | (loopd & flush & closing & Hb & B1 & B2 & B3 & B4) ]).
      * inversion E; subst r3 w3; clear E.
        destruct Hd as [-> ->]. destruct Hc as [-> ->]. destruct Hn as [-> ->].
        split; [ left; reflexivity | ]. exists d. left. exists body.
        split; [ reflexivity | ].
        split; [ rewrite Ht; trace_eq | auto ].
      * subst body. destruct rl as [xl | vl | ]; [ | | contradiction ].
        -- inversion E; subst r3 w3; clear E.
           destruct (D _ eq_refl) as (-> & D1 & D2 & D3 & D4).
           split; [ right; repeat split; auto; lia | ]. exists d. right.
           exists loopd, flush, closing, [].
           split; [ rewrite D4, Ht; trace_eq | ].
           repeat (split; [ assumption | ]).
           left. repeat split; auto. eauto.
        -- unfold log, emit in E. inversion E; subst r3 w3; clear E.
           destruct (D _ eq_refl) as (-> & D1 & D2 & D3 & D4).
           cbn [trace cancelled mu wg tracker] in D3, D4.
           split; [ right; repeat split; auto; lia | ]. exists d. right.
           exists loopd, flush, closing,
             [ELog Error_ (String.append "panic:" (Sprintln vl))].
           split; [ rewrite D4, Ht; trace_eq | ].
           repeat (split; [ assumption | ]).
           right. destruct B4 as (q & B4). exists q, vl. auto.
Qed.

(** ** Start *)

Lemma Start_locked (env : Env) (c : Consumer) (ins : list Input) (w : World) :
  mu w = true -> Start env c ins w = (Blocked, w).
Proof.
  intros H. unfold Start, defer, bind, mu_Lock. rewrite H. reflexivity.
Qed.

Lemma Start_returns_unlocked (env : Env) (c : Consumer) (ins : list Input) (w : World)
    (r : Outcome (option error)) (w' : World) :
  Start env c ins w = (r, w') -> r <> Blocked -> mu w = false.
Proof.
  intros E H. destruct (mu w) eqn:Hmu; auto.
  rewrite (Start_locked env c ins w Hmu) in E. inversion E. congruence.
Qed.

(** C5. [Start] on a consumer whose context is already cancelled returns
    the error [consumer already closed]; it only logs, cancels the context
    again and notifies [StateClosed]: no call reaches the reader, no
    callback runs, and the inputs of the loop are never looked at. *)
Theorem Start_already_closed (env : Env) (c : Consumer) (ins : list Input) (w : World) :
  cancelled w = true ->
  mu w = false ->
  exists w',
    Start env c ins w = (Ret (Some (errors_New "consumer already closed")), w') /\
    trace w' = trace w ++ [ELog Info "start"; ECtxDone true;
                           ELog Error_ "failed to start consumer";
                           ECtxCancel; ENotify StateClosed] /\
    reader_calls (trace w') = reader_calls (trace w) /\
    (forall ins', Start env c ins' w = Start env c ins w).
Proof.
  intros Hcan Hmu.
  assert (X : forall i, exists w',
               Start env c i w = (Ret (Some (errors_New "consumer already closed")), w') /\
               trace w' = trace w ++ [ELog Info "start"; ECtxDone true;
                                      ELog Error_ "failed to start consumer";
                                      ECtxCancel; ENotify StateClosed] /\
               cancelled w' = true /\ mu w' = false /\ wg w' = wg w /\
               tracker w' = tracker w).
  { intros i. unfold Start, defer, defer_recover, bind, mu_Lock, ctx_Done.
    rewrite Hmu. cbn [trace cancelled mu wg tracker]. rewrite Hcan.
    eexists. split; [ reflexivity | ]. simpl.
    rewrite <- !app_assoc. simpl. repeat split; auto. lia. }
  destruct (X ins) as (w' & E & Ht & H1 & H2 & H3 & H4).
  exists w'. split; [ exact E | ]. split; [ exact Ht | ]. split.
  - rewrite Ht. unfold reader_calls. rewrite flat_map_app. simpl. apply app_nil_r.
  - intros ins'. destruct (X ins') as (w2 & E2 & Ht2 & G1 & G2 & G3 & G4).
    rewrite E, E2. f_equal.
    destruct w', w2; simpl in *; congruence.
Qed.

Lemma notifications_app (t1 t2 : list Event) :
  notifications (t1 ++ t2) = notifications t1 ++ notifications t2.
Proof. unfold notifications. apply flat_map_app. Qed.

Lemma notifications_loop (d : list Event) :
  Forall loop_event d -> notifications d = [].
Proof.
  induction 1 as [ | e d He _ IH]; [ reflexivity | ].
  unfold notifications in *. cbn [flat_map]. rewrite IH.
  destruct e; simpl in *; auto; contradiction.
Qed.

Lemma notifications_closing (d : list Event) :
  closing_trace d -> notifications d = [].
Proof.
  intros (r1 & r2 & r3 & ->). unfold closing_events.
  destruct (snd r1), (snd r2), (snd r3); reflexivity.
Qed.

Lemma panics_closing (d : list Event) :
  closing_trace d -> panics d = [].
Proof.
  intros (r1 & r2 & r3 & ->). apply panics_closing_events.
Qed.

Lemma running_closing_free (pre : list Event) :
  Forall loop_event pre -> Forall running_event pre.
Proof.
  intros H. eapply List.Forall_impl; [ | exact H ]. apply loop_running_event.
Qed.

(** The notifications of one call of [Start] that returns. *)
Lemma Start_notifications (env : Env) (c : Consumer) (ins : list Input) (w : World)
    (r : Outcome (option error)) (w' : World) :
  Start env c ins w = (r, w') ->
  r <> Blocked ->
  (exists x, r = Ret x) /\
  cancelled w' = true /\ mu w' = false /\ wg w' = wg w /\
  exists d,
    trace w' = trace w ++ d /\
    notifications d = if cancelled w then [StateClosed] else [StateRun; StateClosed].
Proof.
  intros E Hr. pose proof (Start_returns_unlocked _ _ _ _ _ _ E Hr) as Hmu.
  destruct (Start_run _ _ _ _ _ _ E Hmu) as ([Hb | (P1 & P2 & P3)] & H); [ contradiction | ].
  destruct (cancelled w).
  - destruct H as (-> & Ht). split; [ eauto | ]. repeat split; auto.
    eexists. split; [ exact Ht | reflexivity ].
  - cbv zeta in H.
    match type of H with
    | context [reader_ env ?h0 ?c0] => destruct (reader_ env h0 c0) as [x [e | ]] eqn:Er
    end; cbn [snd] in H.
    + destruct H as (-> & Ht). split; [ eauto | ]. repeat split; auto.
      eexists. split; [ rewrite Ht, <- app_assoc; reflexivity | reflexivity ].
    + destruct H as (d & [ (body & -> & _) | (loopd & flush & closing & rec & Ht & L & [F _] & C & R) ]);
        [ contradiction | ].
      assert (Hrec : notifications rec = [] /\ exists y, r = Ret y).
      { destruct R as [ (_ & -> & R) | (q & v & _ & -> & ->) ]; split; eauto. }
      destruct Hrec as (Hrec & Hx). split; [ exact Hx | ]. repeat split; auto.
      eexists. split; [ rewrite Ht, <- app_assoc; reflexivity | ].
      rewrite !notifications_app, (notifications_loop _ L),
        (notifications_loop flush), (notifications_closing _ C), Hrec.
      * reflexivity.
      * eapply List.Forall_impl; [ | exact F ]. apply flush_loop_event.
Qed.

(** C3 (as the code has it). A panic of a callback inside [Start] never
    leaves it: the deferred [recover] stops it, logs the value of the last
    panic at error level, and [Start] returns nil, the zero value of its
    unnamed result, not the recovered value. *)
Theorem Start_recovers_panic (env : Env) (c : Consumer) (ins : list Input) (w : World)
    (r : Outcome (option error)) (w' : World) :
  Start env c ins w = (r, w') ->
  (forall v, r <> Panic v) /\
  exists d,
    trace w' = trace w ++ d /\
    (panics d <> [] ->
     r = Ret None /\
     exists q v,
       panics d = q ++ [v] /\
       In (ELog Error_ (String.append "panic:" (Sprintln v))) d /\
       cancelled w' = true /\
       last d = Some (ENotify StateClosed)).
Proof.
  intros E. destruct (mu w) eqn:Hmu.
  { rewrite (Start_locked env c ins w Hmu) in E. inversion E; subst.
    split; [ discriminate | ]. exists []. rewrite app_nil_r. split; auto.
    intros H. exfalso. apply H. reflexivity. }
  destruct (Start_run _ _ _ _ _ _ E Hmu) as (P & H).
  destruct (cancelled w).
  { destruct H as (-> & Ht). split; [ discriminate | ].
    eexists. split; [ exact Ht | ]. intros H. exfalso. apply H. reflexivity. }
  cbv zeta in H.
  match type of H with
  | context [reader_ env ?h0 ?c0] => destruct (reader_ env h0 c0) as [x [e | ]] eqn:Er
  end; cbn [snd] in H.
  { destruct H as (-> & Ht). split; [ discriminate | ].
    eexists. split; [ rewrite Ht, <- app_assoc; reflexivity | ].
    intros H. exfalso. apply H. reflexivity. }
  destruct H as (d & [ (body & -> & Ht & L & Hp)
                     | (loopd & flush & closing & rec & Ht & L & [F _] & C & R) ]).
  { split; [ discriminate | ].
    eexists. split; [ rewrite Ht, <- app_assoc; reflexivity | ].
    intros H. exfalso. apply H. rewrite !panics_app, Hp. reflexivity. }
  assert (Hp : forall tl, panics tl = [] ->
               panics ([ELog Info "start"; ECtxDone false; ENotify StateRun;
                        ELog Info "start listener"] ++
                       [EReader (SubscribeTopics (topics c)) (x, None); ETickerNew d] ++
                       loopd ++ [ETickerStop] ++ flush ++ closing ++ tl ++
                       [ECtxCancel; ENotify StateClosed])
               = panics (loopd ++ flush)).
  { intros tl Htl. rewrite !panics_app, (panics_closing _ C), Htl. simpl.
    rewrite !app_nil_r. reflexivity. }
  destruct R as [ (R1 & -> & (y & ->)) | (q & v & R1 & -> & ->) ].
  - split; [ discriminate | ].
    eexists. split; [ rewrite Ht, <- app_assoc; reflexivity | ].
    intros H. exfalso. apply H. rewrite Hp; auto.
  - split; [ discriminate | ].
    eexists. split; [ rewrite Ht, <- app_assoc; reflexivity | ].
    intros _. split; [ reflexivity | ]. exists q, v. split; [ | split; [ | split ] ].
    + rewrite Hp; [ exact R1 | reflexivity ].
    + do 6 (apply in_or_app; right). apply in_or_app. left. simpl. auto.
    + destruct P as [P | (P & _)]; [ discriminate | exact P ].
    + change [ECtxCancel; ENotify StateClosed]
        with ([ECtxCancel] ++ [ENotify StateClosed]).
      rewrite !app_assoc. apply last_snoc.
Qed.

(** C4 (as the code has it). Whenever [Start] entered its event loop and
    returns, whatever ended the loop, the trace ends with the shutdown in
    this order: the commit ticker is stopped; the tracker is flushed (at
    most one commit call, with its logs and callbacks); [Unsubscribe] is
    called and, only when it succeeded, [Unassign]; the reader is closed,
    also after a failed [Unsubscribe] or [Unassign]; a recovered panic is
    logged; the context is cancelled and [StateClosed] is notified last. *)
Theorem shutdown_sequence (env : Env) (c : Consumer) (ins : list Input) (w : World)
    (r : Outcome (option error)) (w' : World) :
  Start env c ins w = (r, w') ->
  r <> Blocked ->
  exists d,
    trace w' = trace w ++ d /\
    ((exists dur, In (ETickerNew dur) d) ->
     exists pre flush closing rec,
       d = pre ++ [ETickerStop] ++ flush ++ closing ++ rec ++
           [ECtxCancel; ENotify StateClosed] /\
       Forall running_event pre /\
       one_flush flush /\
       closing_trace closing /\
       (rec = [] \/
        exists v, rec = [ELog Error_ (String.append "panic:" (Sprintln v))])).
Proof.
  intros E Hr. pose proof (Start_returns_unlocked _ _ _ _ _ _ E Hr) as Hmu.
  destruct (Start_run _ _ _ _ _ _ E Hmu) as (_ & H).
  destruct (cancelled w).
  { destruct H as (_ & Ht). eexists. split; [ exact Ht | ].
    intros (dur & Hin). exfalso. simpl in Hin.
    repeat (destruct Hin as [Hin | Hin]; try discriminate). exact Hin. }
  cbv zeta in H.
  match type of H with
  | context [reader_ env ?h0 ?c0] => destruct (reader_ env h0 c0) as [x [e | ]] eqn:Er
  end; cbn [snd] in H.
  { destruct H as (_ & Ht). eexists. split; [ rewrite Ht, <- app_assoc; reflexivity | ].
    intros (dur & Hin). exfalso. simpl in Hin.
    repeat (destruct Hin as [Hin | Hin]; try discriminate). exact Hin. }
  destruct H as (d & [ (body & -> & _)
                     | (loopd & flush & closing & rec & Ht & L & F & C & R) ]);
    [ contradiction | ].
  eexists. split; [ rewrite Ht, <- app_assoc; reflexivity | ].
  intros _.
  exists ([ELog Info "start"; ECtxDone false; ENotify StateRun;
           ELog Info "start listener";
           EReader (SubscribeTopics (topics c)) (x, None); ETickerNew d] ++ loopd),
    flush, closing, rec.
  split; [ rewrite <- !app_assoc; reflexivity | ].
  split.
  { apply Forall_app. split.
    - repeat constructor.
    - apply running_closing_free. exact L. }
  repeat (split; [ assumption | ]).
  destruct R as [ (_ & -> & _) | (q & v & _ & -> & _) ]; eauto.
Qed.

(** ** Lifecycles *)

Lemma Stop_run (w : World) (r : Outcome unit) (w' : World) :
  Stop w = (r, w') ->
  r <> Blocked ->
  r = Ret tt /\ cancelled w' = true /\ mu w' = false /\ wg w' = wg w /\
  trace w' = trace w ++ [ECtxCancel].
Proof.
  intros E Hr. unfold Stop, bind, ctxCancel, mu_Lock, defer, mu_Unlock, wg_Wait in E.
  cbn [trace cancelled mu wg tracker] in E.
  destruct (mu w); [ inversion E; congruence | ].
  cbn [trace cancelled mu wg tracker] in E.
  destruct (wg w =? 0)%Z; inversion E; subst; simpl; auto. congruence.
Qed.

Lemma count_closed_lifecycle (b : bool) (ops : list Op) :
  length (List.filter (fun s => match s with StateClosed => true | StateRun => false end)
                      (lifecycle_notifications b ops))
  = count_starts ops.
Proof.
  revert b. induction ops as [ | [ins | ] rest IH]; intros b; simpl.
  - reflexivity.
  - rewrite List.filter_app, length_app, IH. unfold count_starts. simpl.
    destruct b; reflexivity.
  - rewrite IH. reflexivity.
Qed.

(** C2 (as the code has it). In a lifecycle whose calls all return, every
    call of [Start] notifies [StateClosed] exactly once, as its last
    notification; [StateRun] precedes it in the same call unless the
    consumer was already closed when [Start] was called.  So the number of
    [StateClosed] notifications is the number of [Start] calls. *)
Theorem Closed_once_per_Start (env : Env) (c : Consumer) (ops : list Op)
    (w : World) (r : Outcome unit) (w' : World) :
  run_ops env c ops w = (r, w') ->
  r <> Blocked ->
  exists d,
    trace w' = trace w ++ d /\
    notifications d = lifecycle_notifications (cancelled w) ops /\
    count_closed d = count_starts ops.
Proof.
  intros E Hr.
  assert (X : exists d, trace w' = trace w ++ d /\
                        notifications d = lifecycle_notifications (cancelled w) ops).
  { revert w E. induction ops as [ | [ins | ] rest IH]; intros w E.
    - inversion E; subst. exists []. rewrite app_nil_r. auto.
    - simpl in E. unfold bind in E.
      destruct (Start env c ins w) as [rs w1] eqn:Es.
      assert (Hrs : rs <> Blocked).
      { intros ->. inversion E. congruence. }
      destruct (Start_notifications _ _ _ _ _ _ Es Hrs)
        as ((x & ->) & S1 & S2 & S3 & d1 & S4 & S5).
      destruct (IH _ E) as (d2 & I1 & I2).
      exists (d1 ++ d2). split.
      + rewrite I1, S4, app_assoc. reflexivity.
      + rewrite notifications_app, S5, I2, S1. reflexivity.
    - simpl in E. unfold bind in E.
      destruct (Stop w) as [rs w1] eqn:Es.
      assert (Hrs : rs <> Blocked).
      { intros ->. inversion E. congruence. }
      destruct (Stop_run _ _ _ Es Hrs) as (-> & S1 & S2 & S3 & S4).
      destruct (IH _ E) as (d2 & I1 & I2).
      exists ([ECtxCancel] ++ d2). split.
      + rewrite I1, S4, app_assoc. reflexivity.
      + rewrite notifications_app, I2, S1. reflexivity. }
  destruct X as (d & Ht & Hn). exists d. repeat split; auto.
  unfold count_closed. rewrite Hn. apply count_closed_lifecycle.
Qed.

(** ** Sleep *)

Lemma ctx_checks_app (t1 t2 : list Event) :
  ctx_checks (t1 ++ t2) = ctx_checks t1 ++ ctx_checks t2.
Proof. unfold ctx_checks. apply flat_map_app. Qed.

Lemma reader_calls_app (t1 t2 : list Event) :
  reader_calls (t1 ++ t2) = reader_calls t1 ++ reader_calls t2.
Proof. unfold reader_calls. apply flat_map_app. Qed.

Lemma Sleep_probe_run (env : Env) (ps : list TopicPartition) (w : World)
    (r : Outcome unit) (w' : World) :
  Sleep_probe env ps w = (r, w') ->
  exists d,
    trace w' = trace w ++ d /\
    ctx_checks d = [] /\
    (r = Ret tt ->
     reader_calls d = map (fun p => GetMetadata (Topic p) false 2000) ps).
Proof.
  revert w. induction ps as [ | p rest IH]; intros w E.
  - inversion E; subst. exists []. rewrite app_nil_r. auto.
  - simpl in E. unfold bind, reader in E. cbn [trace cancelled mu wg tracker] in E.
    destruct (reader_ env (trace w) (GetMetadata (Topic p) false 2000)) as [x [e | ]] eqn:Er;
      cbn [snd] in E.
    + destruct (Topic p) as [t | ] eqn:Et.
      * unfold log, emit in E. cbn [trace cancelled mu wg tracker] in E.
        apply IH in E. cbn [trace] in E. destruct E as (d & Ht & Hc & Hr).
        eexists. split; [ rewrite Ht, <- !app_assoc; reflexivity | ]. split.
        -- rewrite !ctx_checks_app, Hc. reflexivity.
        -- intros H. rewrite !reader_calls_app, (Hr H). simpl. rewrite Et.
           reflexivity.
      * unfold panic in E. inversion E; subst. simpl.
        eexists. split; [ reflexivity | ]. split; [ reflexivity | discriminate ].
    + unfold ret in E. apply IH in E. cbn [trace] in E.
      destruct E as (d & Ht & Hc & Hr).
      eexists. split; [ rewrite Ht, <- !app_assoc; reflexivity | ]. split.
      * rewrite !ctx_checks_app, Hc. reflexivity.
      * intros H. rewrite !reader_calls_app, (Hr H). reflexivity.
Qed.

(** C8 (as the code has it). The goroutine started by [Sleep] polls the
    cancellation of the consumer exactly once, right after the delay and
    before [Resume].  When the consumer is cancelled it only logs: neither
    [Resume] nor a metadata request is made.  Otherwise it calls [Resume]
    and then requests the metadata of every partition, without looking at
    the cancellation again. *)
Theorem Sleep_task_checks_before_resume (env : Env) (delay : Z)
    (ps : list TopicPartition) (w : World) (r : Outcome unit) (w' : World) :
  Sleep_task env delay ps w = (r, w') ->
  exists d,
    trace w' = trace w ++ [ETimeSleep delay; ECtxDone (cancelled w)] ++ d /\
    ctx_checks d = [] /\
    if cancelled w
    then r = Ret tt /\ d = [ELog Warn "service already stopped"]
    else exists resp rest,
           d = EReader (Resume ps) resp :: rest /\
           (r = Ret tt ->
            reader_calls rest = map (fun p => GetMetadata (Topic p) false 2000) ps).
Proof.
  intros E. unfold Sleep_task, bind, emit, ctx_Done in E.
  cbn [trace cancelled mu wg tracker] in E.
  destruct (cancelled w) eqn:Hcan.
  - unfold log, emit in E. inversion E; subst. simpl.
    eexists. split; [ rewrite <- !app_assoc; reflexivity | ]. auto.
  - unfold reader in E. cbn [trace cancelled mu wg tracker] in E.
    match type of E with
    | context [reader_ env ?h (Resume ps)] =>
        destruct (reader_ env h (Resume ps)) as [x [e | ]] eqn:Er
    end; cbn [snd] in E; unfold log, emit, ret in E;
      cbn [trace cancelled mu wg tracker] in E;
      apply Sleep_probe_run in E; cbn [trace] in E;
      destruct E as (d & Ht & Hc & Hr).
    + eexists. split; [ rewrite Ht, <- !app_assoc; reflexivity | ]. split.
      * change (ctx_checks ([EReader (Resume ps) (x, Some e)] ++
                            [ELog Warn "failed to resume consumer"] ++ d) = []).
        rewrite !ctx_checks_app, Hc. reflexivity.
      * eexists _, _. split; [ reflexivity | ]. intros H.
        change (reader_calls ([ELog Warn "failed to resume consumer"] ++ d) =
                map (fun p => GetMetadata (Topic p) false 2000) ps).
        rewrite reader_calls_app. apply Hr. exact H.
    + eexists. split; [ rewrite Ht, <- !app_assoc; reflexivity | ]. split.
      * change (ctx_checks ([EReader (Resume ps) (x, None)] ++ d) = []).
        rewrite !ctx_checks_app, Hc. reflexivity.
      * eexists _, _. split; [ reflexivity | ]. exact Hr.
Qed.

(** ** Group.Start *)

Module GroupFacts.
Import Group.

Lemma sends_app (t1 t2 : list GEvent) : sends (t1 ++ t2) = sends t1 ++ sends t2.
Proof. unfold sends. apply flat_map_app. Qed.

Lemma launches_app (t1 t2 : list GEvent) :
  launches (t1 ++ t2) = launches t1 ++ launches t2.
Proof. unfold launches. apply flat_map_app. Qed.

Lemma stop_calls_app (t1 t2 : list GEvent) :
  stop_calls (t1 ++ t2) = stop_calls t1 ++ stop_calls t2.
Proof. unfold stop_calls. apply flat_map_app. Qed.

Lemma sum_unsent_insert (l : list WorkerPc) (k : nat) (x y : WorkerPc) :
  l !! k = Some x ->
  (sum_list (map unsent (<[ k := y ]> l)) + unsent x =
   sum_list (map unsent l) + unsent y)%nat.
Proof.
  revert k. induction l as [ | a l IH]; intros k H.
  - destruct k; discriminate.
  - destruct k as [ | k]; simpl in *.
    + inversion H; subst. lia.
    + specialize (IH _ H). lia.
Qed.

Lemma sum_unsent_lookup (l : list WorkerPc) (k : nat) (x : WorkerPc) :
  l !! k = Some x -> (unsent x <= sum_list (map unsent l))%nat.
Proof.
  revert k. induction l as [ | a l IH]; intros k H.
  - destruct k; discriminate.
  - destruct k as [ | k]; simpl in *.
    + inversion H; subst. lia.
    + specialize (IH _ H). lia.
Qed.

Lemma sum_unsent_replicate (n : nat) :
  sum_list (map unsent (replicate n WNotLaunched)) = n.
Proof. induction n as [ | n IH]; simpl; auto. Qed.

Lemma Inv_init (n : nat) (closed : bool) : Inv n (init n closed).
Proof.
  unfold Inv, phase, init, pending, fresh. simpl.
  rewrite length_replicate, sum_unsent_replicate.
  repeat split; auto; try lia; try discriminate; try contradiction.
  intros [H | H]; discriminate.
Qed.

Lemma fresh_no_worker (n : nat) (s : GState) (k : nat) (p : WorkerPc) :
  fresh n s -> workers s !! k = Some p -> p = WNotLaunched.
Proof.
  intros (_ & _ & Hw & _) H. rewrite Hw in H.
  apply lookup_replicate in H. tauto.
Qed.

(** Unfolds the invariant of the state after a step and brings the trace
    readers to the trace before the step. *)
Ltac after_step H :=
  inversion H; subst; clear H;
  unfold Inv, phase, pending, fresh, started in *;
  cbn [gctx gwg capacity retval main canceller workers gtrace] in *;
  rewrite ?sends_app, ?launches_app, ?stop_calls_app, ?map_app, ?length_app,
    ?length_insert;
  cbn [sends launches stop_calls flat_map map app length];
  rewrite ?app_nil_r.

(** Closes the routine goals left by a step. *)
Ltac fin :=
  try solve
    [ auto
    | lia
    | discriminate
    | contradiction
    | congruence
    | match goal with
      | HN : forall v, In (None, v) _ -> _, X : In (None, _) _ |- _ =>
          destruct (HN _ X); auto; congruence
      end ].

Lemma Inv_Start_step (n : nat) (s s' : GState) :
  Inv n s -> Start_step s = Some s' -> Inv n s'.
Proof.
  intros HI H. unfold Start_step in H.
  destruct (main s) as [ | | | | k | | v k | v k | v] eqn:Em.
  - destruct (gwg s =? 0)%Z; [ | discriminate ].
    destruct HI as (HL & HA & HG & HN & HP). unfold phase in HP. rewrite Em in HP. after_step H.
    intuition (auto; lia).
  - destruct HI as (HL & HA & HG & HN & HP). unfold phase in HP. rewrite Em in HP.
    destruct (gctx s) eqn:Eg; after_step H; intuition (auto; lia).
  - destruct HI as (HL & HA & HG & HN & HP). unfold phase in HP. rewrite Em in HP. after_step H.
    intuition (auto; lia).
  - destruct HI as (HL & HA & HG & HN & HP). unfold phase in HP. rewrite Em in HP. after_step H.
    destruct HP as ((F1 & F2 & F3 & F4 & F5 & F6) & HC).
    rewrite F2 in *. rewrite F4, F5, F6 in *. rewrite F3 in *.
    repeat split; fin.
    + intros [X | X]; discriminate.
    + intros i Hi. rewrite length_replicate in Hi.
      apply lookup_replicate. split; auto. lia.
  - destruct HI as (HL & HA & HG & HN & HP). unfold phase in HP. rewrite Em in HP.
    destruct HP as ((S1 & S2) & Hk & HLa & Hw & Hs & Hst).
    destruct (workers s !! k) as [p | ] eqn:Ek.
    + assert (Hkn : (k < n)%nat).
      { apply lookup_lt_Some in Ek. lia. }
      assert (p = WNotLaunched).
      { specialize (Hw k). rewrite Ek in Hw.
        assert (Some p = Some WNotLaunched) by (apply Hw; lia). congruence. }
      subst p. pose proof (sum_unsent_insert _ _ _ WLaunched Ek) as Hsum.
      after_step H. simpl in Hsum.
      repeat split; fin.
      * rewrite HLa. symmetry. apply List.seq_S.
      * intros i Hi. rewrite list_lookup_insert_ne by lia. apply Hw. lia.
    + assert (Hkn : k = n).
      { apply lookup_ge_None in Ek. lia. }
      subst k. after_step H. repeat split; fin.
  - destruct HI as (HL & HA & HG & HN & HP). unfold phase in HP. rewrite Em in HP.
    destruct HP as ((S1 & S2) & HLa & Hs & Hst).
    destruct (retval s) as [ | v rest] eqn:Er; [ discriminate | ].
    after_step H. repeat split; fin.
  - destruct HI as (HL & HA & HG & HN & HP). unfold phase in HP. rewrite Em in HP.
    destruct HP as ((S1 & S2) & HLa & Hs & Hst & Hk).
    destruct (workers s !! k) as [p | ] eqn:Ek.
    + assert (Hkn : (k < n)%nat).
      { apply lookup_lt_Some in Ek. lia. }
      after_step H. repeat split; fin.
      rewrite Hst. symmetry. apply List.seq_S.
    + assert (Hkn : k = n).
      { apply lookup_ge_None in Ek. lia. }
      subst k. after_step H. repeat split; fin.
  - destruct HI as (HL & HA & HG & HN & HP). unfold phase in HP. rewrite Em in HP.
    destruct HP as ((S1 & S2) & HLa & Hs & Hst & Hk).
    assert (X : Inv n (mkG (gctx s) (gwg s) (capacity s) (retval s) (MStop v (S k))
                           (canceller s) (workers s) (gtrace s ++ [GStopReturn k]))).
    { unfold Inv, phase, pending, fresh, started in *.
      cbn [gctx gwg capacity retval main canceller workers gtrace] in *.
      rewrite ?sends_app, ?launches_app, ?stop_calls_app.
      cbn [sends launches stop_calls flat_map]. rewrite ?app_nil_r.
      repeat split; fin. }
    destruct (workers s !! k) as [[ | | | | | ] | ]; inversion H; subst; auto.
  - discriminate.
Qed.

Lemma Inv_step_stop (n : nat) (s : GState) :
  Inv n s -> Inv n (Stop_cancel s).
Proof.
  intros (HL & HA & HG & HN & HP).
  unfold Stop_cancel, Inv, phase, pending, fresh, started in *.
  cbn [gctx gwg capacity retval main canceller workers gtrace] in *.
  repeat split; fin.
  destruct (main s); fin.
  destruct HP as [ (F & V & G) | X ]; [ left | right ]; auto.
Qed.

Lemma Inv_canceller_step (n : nat) (s s' : GState) :
  Inv n s -> canceller_step s = Some s' -> Inv n s'.
Proof.
  intros (HL & HA & HG & HN & HP) H. unfold canceller_step in H.
  destruct (canceller s) eqn:Ec; try discriminate.
  - destruct (gctx s) eqn:Eg; [ | discriminate ].
    after_step H. rewrite Ec in *.
    repeat split; fin.
    destruct (main s); unfold started in *; intuition congruence.
  - destruct (length (retval s) <? capacity s)%nat; [ | discriminate ].
    after_step H. rewrite Ec in *.
    repeat split; fin.
    + apply in_app_or in H. destruct H as [H | [H | []]]; [ fin | congruence ].
    + destruct (main s); unfold started in *;
        rewrite ?map_app; cbn [map snd];
        intuition (try congruence);
        match goal with
        | X : map snd _ = _ |- _ => rewrite X; reflexivity
        end.
Qed.

(** A worker that has been launched: the phase facts survive a change of
    its own place in [workers]. *)
Lemma phase_worker_update (n : nat) (s : GState) (k : nat) (p q : WorkerPc)
    (rv : list (option error)) (t : list GEvent) (wgv : Z) :
  length (workers s) = n ->
  workers s !! k = Some p ->
  p <> WNotLaunched ->
  sends t = sends (gtrace s) \/
  (exists v, sends t = sends (gtrace s) ++ [(Some k, v)] /\ rv = retval s ++ [v]) ->
  (sends t = sends (gtrace s) -> rv = retval s) ->
  launches t = launches (gtrace s) ->
  stop_calls t = stop_calls (gtrace s) ->
  phase n s ->
  phase n (mkG (gctx s) wgv (capacity s) rv (main s) (canceller s)
               (<[ k := q ]> (workers s)) t).
Proof.
  intros HL Ek Hp Hs Hrv Hla Hst HP. unfold phase in *.
  cbn [gctx gwg capacity retval main canceller workers gtrace].
  assert (NF : ~ fresh n s).
  { intros F. apply Hp. eapply fresh_no_worker; eauto. }
  assert (MS : forall v, map snd (sends (gtrace s)) = v ->
               forall tl, (v = tl ++ retval s) ->
               map snd (sends t) = tl ++ rv).
  { intros v Hv tl ->. destruct Hs as [Hs | (x & Hs & ->)].
    - rewrite Hs, (Hrv Hs). exact Hv.
    - rewrite Hs, map_app, Hv. simpl. rewrite <- app_assoc. reflexivity. }
  unfold started in *. rewrite Hla, Hst.
  destruct (main s) as [ | | | | j | | v j | v j | v];
    try (exfalso; apply NF; tauto).
  - destruct HP as ((S1 & S2) & Hk & HLa & Hw & Hsn & Hstn).
    repeat split; fin.
    + intros i Hi. destruct (decide (i = k)) as [-> | Hne].
      * exfalso. apply Hp. specialize (Hw k Hi). congruence.
      * rewrite list_lookup_insert_ne by auto. apply Hw. exact Hi.
    + apply (MS _ Hsn []). reflexivity.
  - destruct HP as ((S1 & S2) & HLa & Hsn & Hstn).
    repeat split; fin. apply (MS _ Hsn []). reflexivity.
  - destruct HP as ((S1 & S2) & HLa & Hsn & Hstn & Hk).
    repeat split; fin. apply (MS _ Hsn [v]). reflexivity.
  - destruct HP as ((S1 & S2) & HLa & Hsn & Hstn & Hk).
    repeat split; fin. apply (MS _ Hsn [v]). reflexivity.
  - destruct HP as [ (F & _) | ((S1 & S2) & HLa & Hsn & Hstn) ]; [ contradiction | ].
    right. repeat split; fin. apply (MS _ Hsn [v]). reflexivity.
Qed.

Lemma Inv_worker_step (n : nat) (k : nat) (r : option error) (s s' : GState) :
  Inv n s -> worker_step k r s = Some s' -> Inv n s'.
Proof.
  intros (HL & HA & HG & HN & HP) H. unfold worker_step in H.
  destruct (workers s !! k) as [p | ] eqn:Ek; [ | discriminate ].
  assert (G : forall q rv t wgv,
             p <> WNotLaunched ->
             (sends t = sends (gtrace s) /\ rv = retval s /\ unsent q = unsent p) \/
             (exists v, sends t = sends (gtrace s) ++ [(Some k, v)] /\
                        rv = retval s ++ [v] /\ unsent p = 1%nat /\ unsent q = 0%nat) ->
             launches t = launches (gtrace s) ->
             stop_calls t = stop_calls (gtrace s) ->
             Inv n (mkG (gctx s) wgv (capacity s) rv (main s) (canceller s)
                        (<[ k := q ]> (workers s)) t)).
  { intros q rv t wgv Hp Hs Hla Hst.
    pose proof (sum_unsent_insert _ _ _ q Ek) as Hsum.
    unfold Inv. split; [ | split; [ | split; [ | split ] ] ].
    - cbn [workers]. rewrite length_insert. exact HL.
    - unfold pending in *. cbn [workers canceller gtrace].
      destruct Hs as [ (Hs & _ & Hu) | (v & Hs & _ & Hu1 & Hu2) ]; rewrite Hs.
      + lia.
      + rewrite length_app. simpl. lia.
    - exact HG.
    - cbn [gtrace canceller]. intros v Hin.
      destruct Hs as [ (Hs & _) | (x & Hs & _) ]; rewrite Hs in Hin.
      + auto.
      + apply in_app_or in Hin. destruct Hin as [Hin | [Hin | []]]; [ auto | congruence ].
    - apply (phase_worker_update n s k p q rv t wgv); auto.
      + destruct Hs as [ (Hs & _) | (v & Hs & Hr & _) ]; eauto.
      + intros Hs'. destruct Hs as [ (_ & Hr & _) | (v & Hs & _) ]; auto.
        rewrite Hs in Hs'. apply (f_equal (@length _)) in Hs'.
        rewrite length_app in Hs'. simpl in Hs'. lia. }
  destruct p as [ | | | v | | ]; try discriminate.
  - inversion H; subst. apply G; auto; discriminate.
  - inversion H; subst. apply G; auto; discriminate.
  - destruct (length (retval s) <? capacity s)%nat; [ | discriminate ].
    inversion H; subst. apply G.
    + discriminate.
    + right. exists v. rewrite sends_app. simpl. auto.
    + rewrite launches_app. simpl. apply app_nil_r.
    + rewrite stop_calls_app. simpl. apply app_nil_r.
  - inversion H; subst. apply G; auto; discriminate.
Qed.

Lemma Inv_step (n : nat) (ch : Choice) (s s' : GState) :
  Inv n s -> step ch s = Some s' -> Inv n s'.
Proof.
  intros HI H. destruct ch as [ | | k r | ]; simpl in H.
  - eapply Inv_Start_step; eauto.
  - eapply Inv_canceller_step; eauto.
  - eapply Inv_worker_step; eauto.
  - inversion H; subst. apply Inv_step_stop. exact HI.
Qed.

Lemma Inv_run (n : nat) (sched : list Choice) (s s' : GState) :
  Inv n s -> run sched s = Some s' -> Inv n s'.
Proof.
  revert s. induction sched as [ | ch rest IH]; intros s HI H; simpl in H.
  - inversion H; subst. exact HI.
  - destruct (step ch s) as [s1 | ] eqn:Es; [ | discriminate ].
    eapply IH; [ | exact H ]. eapply Inv_step; eauto.
Qed.

(** In a reachable state a goroutine that stands at a send finds room in
    the channel. *)
Lemma Inv_room (n : nat) (s : GState) :
  Inv n s -> at_send s ->
  capacity s = (n + 1)%nat /\ (length (retval s) < capacity s)%nat.
Proof.
  intros (HL & HA & HG & HN & HP) Hs.
  assert (NF : ~ fresh n s).
  { intros F. destruct Hs as [Hc | (k & r & Hk)].
    - destruct F as (_ & F & _). congruence.
    - pose proof (fresh_no_worker _ _ _ _ F Hk). discriminate. }
  assert (Hpend : (1 <= pending s)%nat).
  { unfold pending. destruct Hs as [Hc | (k & r & Hk)].
    - rewrite Hc. lia.
    - apply sum_unsent_lookup in Hk. simpl in Hk. lia. }
  assert (Hlen : capacity s = (n + 1)%nat /\
                 (length (retval s) <= length (sends (gtrace s)))%nat).
  { unfold phase, started in HP.
    destruct (main s) as [ | | | | j | | v j | v j | v];
      try (exfalso; apply NF; tauto);
      [ destruct HP as ((S1 & _) & _ & _ & _ & Hsn & _)
      | destruct HP as ((S1 & _) & _ & Hsn & _)
      | destruct HP as ((S1 & _) & _ & Hsn & _)
      | destruct HP as ((S1 & _) & _ & Hsn & _)
      | destruct HP as [ (F & _) | ((S1 & _) & _ & Hsn & _) ]; [ contradiction | ] ];
      apply (f_equal (@length _)) in Hsn; rewrite length_map in Hsn;
      simpl in Hsn; split; auto; lia. }
  destruct Hlen as (Hc & Hl). split; auto. lia.
Qed.

Lemma closed_inv_step (n : nat) (ch : Choice) (s s' : GState) :
  closed_inv n s -> step ch s = Some s' -> closed_inv n s'.
Proof.
  intros (Hg & F & Hm) H. pose proof F as (F1 & F2 & F3 & F4 & F5 & F6).
  destruct ch as [ | | k r | ]; simpl in H.
  - unfold Start_step in H.
    destruct Hm as [Hm | [Hm | Hm]]; rewrite Hm in H.
    + destruct (gwg s =? 0)%Z; [ | discriminate ].
      inversion H; subst; clear H. unfold closed_inv, fresh.
      cbn [gctx gwg capacity retval main canceller workers gtrace].
      rewrite sends_app, launches_app, stop_calls_app, F4, F5, F6. simpl.
      repeat split; auto.
    + rewrite Hg in H. inversion H; subst; clear H. unfold closed_inv, fresh.
      cbn [gctx gwg capacity retval main canceller workers gtrace].
      repeat split; auto.
    + discriminate.
  - unfold canceller_step in H. rewrite F2 in H. discriminate.
  - unfold worker_step in H.
    destruct (workers s !! k) as [p | ] eqn:Ek; [ | discriminate ].
    rewrite (fresh_no_worker _ _ _ _ F Ek) in H. discriminate.
  - inversion H; subst; clear H. unfold closed_inv, fresh, Stop_cancel.
    cbn [gctx gwg capacity retval main canceller workers gtrace].
    repeat split; auto.
Qed.

Lemma closed_inv_run (n : nat) (sched : list Choice) (s s' : GState) :
  closed_inv n s -> run sched s = Some s' -> closed_inv n s'.
Proof.
  revert s. induction sched as [ | ch rest IH]; intros s HI H; simpl in H.
  - inversion H; subst. exact HI.
  - destruct (step ch s) as [s1 | ] eqn:Es; [ | discriminate ].
    eapply IH; [ | exact H ]. eapply closed_inv_step; eauto.
Qed.

Lemma closed_inv_init (n : nat) : closed_inv n (init n true).
Proof. unfold closed_inv, fresh, init. simpl. repeat split; auto. Qed.

(** The first send of a run that returned after the receive. *)
Lemma first_send (n : nat) (s : GState) (v : option error) :
  Inv n s ->
  map snd (sends (gtrace s)) = v :: retval s ->
  exists who rest,
    sends (gtrace s) = (who, v) :: rest /\
    (who = None -> v = None /\ gctx s = true).
Proof.
  intros (HL & HA & HG & HN & HP) Hs.
  destruct (sends (gtrace s)) as [ | [who x] rest] eqn:E; [ discriminate | ].
  simpl in Hs. inversion Hs; subst x. exists who, rest. split; auto.
  intros ->. destruct (HN v) as (-> & Hc); [ left; reflexivity | ].
  split; auto.
Qed.

End GroupFacts.

(** C9. [Group.Start] on a group whose context is already cancelled returns
    nil: the result [err] is still nil when [errors.Wrap] is applied to it,
    and [errors.Wrap] of nil is nil.  It returns from its first check, so no
    consumer is launched or stopped and nothing is sent.  A start that ends
    by a clean cancellation, where the value received is the nil sent by the
    goroutine of the context, returns nil as well. *)
Theorem Group_Start_closed_returns_nil (n : nat) :
  errors_Wrap None "consumers group already closed" = None /\
  (exists s, Group.run [Group.ByMain; Group.ByMain] (Group.init n true) = Some s /\
             Group.main s = Group.MReturned None) /\
  (forall sched s v,
     Group.run sched (Group.init n true) = Some s ->
     Group.main s = Group.MReturned v ->
     v = None /\
     Group.launches (Group.gtrace s) = [] /\
     Group.sends (Group.gtrace s) = [] /\
     Group.stop_calls (Group.gtrace s) = []) /\
  (forall sched s v w rest,
     Group.run sched (Group.init n false) = Some s ->
     Group.main s = Group.MReturned v ->
     Group.sends (Group.gtrace s) = (None, w) :: rest ->
     v = None /\ Group.gctx s = true).
Proof.
  split; [ reflexivity | ]. split; [ | split ].
  - eexists. split; reflexivity.
  - intros sched s v H Hm.
    destruct (GroupFacts.closed_inv_run n sched _ _ (GroupFacts.closed_inv_init n) H)
      as (_ & (F1 & F2 & F3 & F4 & F5 & F6) & Hmain).
    repeat split; auto.
    destruct Hmain as [X | [X | X]]; congruence.
  - intros sched s v w rest H Hm Hs.
    pose proof (GroupFacts.Inv_run n sched _ _ (GroupFacts.Inv_init n false) H) as HI.
    pose proof HI as (HL & HA & HG & HN & HP).
    unfold Group.phase in HP. rewrite Hm in HP.
    destruct HP as [ ((_ & _ & _ & F & _) & _) | (_ & _ & Hsn & _) ].
    + rewrite F in Hs. discriminate.
    + destruct (GroupFacts.first_send n s v HI Hsn) as (who & rest' & E & Hw).
      rewrite E in Hs. inversion Hs; subst. apply Hw. reflexivity.
Qed.

(** C6 (as the code has it). In every state that a schedule reaches, a
    goroutine that stands at a send on the result channel finds room: the
    channel has capacity n + 1 for the n consumers and the goroutine of the
    context, so no send blocks.  When [Start] has returned, either it
    returned nil from its first check, on a cancelled context, with no
    consumer launched or stopped; or every consumer was launched on its own
    goroutine, the value returned is the first one sent on the channel (the
    result of a consumer, or the nil that the goroutine of the context sends
    once the context is cancelled), and [Stop] was called on every consumer,
    in order, before the return. *)
Theorem Group_Start_supervises (n : nat) (closed : bool)
    (sched : list Group.Choice) (s : Group.GState) :
  Group.run sched (Group.init n closed) = Some s ->
  (Group.at_send s ->
   Group.capacity s = (n + 1)%nat /\
   (length (Group.retval s) < Group.capacity s)%nat /\
   (Group.canceller s = Group.CSending ->
    Group.step Group.ByCanceller s <> None) /\
   (forall k r r',
      Group.workers s !! k = Some (Group.WSending r) ->
      Group.step (Group.ByWorker k r') s <> None)) /\
  (forall v,
     Group.main s = Group.MReturned v ->
     (v = None /\ Group.gctx s = true /\
      Group.launches (Group.gtrace s) = [] /\
      Group.stop_calls (Group.gtrace s) = []) \/
     (Group.launches (Group.gtrace s) = seq 0 n /\
      Group.stop_calls (Group.gtrace s) = seq 0 n /\
      exists who rest,
        Group.sends (Group.gtrace s) = (who, v) :: rest /\
        (who = None -> v = None /\ Group.gctx s = true))).
Proof.
  intros H.
  pose proof (GroupFacts.Inv_run n sched _ _ (GroupFacts.Inv_init n closed) H) as HI.
  split.
  - intros Hs. destruct (GroupFacts.Inv_room n s HI Hs) as (Hc & Hl).
    split; [ exact Hc | ]. split; [ exact Hl | ].
    apply Nat.ltb_lt in Hl. split.
    + intros Hcs. simpl. unfold Group.canceller_step. rewrite Hcs, Hl. discriminate.
    + intros k r r' Hk. simpl. unfold Group.worker_step. rewrite Hk, Hl. discriminate.
  - intros v Hm. pose proof HI as (HL & HA & HG & HN & HP).
    unfold Group.phase in HP. rewrite Hm in HP.
    destruct HP as [ ((_ & _ & _ & _ & F5 & F6) & -> & Hg) | (_ & Hla & Hsn & Hst) ].
    + left. auto.
    + right. split; [ exact Hla | ]. split; [ exact Hst | ].
      apply (GroupFacts.first_send n s v HI Hsn).
Qed.

(** ** The scenarios, evaluated *)

Module Checks.
Import Scenario.

(** The rebalance of the scenario: partition 0 of T with its offset unset,
    committed offset 41, assigned with offset 42. *)
Lemma handleRebalance_reconciles_witness :
  handleRebalance env (consumer 0) assigned idle = (Ret None, rebalanced) /\
  assign_calls (trace rebalanced) = [[tp 42]] /\
  exists flush tail,
    trace rebalanced = trace idle ++ flush ++ tail /\
    Forall flush_event flush /\
    ((exists v, @Ret (option error) None = Panic v /\ In v (panics flush) /\ tail = []) \/
     exists cs err rest,
       tail = EReader (Committed assigned 5000) (cs, err) :: rest /\
       match err with
       | Some e =>
           assign_calls rest = [] /\
           (@Ret (option error) None = Ret (Some e) \/
            exists v, @Ret (option error) None = Panic v /\ In v (panics rest)) /\
           forall more,
             listen_loop env (consumer 0) (InEvent (AssignedPartitions assigned) :: more) idle
             = (Ret None, rebalanced)
       | None =>
           exists l ra rest2,
             rest = EReader (Assign l) ra :: rest2 /\
             assign_calls rest2 = [] /\
             Forall2 reconciled cs l
       end).
Proof.
  split; [ vm_compute; reflexivity | ].
  split; [ vm_compute; reflexivity | ].
  apply (handleRebalance_reconciles env (consumer 0) assigned idle (Ret None) rebalanced).
  vm_compute. reflexivity.
Defined.

(** A flush of an empty tracker, one whose commit fails and one whose commit
    succeeds. *)
Lemma commitOffsets_atomic_witness :
  (fst (Get (tracker idle)) = [] /\
   fst (commitOffsets env (consumer 0) idle) = Ret tt /\
   snd (commitOffsets env (consumer 0) idle) = idle) /\
  (fst (Get (tracker tracking)) <> [] /\
   snd (reader_ env_commit_fails (trace tracking)
          (CommitOffsets (fst (Get (tracker tracking))))) <> None /\
   tracker (snd (commitOffsets env_commit_fails (consumer 0) tracking)) = tracker tracking /\
   onCommit_calls (trace (snd (commitOffsets env_commit_fails (consumer 0) tracking)))
   = onCommit_calls (trace tracking)) /\
  (snd (reader_ env (trace tracking) (CommitOffsets (fst (Get (tracker tracking))))) = None /\
   checkPartitions
     (fst (reader_ env (trace tracking) (CommitOffsets (fst (Get (tracker tracking))))))
   = None /\
   fst (commitOffsets env (consumer 0) tracking) = Ret tt /\
   tracker (snd (commitOffsets env (consumer 0) tracking))
   = fold_left (fun o item => Remove item o)
       (fst (reader_ env (trace tracking) (CommitOffsets (fst (Get (tracker tracking))))))
       (tracker tracking)).
Proof.
  split; [ | split ].
  - split; [ vm_compute; reflexivity | ].
    apply (commitOffsets_atomic env (consumer 0) idle). vm_compute. reflexivity.
  - assert (H1 : fst (Get (tracker tracking)) <> []) by (vm_compute; discriminate).
    assert (H2 : snd (reader_ env_commit_fails (trace tracking)
                        (CommitOffsets (fst (Get (tracker tracking))))) <> None)
      by (vm_compute; discriminate).
    split; [ exact H1 | ]. split; [ exact H2 | ].
    destruct (commitOffsets_atomic env_commit_fails (consumer 0) tracking)
      as (_ & Hfail & _).
    destruct (Hfail H1 (or_introl H2)) as (Ht & Hc & _). split; assumption.
  - assert (H1 : fst (Get (tracker tracking)) <> []) by (vm_compute; discriminate).
    assert (H2 : snd (reader_ env (trace tracking)
                        (CommitOffsets (fst (Get (tracker tracking))))) = None)
      by (vm_compute; reflexivity).
    assert (H3 : checkPartitions
                   (fst (reader_ env (trace tracking)
                           (CommitOffsets (fst (Get (tracker tracking)))))) = None)
      by (vm_compute; reflexivity).
    assert (H4 : fst (commitOffsets env (consumer 0) tracking) = Ret tt)
      by (vm_compute; reflexivity).
    split; [ exact H2 | ]. split; [ exact H3 | ]. split; [ exact H4 | ].
    destruct (commitOffsets_atomic env (consumer 0) tracking) as (_ & _ & Hok).
    destruct (Hok H1 H2 H3 H4) as (Ht & _). exact Ht.
Defined.

(** With [commitOffsetCount] 1 the first processed message is committed. *)
Lemma handleMessage_count_flush_witness :
  handleMessage env (consumer 1) (mkMessage (tp 12) "" "") idle
  = (Ret None, snd (handleMessage env (consumer 1) (mkMessage (tp 12) "" "") idle)) /\
  Error (tp 12) = None /\
  callback_ env (trace idle) (OnProcess (mkMessage (tp 12) "" "")) = Returned None /\
  (0 < commitOffsetCount (consumer 1) /\
   commitOffsetCount (consumer 1) <= Counter (Add (tp 12) (tracker idle))) /\
  commit_rpcs (trace (snd (handleMessage env (consumer 1) (mkMessage (tp 12) "" "") idle)))
  = commit_rpcs (trace idle) ++ [fst (Get (Add (tp 12) (tracker idle)))].
Proof.
  assert (H1 : handleMessage env (consumer 1) (mkMessage (tp 12) "" "") idle
               = (Ret None, snd (handleMessage env (consumer 1) (mkMessage (tp 12) "" "") idle)))
    by (vm_compute; reflexivity).
  assert (H2 : Error (MsgTopicPartition (mkMessage (tp 12) "" "")) = None)
    by reflexivity.
  assert (H3 : callback_ env (trace idle) (OnProcess (mkMessage (tp 12) "" ""))
               = Returned None) by reflexivity.
  assert (H4 : 0 < commitOffsetCount (consumer 1) /\
               commitOffsetCount (consumer 1) <= Counter (Add (tp 12) (tracker idle)))
    by (vm_compute; split; [ reflexivity | discriminate ]).
  split; [ exact H1 | ]. split; [ exact H2 | ]. split; [ exact H3 | ].
  split; [ exact H4 | ].
  destruct (handleMessage_count_flush env (consumer 1) (mkMessage (tp 12) "" "")
              idle _ _ H1 H2 H3) as (Hdue & _).
  destruct (Hdue H4) as (_ & Hrpc). exact Hrpc.
Defined.

(** [Start] on the closed consumer of the scenario. *)
Lemma Start_already_closed_witness :
  cancelled closed = true /\ mu closed = false /\
  exists w',
    Start env (consumer 0) one_message closed
    = (Ret (Some (errors_New "consumer already closed")), w') /\
    trace w' = trace closed ++ [ELog Info "start"; ECtxDone true;
                                ELog Error_ "failed to start consumer";
                                ECtxCancel; ENotify StateClosed] /\
    reader_calls (trace w') = reader_calls (trace closed) /\
    (forall ins', Start env (consumer 0) ins' closed
                  = Start env (consumer 0) one_message closed).
Proof.
  split; [ reflexivity | ]. split; [ reflexivity | ].
  apply (Start_already_closed env (consumer 0) one_message closed); reflexivity.
Defined.

(** [Start] with a handler that panics on the first message. *)
Lemma Start_recovers_panic_witness :
  Start env_panic (consumer 0) [message 11] idle = (Ret None, crashed) /\
  panics (trace crashed) <> [] /\
  exists q v,
    panics (trace crashed) = q ++ [v] /\
    In (ELog Error_ (String.append "panic:" (Sprintln v))) (trace crashed) /\
    cancelled crashed = true /\
    last (trace crashed) = Some (ENotify StateClosed).
Proof.
  assert (H1 : Start env_panic (consumer 0) [message 11] idle = (Ret None, crashed))
    by (vm_compute; reflexivity).
  assert (H2 : panics (trace crashed) <> []) by (vm_compute; discriminate).
  split; [ exact H1 | ]. split; [ exact H2 | ].
  destruct (Start_recovers_panic env_panic (consumer 0) [message 11] idle _ _ H1)
    as (_ & d & Ht & Hp).
  change (trace crashed = d) in Ht. subst d.
  destruct (Hp H2) as (_ & q & v & Hq). exists q, v. exact Hq.
Defined.

(** [Start], one message, then a cancellation. *)
Lemma shutdown_sequence_witness :
  Start env (consumer 0) one_message idle = (Ret None, stopped) /\
  @Ret (option error) None <> Blocked /\
  (exists dur, In (ETickerNew dur) (trace stopped)) /\
  exists pre flush closing rec,
    trace stopped = pre ++ [ETickerStop] ++ flush ++ closing ++ rec ++
                    [ECtxCancel; ENotify StateClosed] /\
    Forall running_event pre /\
    one_flush flush /\
    closing_trace closing /\
    (rec = [] \/
     exists v, rec = [ELog Error_ (String.append "panic:" (Sprintln v))]).
Proof.
  assert (H1 : Start env (consumer 0) one_message idle = (Ret None, stopped))
    by (vm_compute; reflexivity).
  assert (H2 : @Ret (option error) None <> Blocked) by discriminate.
  assert (H3 : exists dur, In (ETickerNew dur) (trace stopped)).
  { exists 5000000000. vm_compute. do 5 right. left. reflexivity. }
  split; [ exact H1 | ]. split; [ exact H2 | ]. split; [ exact H3 | ].
  destruct (shutdown_sequence env (consumer 0) one_message idle _ _ H1 H2)
    as (d & Ht & Hs).
  change (trace stopped = d) in Ht. subst d. exact (Hs H3).
Defined.

(** A consumer started, stopped and started again. *)
Lemma Closed_once_per_Start_witness :
  run_ops env (consumer 0) restarted idle
  = (Ret tt, snd (run_ops env (consumer 0) restarted idle)) /\
  Ret tt <> Blocked /\
  exists d,
    trace (snd (run_ops env (consumer 0) restarted idle)) = trace idle ++ d /\
    notifications d = lifecycle_notifications (cancelled idle) restarted /\
    count_closed d = count_starts restarted.
Proof.
  split; [ vm_compute; reflexivity | ]. split; [ discriminate | ].
  apply (Closed_once_per_Start env (consumer 0) restarted idle (Ret tt)).
  - vm_compute. reflexivity.
  - discriminate.
Defined.

(** The goroutine of [Sleep] on a cancelled consumer. *)
Lemma Sleep_task_checks_before_resume_witness :
  Sleep_task env delay [tp 0] closed
  = (Ret tt, snd (Sleep_task env delay [tp 0] closed)) /\
  exists d,
    trace (snd (Sleep_task env delay [tp 0] closed))
    = trace closed ++ [ETimeSleep delay; ECtxDone (cancelled closed)] ++ d /\
    ctx_checks d = [] /\
    Ret tt = Ret tt /\ d = [ELog Warn "service already stopped"].
Proof.
  split; [ vm_compute; reflexivity | ].
  apply (Sleep_task_checks_before_resume env delay [tp 0] closed (Ret tt)).
  vm_compute. reflexivity.
Defined.

(** A group of one consumer: started when closed, and cancelled while it
    runs. *)
Lemma Group_Start_closed_returns_nil_witness :
  (exists s,
     Group.run closed_start (Group.init 1 true) = Some s /\
     Group.main s = Group.MReturned None /\
     Group.launches (Group.gtrace s) = [] /\
     Group.sends (Group.gtrace s) = [] /\
     Group.stop_calls (Group.gtrace s) = []) /\
  (exists s,
     Group.run cancelled_first (Group.init 1 false) = Some s /\
     Group.main s = Group.MReturned None /\
     Group.sends (Group.gtrace s) = [(None, None)] /\
     Group.gctx s = true).
Proof.
  destruct (Group_Start_closed_returns_nil 1) as (_ & _ & Hclosed & Hclean).
  split.
  - destruct (Group.run closed_start (Group.init 1 true)) as [s | ] eqn:E;
      [ | vm_compute in E; discriminate ].
    assert (Hm : Group.main s = Group.MReturned None).
    { vm_compute in E. inversion E. reflexivity. }
    exists s. split; [ reflexivity | ]. split; [ exact Hm | ].
    destruct (Hclosed closed_start s None E Hm) as (_ & H). exact H.
  - destruct (Group.run cancelled_first (Group.init 1 false)) as [s | ] eqn:E;
      [ | vm_compute in E; discriminate ].
    assert (Hm : Group.main s = Group.MReturned None).
    { vm_compute in E. inversion E. reflexivity. }
    assert (Hs : Group.sends (Group.gtrace s) = [(None, None)]).
    { vm_compute in E. inversion E. reflexivity. }
    exists s. split; [ reflexivity | ]. split; [ exact Hm | ]. split; [ exact Hs | ].
    destruct (Hclean cancelled_first s None None [] E Hm Hs) as (_ & H). exact H.
Defined.

(** A group of one consumer whose [Start] fails. *)
Lemma Group_Start_supervises_witness :
  exists s,
    Group.run worker_first (Group.init 1 false) = Some s /\
    Group.main s = Group.MReturned failure /\
    Group.launches (Group.gtrace s) = seq 0 1 /\
    Group.stop_calls (Group.gtrace s) = seq 0 1 /\
    exists who rest,
      Group.sends (Group.gtrace s) = (who, failure) :: rest /\
      (who = None -> failure = None /\ Group.gctx s = true).
Proof.
  destruct (Group.run worker_first (Group.init 1 false)) as [s | ] eqn:E;
    [ | vm_compute in E; discriminate ].
  assert (Hm : Group.main s = Group.MReturned failure).
  { vm_compute in E. inversion E. reflexivity. }
  assert (Hl : Group.launches (Group.gtrace s) <> []).
  { vm_compute in E. inversion E. discriminate. }
  exists s. split; [ reflexivity | ]. split; [ exact Hm | ].
  destruct (Group_Start_supervises 1 false worker_first s E) as (_ & H).
  destruct (H failure Hm) as [ (_ & _ & Hno & _) | Hyes ]; [ contradiction | ].
  exact Hyes.
Defined.

(** C2, as stated, fails: a consumer that is started, closed and started
    again notifies [StateClosed] twice; a consumer that is stopped before
    its first start notifies [StateClosed] without any [StateRun]. *)
Lemma Closed_notified_twice :
  fst (run_ops env (consumer 0) [OpStart [InCtxDone]; OpStart []] idle) = Ret tt /\
  notifications (trace (snd (run_ops env (consumer 0) [OpStart [InCtxDone]; OpStart []] idle)))
  = [StateRun; StateClosed; StateClosed] /\
  fst (run_ops env (consumer 0) stopped_first idle) = Ret tt /\
  notifications (trace (snd (run_ops env (consumer 0) stopped_first idle)))
  = [StateClosed].
Proof. vm_compute. repeat split. Qed.

(** C3, as stated, fails: when [OnProcess] panics, [Start] returns nil, not
    an error made of the recovered value. *)
Lemma Start_returns_nil_after_panic :
  panics (trace crashed) = ["boom"] /\
  fst (Start env_panic (consumer 0) [message 11] idle) = Ret None /\
  ~ (exists e, fst (Start env_panic (consumer 0) [message 11] idle) = Ret (Some e)).
Proof.
  split; [ vm_compute; reflexivity | ].
  split; [ vm_compute; reflexivity | ].
  intros (e & H). vm_compute in H. discriminate.
Qed.

(** C4, as stated, fails: the ticker is stopped before the last flush, not
    after it. *)
Lemma ticker_stopped_before_last_flush :
  fst (Start env (consumer 0) one_message idle) = Ret None /\
  trace stopped =
  [ELog Info "start"; ECtxDone false; ENotify StateRun; ELog Info "start listener";
   EReader (SubscribeTopics ["T"]) ([], None); ETickerNew 5000000000;
   ECallback (OnProcess (mkMessage (tp 11) "" "")) (Returned None);
   ELog Debug "success";
   ETickerStop;
   EReader (CommitOffsets [tp 11]) ([tp 11], None);
   ELog Debug "success";
   ECallback (OnCommit "T" 0 11 1) (Returned None);
   ELog Info "closing..."; EReader Unsubscribe ([], None);
   EReader Unassign ([], None); EReader Close ([], None);
   ELog Info "success closed"; ELog Info "done";
   ECtxCancel; ENotify StateClosed].
Proof. vm_compute. split; reflexivity. Qed.

(** C6, as stated, fails: on a group that is already closed, [Start]
    returns without launching any consumer and without calling [Stop] on
    any. *)
Lemma Group_Start_closed_stops_nobody :
  exists s,
    Group.run closed_start (Group.init 3 true) = Some s /\
    Group.main s = Group.MReturned None /\
    Group.launches (Group.gtrace s) = [] /\
    Group.stop_calls (Group.gtrace s) = [].
Proof. eexists. vm_compute. repeat split. Qed.

(** C8, as stated, fails: on a cancelled consumer the goroutine of [Sleep]
    does not call [Resume]; on a live one the poll of the cancellation comes
    before [Resume] and none comes before the metadata request. *)
Lemma Sleep_task_cancelled_skips_resume :
  trace (snd (Sleep_task env delay [tp 0] closed))
  = [ETimeSleep delay; ECtxDone true; ELog Warn "service already stopped"] /\
  trace (snd (Sleep_task env delay [tp 0] idle))
  = [ETimeSleep delay; ECtxDone false;
     EReader (Resume [tp 0]) ([], None);
     EReader (GetMetadata (Some "T") false 2000) ([], None)].
Proof. vm_compute. split; reflexivity. Qed.

End Checks.

(** ** The other handlers of the event loop *)

Lemma onError_calls_app (t1 t2 : list Event) :
  onError_calls (t1 ++ t2) = onError_calls t1 ++ onError_calls t2.
Proof. unfold onError_calls. apply flat_map_app. Qed.

Lemma onProcess_calls_app (t1 t2 : list Event) :
  onProcess_calls (t1 ++ t2) = onProcess_calls t1 ++ onProcess_calls t2.
Proof. unfold onProcess_calls. apply flat_map_app. Qed.

(** What a flush leaves behind, for the handlers that start with one. *)
Lemma commitOffsets_flush (env : Env) (c : Consumer) (w : World)
    (r : Outcome unit) (w' : World) :
  commitOffsets env c w = (r, w') ->
  r <> Blocked /\
  cancelled w' = cancelled w /\
  exists flush,
    trace w' = trace w ++ flush /\
    Forall flush_event flush /\
    commit_rpcs flush = flush_rpc (tracker w) /\
    panics flush = match r with Panic v => [v] | _ => [] end.
Proof.
  intros E.
  destruct (tame_commitOffsets env c _ _ _ E) as (_ & _ & flush & Ht & HF & Hp).
  split; [ intros ->; eapply commitOffsets_not_blocked; exact E | ].
  split.
  - clear Ht HF Hp flush. unfold commitOffsets, bind, getTracker in E.
    destruct (Get (tracker w)) as [list_ count].
    destruct list_ as [ | p rest]; [ inversion E; reflexivity | ].
    unfold reader in E. simpl in E.
    destruct (reader_ env (trace w) (CommitOffsets (p :: rest))) as [success err].
    assert (X : forall e w1,
               (log Error_ "failed to commit" ;; callback env (OnError e) ;; ret tt) w1
                 = (r, w') -> cancelled w' = cancelled w1).
    { intros e w1 E1. unfold bind, log, emit, callback in E1. simpl in E1.
      destruct (callback_ env _ (OnError e)); inversion E1; reflexivity. }
    destruct err as [e | ]; [ apply (X _ _ E) | ].
    destruct (checkPartitions success) as [e | ]; [ apply (X _ _ E) | ].
    unfold log, emit in E. simpl in E.
    match type of E with
    | commitOffsets_each _ _ _ ?t ?w1 = _ =>
        change (cancelled w' = cancelled w1); generalize dependent w1; generalize t
    end.
    clear. induction success as [ | item rest IH]; intros topic w1 E.
    + inversion E; reflexivity.
    + simpl in E. unfold bind, modifyTracker, callback in E. simpl in E.
      match type of E with
      | context [callback_ env ?h ?cb] => destruct (callback_ env h cb) eqn:Ecb
      end.
      * apply IH in E. exact E.
      * inversion E; reflexivity.
  - exists flush. repeat split; auto.
    apply commitOffsets_rpcs in E. rewrite Ht, commit_rpcs_app in E.
    apply app_inv_head in E. exact E.
Qed.

(** Splits a hypothesis on the answers of the oracles that occur in it. *)
Ltac oracle_cases E :=
  repeat
    (match type of E with
     | context [callback_ ?env ?h ?cb] =>
         let Ecb := fresh "Ecb" in
         destruct (callback_ env h cb) as [? | ?] eqn:Ecb
     | context [reader_ ?env ?h ?c] =>
         let Er := fresh "Er" in
         destruct (reader_ env h c) as [? [? | ]] eqn:Er
     end; cbn [fst snd] in E; cbv beta iota in E).

(** Names the answer of the callback that a goal asks for. *)
Ltac pick_result :=
  first [ eexists (Returned _); split; reflexivity
        | eexists (Panicked _); split; reflexivity ].

(** X1. [handleRevoke] commits what the tracker holds before anything else,
    with one commit call that carries the snapshot, and then empties the
    tracker whether or not the commit went through.  When a revoked
    partition carries an error, [Unassign] is not called.  A failure is
    handed to [OnError] and returned; [OnRevoke] is invoked only after
    [Unassign] succeeded, with the partitions of the event. *)
Theorem handleRevoke_commits_then_unassigns (env : Env) (c : Consumer)
    (ps : list TopicPartition) (w : World) (r : Outcome (option error)) (w' : World) :
  handleRevoke env c ps w = (r, w') ->
  exists flush tail,
    trace w' = trace w ++ flush ++ tail /\
    Forall flush_event flush /\
    commit_rpcs flush = flush_rpc (tracker w) /\
    ((exists v, r = Panic v /\ panics flush = [v] /\ tail = []) \/
     (tracker w' = newOffset /\
      match checkPartitions ps with
      | Some e =>
          exists res,
            tail = [ELog Error_ "failed to check revoked partitions";
                    ECallback (OnError e) res] /\
            r = match res with Returned _ => Ret (Some e) | Panicked v => Panic v end
      | None =>
          exists resp rest,
            tail = EReader Unassign resp :: rest /\
            match snd resp with
            | Some e =>
                exists res,
                  rest = [ELog Error_ "failed to unassign"; ECallback (OnError e) res] /\
                  r = match res with Returned _ => Ret (Some e) | Panicked v => Panic v end
            | None =>
                exists res,
                  rest = ECallback (OnRevoke ps) res ::
                         match res with
                         | Returned _ => [ELog Info "success"]
                         | Panicked _ => []
                         end /\
                  r = match res with Returned _ => Ret None | Panicked v => Panic v end
            end
      end)).
Proof.
  intros E. unfold handleRevoke, bind in E.
  destruct (commitOffsets env c w) as [o w1] eqn:Ec.
  destruct (commitOffsets_flush env c _ _ _ Ec) as (Hnb & _ & flush & Hf & HF & Hr & Hp).
  exists flush.
  destruct o as [[] | v | ]; [ | | congruence ].
  2:{ inversion E; subst. exists []. rewrite app_nil_r. repeat split; auto.
      left. exists v. auto. }
  unfold modifyTracker, log, emit, reader, callback in E.
  cbn [trace cancelled mu wg tracker] in E.
  destruct (checkPartitions ps) as [e | ] eqn:Echk.
  - oracle_cases E; inversion E; subst; cbn [trace tracker];
      (eexists; split;
       [ simpl; rewrite Hf, <- !app_assoc; simpl; reflexivity | ]);
      repeat (split; [ assumption | ]); right; (split; [ reflexivity | ]);
      pick_result.
  - oracle_cases E; inversion E; subst; cbn [trace tracker];
      (eexists; split;
       [ simpl; rewrite Hf, <- !app_assoc; simpl; reflexivity | ]);
      repeat (split; [ assumption | ]); right; (split; [ reflexivity | ]);
      eexists _, _; (split; [ reflexivity | ]); cbn [snd];
      pick_result.
Qed.

Lemma onRebalance_calls_app (a b : list Event) :
  onRebalance_calls (a ++ b) = onRebalance_calls a ++ onRebalance_calls b.
Proof. apply flat_map_app. Qed.

(** A flush calls neither [Assign] nor [OnRebalance] nor [OnProcess]. *)
Lemma flush_quiet (f : list Event) :
  Forall flush_event f ->
  assign_calls f = [] /\ onRebalance_calls f = [] /\ onProcess_calls f = [].
Proof.
  induction 1 as [ | e f He _ IH ]; [ auto | ].
  destruct IH as (I1 & I2 & I3).
  unfold assign_calls, onRebalance_calls, onProcess_calls in *.
  cbn [flat_map]. rewrite I1, I2, I3.
  destruct e as [ | [] | [] | | | | | | | ]; simpl in He; try contradiction; auto.
Qed.

(** X2. What [handleRebalance] did can be read off its result.  It commits
    the snapshot of the tracker first, with no other commit call.  It
    returns nil exactly after a successful [Assign] followed by
    [OnRebalance], which is given the partitions of the event and not the
    reconciled ones.  An error it returns is the error of the partition
    check or of the last reader call, was handed to [OnError] as its last
    act, and [OnRebalance] was not invoked.  The tracker is empty whenever
    it returns. *)
Theorem handleRebalance_result (env : Env) (c : Consumer)
    (ps : list TopicPartition) (w : World) (r : Outcome (option error)) (w' : World) :
  handleRebalance env c ps w = (r, w') ->
  exists d,
    trace w' = trace w ++ d /\
    commit_rpcs d = flush_rpc (tracker w) /\
    match r with
    | Ret None =>
        tracker w' = newOffset /\
        exists pre l tps res,
          d = pre ++ [EReader (Assign l) (tps, None);
                      ECallback (OnRebalance ps) (Returned res);
                      ELog Info "success"] /\
          assign_calls pre = [] /\ onRebalance_calls pre = []
    | Ret (Some e) =>
        tracker w' = newOffset /\
        onRebalance_calls d = [] /\
        exists pre msg res,
          d = pre ++ [ELog Error_ msg; ECallback (OnError e) (Returned res)] /\
          (checkPartitions ps = Some e \/
           exists call tps, last pre = Some (EReader call (tps, Some e)))
    | Panic v => panics d = [v]
    | Blocked => False
    end.
Proof.
  intros E. unfold handleRebalance, bind in E.
  destruct (commitOffsets env c w) as [o w1] eqn:Ec.
  destruct (commitOffsets_flush env c _ _ _ Ec) as (Hnb & _ & flush & Hf & HF & Hr & Hp).
  destruct (flush_quiet _ HF) as (Qa & Qr & _).
  destruct o as [[] | v | ]; [ | | congruence ].
  2:{ inversion E; subst. exists flush. auto. }
  unfold modifyTracker, log, emit, reader, callback in E.
  cbn [trace cancelled mu wg tracker] in E.
  destruct (checkPartitions ps) as [e | ] eqn:Echk.
  - oracle_cases E; inversion E; subst; cbn [trace tracker];
      (eexists; split;
       [ simpl; rewrite Hf, <- !app_assoc; simpl; reflexivity | ]);
      (split; [ rewrite commit_rpcs_app, Hr; apply app_nil_r | ]).
    + split; [ reflexivity | ]. split.
      { rewrite onRebalance_calls_app, Qr. reflexivity. }
      exists flush, "failed to check assigned partitions". eauto.
    + rewrite panics_app, Hp. reflexivity.
  - oracle_cases E; inversion E; subst; cbn [trace tracker];
      (eexists; split;
       [ simpl; rewrite Hf, <- !app_assoc; simpl; reflexivity | ]);
      (split; [ rewrite commit_rpcs_app, Hr; apply app_nil_r | ]);
      try (rewrite panics_app, Hp; reflexivity).
    + split; [ reflexivity | ]. split.
      { rewrite onRebalance_calls_app, Qr. reflexivity. }
      eexists (flush ++ [EReader (Committed ps 5000) (_, Some _)]), _, _.
      split; [ rewrite <- app_assoc; reflexivity | ].
      right. eexists _, _. apply last_snoc.
    + split; [ reflexivity | ]. split.
      { rewrite onRebalance_calls_app, Qr. reflexivity. }
      eexists (flush ++ [EReader (Committed ps 5000) (_, None);
                         EReader (Assign _) (_, Some _)]), _, _.
      split; [ rewrite <- app_assoc; reflexivity | ].
      right. eexists _, _. rewrite last_app. reflexivity.
    + split; [ reflexivity | ].
      eexists (flush ++ [EReader (Committed ps 5000) (_, None)]), _, _, _.
      split; [ rewrite <- app_assoc; reflexivity | ].
      rewrite assign_calls_app, onRebalance_calls_app, Qa, Qr. auto.
Qed.

(** X3. [handlePartitionEOF] commits the snapshot of the tracker and
    empties it.  The end-of-partition marker, a [kafka.Error] with code
    [ErrPartitionEOF], is not a failure: the handler returns nil for it, as
    for an event without error, and calls nobody.  Any other error is handed
    to [OnError] and returned.  The handler makes no reader call besides the
    commit. *)
Theorem handlePartitionEOF_result (env : Env) (c : Consumer) (e : TopicPartition)
    (w : World) (r : Outcome (option error)) (w' : World) :
  handlePartitionEOF env c e w = (r, w') ->
  exists flush tail,
    trace w' = trace w ++ flush ++ tail /\
    Forall flush_event flush /\
    commit_rpcs flush = flush_rpc (tracker w) /\
    ((exists v, r = Panic v /\ panics flush = [v] /\ tail = []) \/
     (tracker w' = newOffset /\
      match Error e with
      | None => tail = [ELog Info "success"] /\ r = Ret None
      | Some err =>
          if isPartitionEOF err
          then tail = [ELog Info "success"] /\ r = Ret None
          else exists res,
                 tail = [ELog Error_ "failed to check"; ECallback (OnError err) res] /\
                 r = match res with Returned _ => Ret (Some err) | Panicked v => Panic v end
      end)).
Proof.
  intros E. unfold handlePartitionEOF, bind in E.
  destruct (commitOffsets env c w) as [o w1] eqn:Ec.
  destruct (commitOffsets_flush env c _ _ _ Ec) as (Hnb & _ & flush & Hf & HF & Hr & Hp).
  exists flush.
  destruct o as [[] | v | ]; [ | | congruence ].
  2:{ inversion E; subst. exists []. rewrite app_nil_r. repeat split; auto.
      left. exists v. auto. }
  unfold modifyTracker, log, emit, reader, callback in E.
  cbn [trace cancelled mu wg tracker] in E.
  destruct (Error e) as [err | ] eqn:Eerr;
    [ destruct (isPartitionEOF err) eqn:Eeof | ];
    oracle_cases E; inversion E; subst; cbn [trace tracker];
    (eexists; split;
     [ simpl; rewrite Hf, <- !app_assoc; simpl; reflexivity | ]);
    repeat (split; [ assumption | ]); right; (split; [ reflexivity | ]);
    first [ split; reflexivity | pick_result ].
Qed.

(** X4. [handleOffsetCommitted] only reports: it calls nothing on the
    reader and leaves the tracker as it is, so a commit reported as failed
    is not retried here and nothing is forgotten.  The error of the event
    comes first, then the first error carried by a committed partition;
    that error is handed to [OnError] and returned, which ends the event
    loop; without one the handler returns nil and calls nobody. *)
Theorem handleOffsetCommitted_reports (env : Env) (c : Consumer)
    (Err : option error) (offs : list TopicPartition)
    (w : World) (r : Outcome (option error)) (w' : World) (rest : list Input) :
  handleOffsetCommitted env c Err offs w = (r, w') ->
  tracker w' = tracker w /\
  exists d,
    trace w' = trace w ++ d /\
    reader_calls d = [] /\
    match (match Err with Some e => Some e | None => checkPartitions offs end) with
    | Some e =>
        exists res,
          onError_calls d = [e] /\
          d = [ELog Error_ (match Err with
                            | Some _ => "committed offsets"
                            | None => "failed to check"
                            end);
               ECallback (OnError e) res] /\
          r = match res with Returned _ => Ret (Some e) | Panicked v => Panic v end /\
          listen_loop env c (InEvent (OffsetsCommitted Err offs) :: rest) w = (r, w')
    | None => d = [ELog Info "success"] /\ r = Ret None
    end.
Proof.
  intros E.
  assert (L : r <> Ret None ->
              listen_loop env c (InEvent (OffsetsCommitted Err offs) :: rest) w = (r, w')).
  { intros N. unfold listen_loop; fold listen_loop. unfold bind.
    cbn [dispatch]. rewrite E. destruct r as [[e | ] | v | ]; first [ reflexivity | congruence ]. }
  unfold handleOffsetCommitted, bind, log, emit, callback in E.
  cbn [trace cancelled mu wg tracker] in E.
  destruct Err as [e | ]; [ | destruct (checkPartitions offs) as [e | ] eqn:Echk ];
    oracle_cases E; inversion E; subst; cbn [trace tracker];
    (split; [ reflexivity | ]);
    (eexists; split; [ rewrite <- ?app_assoc; simpl; reflexivity | ]);
    (split; [ reflexivity | ]);
    first [ split; reflexivity
          | eexists (Returned _); repeat split; apply L; congruence
          | eexists (Panicked _); repeat split; apply L; congruence ].
Qed.

(** X5. How [handleMessage] fails.  A message that carries an error is
    never handed to [OnProcess]: the error goes to [OnError] and is
    returned.  An error returned by [OnProcess] is returned as it is and is
    not reported to [OnError].  In both cases the offset of the message is
    not tracked, the reader is not called, and the event loop ends with that
    error. *)
Theorem handleMessage_failure (env : Env) (c : Consumer) (e : Message)
    (w : World) (err : error) (w' : World) (rest : list Input) :
  handleMessage env c e w = (Ret (Some err), w') ->
  tracker w' = tracker w /\
  listen_loop env c (InEvent (MessageEvent e) :: rest) w = (Ret (Some err), w') /\
  exists d,
    trace w' = trace w ++ d /\
    reader_calls d = [] /\
    match Error (MsgTopicPartition e) with
    | Some err' =>
        err' = err /\ onProcess_calls d = [] /\ onError_calls d = [err]
    | None =>
        callback_ env (trace w) (OnProcess e) = Returned (Some err) /\
        onProcess_calls d = [e] /\ onError_calls d = []
    end.
Proof.
  intros E.
  assert (L : listen_loop env c (InEvent (MessageEvent e) :: rest) w
              = (Ret (Some err), w')).
  { unfold listen_loop; fold listen_loop. unfold bind.
    cbn [dispatch]. rewrite E. reflexivity. }
  unfold handleMessage in E.
  destruct (Error (MsgTopicPartition e)) as [err' | ] eqn:Eerr.
  - unfold bind, log, emit, callback in E.
    cbn [trace cancelled mu wg tracker] in E.
    oracle_cases E; inversion E; subst; cbn [trace tracker].
    split; [ reflexivity | ]. split; [ exact L | ].
    eexists; split; [ rewrite <- ?app_assoc; simpl; reflexivity | ].
    repeat split.
  - unfold bind at 1 in E. unfold callback in E.
    destruct (callback_ env (trace w) (OnProcess e)) as [[perr | ] | v] eqn:Ecb.
    + unfold bind, log, emit in E. cbn [trace cancelled mu wg tracker] in E.
      inversion E; subst; cbn [trace tracker].
      split; [ reflexivity | ]. split; [ exact L | ].
      eexists; split; [ rewrite <- ?app_assoc; simpl; reflexivity | ].
      repeat split.
    + exfalso. unfold bind at 1 in E. unfold modifyTracker at 1 in E.
      unfold bind at 1 in E.
      match type of E with
      | context [match ?m ?w0 with _ => _ end] =>
          destruct (m w0) as [[[] | v | ] w2]
      end; discriminate.
    + discriminate.
Qed.

(** A flush whose commit call fails: the error is reported, the tracker
    is left as it was. *)
Lemma commitOffsets_failed (env : Env) (c : Consumer) (w : World)
    (l : list TopicPartition) (e : error) (o : Outcome unit) (w1 : World) :
  fst (Get (tracker w)) = l ->
  l <> [] ->
  snd (reader_ env (trace w) (CommitOffsets l)) = Some e ->
  commitOffsets env c w = (o, w1) ->
  tracker w1 = tracker w /\
  exists tps res,
    trace w1 = trace w ++ [EReader (CommitOffsets l) (tps, Some e);
                           ELog Error_ "failed to commit";
                           ECallback (OnError e) res] /\
    o = match res with Returned _ => Ret tt | Panicked v => Panic v end.
Proof.
  intros Hl Hne Herr E. unfold commitOffsets, bind, getTracker in E.
  destruct (Get (tracker w)) as [list_ count]. cbn [fst] in Hl. subst list_.
  destruct l as [ | p rest]; [ congruence | ].
  unfold reader, log, emit, callback in E. cbn [trace cancelled mu wg tracker] in E.
  destruct (reader_ env (trace w) (CommitOffsets (p :: rest))) as [success err].
  cbn [snd] in Herr. subst err.
  oracle_cases E; inversion E; subst; cbn [trace tracker];
    (split; [ reflexivity | ]);
    [ eexists _, (Returned _) | eexists _, (Panicked _) ];
    (split; [ rewrite <- !app_assoc; reflexivity | reflexivity ]).
Qed.

(** X6. A change of partitions drops what is tracked.  When the commit call
    fails while an assignment, a revocation or the end of a partition is
    handled, and the handler returns, the tracker is empty all the same:
    the offsets of the snapshot were handed to the commit call once, no
    [OnCommit] was invoked for them, and they are not kept for a later
    flush. *)
Theorem partition_change_drops_offsets (env : Env) (c : Consumer) (ev : KEvent)
    (w : World) (l : list TopicPartition) (e : error)
    (x : option error) (w' : World) :
  match ev with
  | AssignedPartitions _ | RevokedPartitions _ | PartitionEOF _ => True
  | _ => False
  end ->
  fst (Get (tracker w)) = l ->
  l <> [] ->
  snd (reader_ env (trace w) (CommitOffsets l)) = Some e ->
  dispatch env c ev w = (Ret x, w') ->
  tracker w' = newOffset /\
  onCommit_calls (trace w') = onCommit_calls (trace w) /\
  commit_rpcs (trace w') = commit_rpcs (trace w) ++ [l].
Proof.
  intros Hev Hl Hne Herr E.
  destruct ev as [ps | ps | | tp | | | ]; try contradiction; cbn [dispatch] in E.
  - unfold handleRebalance, bind in E.
    destruct (commitOffsets env c w) as [o w1] eqn:Ec.
    destruct (commitOffsets_failed _ _ _ _ _ _ _ Hl Hne Herr Ec)
      as (_ & tps & res & Ht & Ho).
    destruct res as [y | v]; subst o; [ | discriminate ].
    unfold modifyTracker, log, emit, reader, callback in E.
    cbn [trace cancelled mu wg tracker] in E.
    destruct (checkPartitions ps);
      oracle_cases E; inversion E; subst; cbn [trace tracker];
      rewrite Ht, !onCommit_calls_app, !commit_rpcs_app; simpl;
      rewrite ?app_nil_r; auto.
  - unfold handleRevoke, bind in E.
    destruct (commitOffsets env c w) as [o w1] eqn:Ec.
    destruct (commitOffsets_failed _ _ _ _ _ _ _ Hl Hne Herr Ec)
      as (_ & tps & res & Ht & Ho).
    destruct res as [y | v]; subst o; [ | discriminate ].
    unfold modifyTracker, log, emit, reader, callback in E.
    cbn [trace cancelled mu wg tracker] in E.
    destruct (checkPartitions ps);
      oracle_cases E; inversion E; subst; cbn [trace tracker];
      rewrite Ht, !onCommit_calls_app, !commit_rpcs_app; simpl;
      rewrite ?app_nil_r; auto.
  - unfold handlePartitionEOF, bind in E.
    destruct (commitOffsets env c w) as [o w1] eqn:Ec.
    destruct (commitOffsets_failed _ _ _ _ _ _ _ Hl Hne Herr Ec)
      as (_ & tps & res & Ht & Ho).
    destruct res as [y | v]; subst o; [ | discriminate ].
    unfold modifyTracker, log, emit, reader, callback in E.
    cbn [trace cancelled mu wg tracker] in E.
    destruct (Error tp) as [err | ]; [ destruct (isPartitionEOF err) | ];
      oracle_cases E; inversion E; subst; cbn [trace tracker];
      rewrite Ht, !onCommit_calls_app, !commit_rpcs_app; simpl;
      rewrite ?app_nil_r; auto.
Qed.

(** ** Sleep *)

Lemma spawned_app (a b : list Event) : spawned (a ++ b) = spawned a ++ spawned b.
Proof. apply flat_map_app. Qed.

(** X7. [Sleep] starts its resume task exactly when it paused something.
    With no partition it does nothing at all.  Otherwise its only reader
    call is [Pause] with the partitions it was given; when [Pause] fails
    its error is returned and no task is started; when it succeeds one
    task is started, with the same delay and the same partitions, and
    [Sleep] returns nil without waiting for it.  It never panics. *)
Theorem Sleep_spawns_iff_paused (env : Env) (delay : Z) (ps : list TopicPartition)
    (w : World) (r : Outcome (option error)) (w' : World) :
  Sleep env delay ps w = (r, w') ->
  cancelled w' = cancelled w /\ tracker w' = tracker w /\
  exists d,
    trace w' = trace w ++ d /\
    reader_calls d = match ps with [] => [] | _ => [Pause ps] end /\
    match r with
    | Ret None => spawned d = match ps with [] => [] | _ => [(delay, ps)] end
    | Ret (Some e) =>
        spawned d = [] /\
        exists tps, d = [EReader (Pause ps) (tps, Some e);
                         ELog Warn "failed to pause consumer"]
    | _ => False
    end.
Proof.
  intros E. unfold Sleep in E. destruct ps as [ | p ps].
  - inversion E; subst. repeat split. exists []. rewrite app_nil_r. auto.
  - unfold bind, reader, log, emit in E. cbn [trace cancelled mu wg tracker] in E.
    oracle_cases E; inversion E; subst; cbn [trace cancelled tracker];
      repeat (split; [ reflexivity | ]);
      (eexists; split; [ rewrite <- ?app_assoc; simpl; reflexivity | ]);
      (split; [ reflexivity | ]).
    + split; [ reflexivity | ]. eexists. reflexivity.
    + reflexivity.
Qed.

(** The metadata probes of the resume task end well when every partition
    names its topic; a panic means that one of them does not. *)
Lemma Sleep_probe_total (env : Env) (ps : list TopicPartition) (w : World)
    (r : Outcome unit) (w' : World) :
  Sleep_probe env ps w = (r, w') ->
  cancelled w' = cancelled w /\
  match r with
  | Ret _ => True
  | Panic _ => exists p, In p ps /\ Topic p = None
  | Blocked => False
  end.
Proof.
  revert w. induction ps as [ | p rest IH]; intros w E.
  - inversion E; subst. auto.
  - cbn [Sleep_probe] in E. unfold bind, reader in E.
    cbn [trace cancelled mu wg tracker] in E.
    destruct (reader_ env (trace w) (GetMetadata (Topic p) false 2000)) as [x [e | ]];
      cbn [snd] in E.
    + destruct (Topic p) as [t | ] eqn:Et.
      * unfold log, emit in E. cbn [trace cancelled mu wg tracker] in E.
        apply IH in E. cbn [cancelled] in E. destruct E as (Hc & Hr).
        split; [ exact Hc | ].
        destruct r; auto. destruct Hr as (q & Hin & Hq). exists q. split; [ right | ]; auto.
      * unfold panic in E. inversion E; subst. split; [ reflexivity | ].
        exists p. split; [ left; reflexivity | exact Et ].
    + unfold ret in E. apply IH in E. cbn [cancelled] in E. destruct E as (Hc & Hr).
      split; [ exact Hc | ].
      destruct r; auto. destruct Hr as (q & Hin & Hq). exists q. split; [ right | ]; auto.
Qed.

(** X8. The resume task only logs what goes wrong.  When every partition
    names its topic the task ends normally whatever the broker answers: a
    failed [Resume] does not keep it from probing, and a failed probe does
    not keep it from probing the partitions that follow, so on a consumer
    that is not cancelled its reader calls are [Resume] and then one
    metadata request per partition, in order.  The task never cancels the
    consumer.  It can only panic on a partition without topic. *)
Theorem Sleep_task_only_logs (env : Env) (delay : Z) (ps : list TopicPartition)
    (w : World) (r : Outcome unit) (w' : World) :
  Sleep_task env delay ps w = (r, w') ->
  cancelled w' = cancelled w /\
  r <> Blocked /\
  (forall v, r = Panic v ->
     cancelled w = false /\ exists p, In p ps /\ Topic p = None) /\
  (Forall (fun p => Topic p <> None) ps ->
   r = Ret tt /\
   exists d,
     trace w' = trace w ++ d /\
     reader_calls d =
       if cancelled w then []
       else Resume ps :: map (fun p => GetMetadata (Topic p) false 2000) ps).
Proof.
  intros E. unfold Sleep_task, bind, emit, ctx_Done in E.
  cbn [trace cancelled mu wg tracker] in E.
  destruct (cancelled w) eqn:Hcan.
  - unfold log, emit in E. inversion E; subst; cbn [trace cancelled].
    split; [ auto | ]. split; [ discriminate | ]. split; [ discriminate | ].
    intros _. split; [ reflexivity | ].
    eexists. split; [ rewrite <- !app_assoc; reflexivity | reflexivity ].
  - unfold reader in E. cbn [trace cancelled mu wg tracker] in E.
    match type of E with
    | context [reader_ env ?h (Resume ps)] =>
        destruct (reader_ env h (Resume ps)) as [x oe] eqn:Er
    end.
    assert (X : exists w1 pre,
               Sleep_probe env ps w1 = (r, w') /\ cancelled w1 = false /\
               trace w1 = trace w ++ pre /\ reader_calls pre = [Resume ps]).
    { destruct oe as [e | ]; cbn [snd] in E; unfold log, emit, ret in E;
        cbn [trace cancelled mu wg tracker] in E;
        eexists _, _; (split; [ exact E | ]); cbn [trace cancelled];
        (split; [ reflexivity | ]);
        (split; [ rewrite <- !app_assoc; reflexivity | reflexivity ]). }
    clear E. destruct X as (w1 & pre & E & Hc1 & Ht1 & Hr1).
    destruct (Sleep_probe_total _ _ _ _ _ E) as (Hc & Hr).
    destruct (Sleep_probe_run _ _ _ _ _ E) as (d & Ht & _ & Hcalls).
    split; [ congruence | ].
    split; [ intros ->; exact Hr | ].
    split; [ intros v ->; auto | ].
    intros Hall.
    assert (R : r = Ret tt).
    { destruct r as [[] | v | ]; [ reflexivity | | contradiction ].
      destruct Hr as (p & Hin & Hp). rewrite List.Forall_forall in Hall.
      exfalso. exact (Hall p Hin Hp). }
    split; [ exact R | ].
    exists (pre ++ d). split; [ rewrite Ht, Ht1, app_assoc; reflexivity | ].
    rewrite reader_calls_app, Hr1, (Hcalls R). reflexivity.
Qed.

(** ** How the event loop and [Start] end *)

(** A deferred function that returns leaves the result of the body alone. *)
Lemma defer_ret {A : Type} (d : M unit) (body : M A) (w : World) (x : A) (w' : World) :
  defer d body w = (Ret x, w') ->
  exists w1 u, body w = (Ret x, w1) /\ d w1 = (Ret u, w').
Proof.
  intros E. apply defer_inv in E. destruct E as (rb & w1 & Hb & H).
  destruct rb as [y | v | ].
  - destruct H as (rd & Hd & Hr). destruct rd as [u | v | ]; try discriminate.
    inversion Hr; subst. eauto.
  - destruct H as (rd & Hd & Hr). destruct rd; discriminate.
  - destruct H as (Hr & _). discriminate.
Qed.

(** The loop returns in two ways only: it saw the cancellation, or the
    handler of an event returned an error.  The inputs before that one were
    handled and did not end the loop. *)
Lemma listen_loop_exit (env : Env) (c : Consumer) (ins : list Input) (w : World)
    (x : option error) (w' : World) :
  listen_loop env c ins w = (Ret x, w') ->
  exists pre i post w1,
    ins = pre ++ i :: post /\
    listen_loop env c pre w = (Blocked, w1) /\
    Forall (fun j => j <> InCtxDone) pre /\
    match i with
    | InCtxDone =>
        x = None /\
        w' = mkWorld (trace w1) true (mu w1) (wg w1) (tracker w1)
    | InEvent ev =>
        exists e, x = Some e /\ dispatch env c ev w1 = (Ret (Some e), w')
    | InTick => False
    end.
Proof.
  revert w. induction ins as [ | i rest IH]; intros w E.
  - discriminate.
  - destruct i as [ | | ev].
    + exists [], InCtxDone, rest, w. unfold listen_loop in E. inversion E; subst.
      repeat split; auto.
    + unfold listen_loop in E; fold listen_loop in E. unfold bind in E.
      destruct (commitOffsets env c w) as [o w0] eqn:Ec.
      destruct o as [[] | v | ]; try discriminate.
      apply IH in E. destruct E as (pre & i & post & w1 & -> & Hb & Hall & Hi).
      exists (InTick :: pre), i, post, w1. split; [ reflexivity | ]. split.
      { unfold listen_loop; fold listen_loop. unfold bind. rewrite Ec. exact Hb. }
      split; [ constructor; [ discriminate | exact Hall ] | exact Hi ].
    + unfold listen_loop in E; fold listen_loop in E. unfold bind in E.
      destruct (dispatch env c ev w) as [o w0] eqn:Ed.
      destruct o as [[e | ] | v | ]; try discriminate.
      * inversion E; subst. exists [], (InEvent ev), rest, w.
        repeat split; auto. exists e. auto.
      * apply IH in E. destruct E as (pre & i & post & w1 & -> & Hb & Hall & Hi).
        exists (InEvent ev :: pre), i, post, w1. split; [ reflexivity | ]. split.
        { unfold listen_loop; fold listen_loop. unfold bind. rewrite Ed. exact Hb. }
        split; [ constructor; [ discriminate | exact Hall ] | exact Hi ].
Qed.

(** X9. What ends the event loop.  Ticks of the commit ticker, error events
    and events of an unknown type never end it, whatever the commit call
    and [OnError] answer: on such inputs the loop goes on until a callback
    panics.  When the loop returns nil it has seen the cancellation, and
    when it returns an error, that error was returned by the handler of an
    assignment, a revocation, a message, an end of partition or a commit
    report. *)
Theorem listen_loop_ends (env : Env) (c : Consumer) (ins : list Input) (w : World)
    (r : Outcome (option error)) (w' : World) :
  listen_loop env c ins w = (r, w') ->
  (Forall informational ins -> r = Blocked \/ exists v, r = Panic v) /\
  (r = Ret None -> In InCtxDone ins /\ cancelled w' = true) /\
  (forall e, r = Ret (Some e) ->
     exists ev w1,
       In (InEvent ev) ins /\
       dispatch env c ev w1 = (Ret (Some e), w') /\
       match ev with
       | ErrorEvent _ _ | OtherEvent _ => False
       | _ => True
       end).
Proof.
  intros E. split; [ | split ].
  - intros Hall. destruct r as [x | v | ]; [ exfalso | eauto | auto ].
    apply listen_loop_exit in E.
    destruct E as (pre & i & post & w1 & -> & _ & _ & Hi).
    apply Forall_app in Hall. destruct Hall as [_ Hall].
    inversion Hall as [ | ? ? Hinf _ ]; subst.
    destruct i as [ | | ev]; simpl in Hinf; try contradiction.
    destruct Hi as (e & _ & Hd).
    destruct ev; simpl in Hinf; try contradiction; cbn [dispatch] in Hd;
      unfold bind, log, emit, callback in Hd; cbn [trace cancelled mu wg tracker] in Hd.
    + oracle_cases Hd; discriminate.
    + discriminate.
  - intros ->. apply listen_loop_exit in E.
    destruct E as (pre & i & post & w1 & -> & _ & _ & Hi).
    destruct i as [ | | ev].
    + destruct Hi as (_ & ->). split; [ | reflexivity ].
      apply in_or_app. right. left. reflexivity.
    + contradiction.
    + destruct Hi as (e & He & _). discriminate.
  - intros e ->. apply listen_loop_exit in E.
    destruct E as (pre & i & post & w1 & -> & _ & _ & Hi).
    destruct i as [ | | ev].
    + destruct Hi as (He & _). discriminate.
    + contradiction.
    + destruct Hi as (e' & He & Hd). inversion He; subst e'.
      exists ev, w1. split; [ apply in_or_app; right; left; reflexivity | ].
      split; [ exact Hd | ].
      destruct ev; auto; cbn [dispatch] in Hd;
        unfold bind, log, emit, callback in Hd; cbn [trace cancelled mu wg tracker] in Hd.
      * oracle_cases Hd; discriminate.
      * discriminate.
Qed.

Lemma close_calls_app (a b : list Event) :
  close_calls (a ++ b) = (close_calls a + close_calls b)%nat.
Proof. unfold close_calls. rewrite flat_map_app. apply length_app. Qed.

Lemma unsubscribe_calls_app (a b : list Event) :
  unsubscribe_calls (a ++ b) = (unsubscribe_calls a + unsubscribe_calls b)%nat.
Proof. unfold unsubscribe_calls. rewrite flat_map_app. apply length_app. Qed.

Lemma callback_calls_app (a b : list Event) :
  callback_calls (a ++ b) = callback_calls a ++ callback_calls b.
Proof. apply flat_map_app. Qed.

(** The loop neither unsubscribes nor closes the reader. *)
Lemma loop_keeps_reader (l : list Event) :
  Forall loop_event l -> close_calls l = 0%nat /\ unsubscribe_calls l = 0%nat.
Proof.
  induction 1 as [ | e l He _ (I1 & I2) ]; [ auto | ].
  change (e :: l) with ([e] ++ l). rewrite close_calls_app, unsubscribe_calls_app, I1, I2.
  destruct e as [ | [] | | | | | | | | ]; simpl in He; try contradiction; auto.
Qed.

(** The shutdown of [listen] unsubscribes once and closes once. *)
Lemma closing_releases_reader (d : list Event) :
  closing_trace d -> close_calls d = 1%nat /\ unsubscribe_calls d = 1%nat.
Proof.
  intros ([x1 [e1 | ]] & [x2 [e2 | ]] & [x3 [e3 | ]] & ->); split; reflexivity.
Qed.

(** X10. [Start] releases the reader exactly when it subscribed.  When the
    subscription succeeded and [Start] returns, whatever happened in the
    loop, it has called [Unsubscribe] once and [Close] once.  When the
    consumer was already closed, or when the subscription failed, it calls
    neither: after a failed subscription the reader is left open. *)
Theorem Start_releases_reader (env : Env) (c : Consumer) (ins : list Input) (w : World)
    (r : Outcome (option error)) (w' : World) :
  Start env c ins w = (r, w') ->
  r <> Blocked ->
  let h := trace w ++ [ELog Info "start"; ECtxDone false; ENotify StateRun;
                       ELog Info "start listener"] in
  let subscribed :=
    negb (cancelled w) &&
    match snd (reader_ env h (SubscribeTopics (topics c))) with
    | Some _ => false
    | None => true
    end in
  exists d,
    trace w' = trace w ++ d /\
    close_calls d = (if subscribed then 1 else 0)%nat /\
    unsubscribe_calls d = (if subscribed then 1 else 0)%nat.
Proof.
  intros E Hr h subscribed.
  pose proof (Start_returns_unlocked _ _ _ _ _ _ E Hr) as Hmu.
  destruct (Start_run _ _ _ _ _ _ E Hmu) as (_ & H).
  subst subscribed. destruct (cancelled w); cbn [negb andb].
  - destruct H as (_ & Ht). eexists. split; [ exact Ht | split; reflexivity ].
  - cbv zeta in H. fold h in H.
    destruct (reader_ env h (SubscribeTopics (topics c))) as [x [e | ]] eqn:Er;
      cbn [snd] in *.
    + destruct H as (_ & Ht). eexists.
      split; [ rewrite Ht; unfold h; rewrite <- app_assoc; reflexivity | ].
      split; reflexivity.
    + destruct H as (d & [ (body & Hb & _) | (loopd & flush & closing & rec & Ht & L & F & Cl & P) ]);
        [ contradiction | ].
      destruct (loop_keeps_reader _ L) as (L1 & L2).
      destruct F as (F & _).
      destruct (loop_keeps_reader _ (List.Forall_impl _ flush_loop_event F)) as (F1 & F2).
      destruct (closing_releases_reader _ Cl) as (C1 & C2).
      assert (R : close_calls rec = 0%nat /\ unsubscribe_calls rec = 0%nat).
      { destruct P as [ (_ & -> & _) | (q & v & _ & -> & _) ]; split; reflexivity. }
      destruct R as (R1 & R2).
      eexists. split; [ rewrite Ht; unfold h; rewrite <- app_assoc; reflexivity | ].
      split.
      * rewrite !close_calls_app, L1, F1, C1, R1. reflexivity.
      * rewrite !unsubscribe_calls_app, L2, F2, C2, R2. reflexivity.
Qed.

(** An error returned by [listen] past the subscription is the error that
    its loop returned. *)
Lemma listen_error (env : Env) (c : Consumer) (ins : list Input) (w : World)
    (e : error) (w' : World) :
  listen env c ins w = (Ret (Some e), w') ->
  let h := trace w ++ [ELog Info "start listener"] in
  let resp := reader_ env h (SubscribeTopics (topics c)) in
  match snd resp with
  | Some e0 => e = WithMessage "subscribe to topics failed" e0
  | None =>
      exists w0 w2 after,
        listen_loop env c ins w0 = (Ret (Some e), w2) /\
        (exists before, trace w0 = trace w ++ before) /\
        tracker w0 = newOffset /\
        trace w' = trace w2 ++ after
  end.
Proof.
  intros E h resp. unfold listen in E. unfold bind at 1 2 in E.
  unfold log, emit, reader in E. cbn [trace cancelled mu wg tracker] in E.
  fold h in E. fold resp in E. cbv beta iota zeta in E.
  destruct resp as [x [e0 | ]] eqn:Eresp; cbn [snd] in *.
  { unfold ret in E. inversion E; subst. reflexivity. }
  apply defer_ret in E. destruct E as (w3 & u3 & E & Hclose).
  unfold bind at 1, modifyTracker in E. cbn [trace cancelled mu wg tracker] in E.
  cbv beta iota in E.
  apply defer_ret in E. destruct E as (w4 & u4 & E & Hflush).
  unfold bind at 1, emit in E. cbn [trace cancelled mu wg tracker] in E.
  cbv beta iota in E.
  apply defer_ret in E. destruct E as (w5 & u5 & E & Hstop).
  unfold emit in Hstop. inversion Hstop; subst w4 u5; clear Hstop.
  destruct (tame_commitOffsets env c _ _ _ Hflush) as (_ & _ & flush & F & _).
  cbn [trace] in F.
  apply listen_closing_run in Hclose.
  destruct Hclose as (_ & _ & _ & _ & closing & Cl & _).
  eexists _, w5, _. split; [ exact E | ]. cbn [trace tracker].
  split; [ eexists; unfold h; rewrite <- !app_assoc; reflexivity | ].
  split; [ reflexivity | ].
  rewrite Cl, F, <- !app_assoc. reflexivity.
Qed.

(** X11. Where an error returned by [Start] comes from.  On a closed
    consumer it is [consumer already closed]; after a failed subscription
    it is the error of [SubscribeTopics], wrapped; in every other case it is
    the error that the handler of one of the events returned, unchanged, and
    that event is the last input the loop looked at: the loop did not see
    the cancellation before it. *)
Theorem Start_error_provenance (env : Env) (c : Consumer) (ins : list Input) (w : World)
    (e : error) (w' : World) :
  Start env c ins w = (Ret (Some e), w') ->
  let h := trace w ++ [ELog Info "start"; ECtxDone false; ENotify StateRun;
                       ELog Info "start listener"] in
  if cancelled w then e = errors_New "consumer already closed"
  else
    match snd (reader_ env h (SubscribeTopics (topics c))) with
    | Some e0 => e = WithMessage "subscribe to topics failed" e0
    | None =>
        exists pre ev post w1 w2 before after,
          ins = pre ++ InEvent ev :: post /\
          Forall (fun j => j <> InCtxDone) pre /\
          dispatch env c ev w1 = (Ret (Some e), w2) /\
          trace w1 = trace w ++ before /\
          trace w' = trace w2 ++ after
    end.
Proof.
  intros E h. unfold Start in E.
  apply defer_ret in E. destruct E as (wa & ua & E & Hn).
  unfold notify, emit in Hn. inversion Hn; subst w' ua; clear Hn.
  unfold bind at 1, mu_Lock in E. destruct (mu w) eqn:Hmu; [ discriminate | ].
  apply defer_ret in E. destruct E as (wb & ub & E & Hc).
  unfold bind, ctxCancel, mu_Unlock, emit in Hc. cbn [trace cancelled mu wg tracker] in Hc.
  inversion Hc; subst wa ub; clear Hc.
  unfold bind at 1, wg_Add in E. cbn [trace cancelled mu wg tracker] in E.
  apply defer_ret in E. destruct E as (wc & uc & E & Hd).
  unfold wg_Done, wg_Add in Hd. inversion Hd; subst wb uc; clear Hd.
  unfold bind at 1, log, emit in E. cbn [trace cancelled mu wg tracker] in E.
  unfold defer_recover in E.
  match type of E with
  | context [match ?b ?w0 with _ => _ end] => destruct (b w0) as [rb wd] eqn:Eb
  end.
  destruct rb as [xb | vb | ]; [ | cbn [trace cancelled mu wg tracker] in E; discriminate | discriminate ].
  inversion E; subst xb wd; clear E.
  unfold bind at 1, ctx_Done in Eb. cbn [trace cancelled mu wg tracker] in Eb.
  destruct (cancelled w) eqn:Hcan.
  - unfold bind, log, emit, ret in Eb. inversion Eb. reflexivity.
  - unfold bind at 1, notify, emit in Eb. cbn [trace cancelled mu wg tracker] in Eb.
    apply listen_error in Eb. cbn [trace] in Eb. cbv zeta in Eb.
    rewrite <- !app_assoc in Eb. simpl in Eb. fold h in Eb.
    destruct (snd (reader_ env h (SubscribeTopics (topics c)))) as [e0 | ]; [ exact Eb | ].
    destruct Eb as (w0 & w2 & after & El & (before & Hb) & _ & Ha).
    destruct (listen_loop_exit _ _ _ _ _ _ El) as (pre & i & post & w1 & -> & Hpre & Hall & Hi).
    destruct i as [ | | ev]; [ destruct Hi as [Hi _]; discriminate | contradiction | ].
    destruct Hi as (e' & He & Hd). inversion He; subst e'.
    destruct (tame_listen_loop env c pre _ _ _ Hpre) as (_ & _ & dl & Hdl & _).
    exists pre, ev, post, w1, w2. eexists _, _.
    split; [ reflexivity | ]. split; [ exact Hall | ]. split; [ exact Hd | ].
    cbn [trace]. split.
    + rewrite Hdl, Hb. rewrite <- !app_assoc. reflexivity.
    + rewrite Ha. rewrite <- !app_assoc. reflexivity.
Qed.

(** ** A consumer is used once *)

(** On a closed consumer no operation reaches the reader or a callback. *)
Lemma closed_ops_quiet (env : Env) (c : Consumer) (ops : list Op) (w : World)
    (r : Outcome unit) (w' : World) :
  cancelled w = true ->
  mu w = false ->
  run_ops env c ops w = (r, w') ->
  reader_calls (trace w') = reader_calls (trace w) /\
  callback_calls (trace w') = callback_calls (trace w).
Proof.
  revert w. induction ops as [ | op ops IH]; intros w Hcan Hmu E.
  - inversion E; subst. auto.
  - destruct op as [ins | ]; cbn [run_ops] in E; unfold bind in E.
    + destruct (Start env c ins w) as [r1 w1] eqn:E1.
      destruct (Start_run _ _ _ _ _ _ E1 Hmu) as (H1 & H2).
      rewrite Hcan in H2. destruct H2 as (-> & Ht).
      destruct H1 as [ H1 | (C1 & C2 & _) ]; [ discriminate | ].
      apply IH in E; auto. destruct E as (R1 & R2).
      rewrite R1, R2, Ht, reader_calls_app, callback_calls_app. simpl.
      rewrite !app_nil_r. auto.
    + destruct (Stop w) as [r1 w1] eqn:E1.
      unfold Stop, bind, ctxCancel, mu_Lock, defer, mu_Unlock, wg_Wait, emit in E1.
      cbn [trace cancelled mu wg tracker] in E1. rewrite Hmu in E1.
      cbn [trace cancelled mu wg tracker] in E1.
      destruct (wg w =? 0)%Z; inversion E1; subst r1 w1; clear E1.
      * apply IH in E; auto. cbn [trace] in E. destruct E as (R1 & R2).
        rewrite R1, R2, reader_calls_app, callback_calls_app. simpl.
        rewrite !app_nil_r. auto.
      * inversion E; subst. cbn [trace].
        rewrite reader_calls_app, callback_calls_app. simpl.
        rewrite !app_nil_r. auto.
Qed.

(** X12. A consumer is used once.  Whatever the first operation on it is,
    [Start] or [Stop], once that operation has returned no later [Start] or
    [Stop] reaches the reader or invokes a callback: the consumer is closed
    and cannot be started again. *)
Theorem consumer_single_use (env : Env) (c : Consumer) (op : Op) (ops : list Op)
    (w w1 : World) (r : Outcome unit) (w' : World) :
  run_ops env c [op] w = (Ret tt, w1) ->
  run_ops env c ops w1 = (r, w') ->
  cancelled w1 = true /\
  reader_calls (trace w') = reader_calls (trace w1) /\
  callback_calls (trace w') = callback_calls (trace w1).
Proof.
  intros E1 E.
  assert (H : cancelled w1 = true /\ mu w1 = false).
  { destruct op as [ins | ]; cbn [run_ops] in E1; unfold bind, ret in E1.
    - destruct (Start env c ins w) as [r0 w0] eqn:E0.
      assert (Hr : r0 <> Blocked) by (intros ->; discriminate).
      destruct (Start_notifications _ _ _ _ _ _ E0 Hr) as ((x & ->) & C1 & C2 & _).
      inversion E1; subst. auto.
    - destruct (Stop w) as [r0 w0] eqn:E0.
      assert (Hr : r0 <> Blocked) by (intros ->; discriminate).
      destruct (Stop_run _ _ _ E0 Hr) as (-> & C1 & C2 & _).
      inversion E1; subst. auto. }
  destruct H as (Hcan & Hmu). split; [ exact Hcan | ].
  eapply closed_ops_quiet; eauto.
Qed.

(** ** The group: wait group, progress, construction *)

Module GroupLife.
Import Group.

Lemma sum_live_insert (l : list WorkerPc) (k : nat) (x y : WorkerPc) :
  l !! k = Some x ->
  (sum_list (map live (<[ k := y ]> l)) + live x =
   sum_list (map live l) + live y)%nat.
Proof.
  revert k. induction l as [ | a l IH]; intros k H.
  - destruct k; discriminate.
  - destruct k as [ | k]; simpl in *.
    + inversion H; subst. lia.
    + specialize (IH _ H). lia.
Qed.

Lemma sum_live_replicate (n : nat) :
  sum_list (map live (replicate n WNotLaunched)) = 0%nat.
Proof. induction n as [ | n IH]; simpl; auto. Qed.

Lemma sum_live_bound (l : list WorkerPc) :
  (sum_list (map live l) <= length l)%nat.
Proof.
  induction l as [ | a l IH]; simpl; [ lia | ]. destruct a; simpl; lia.
Qed.

Lemma sum_live_zero (l : list WorkerPc) :
  sum_list (map live l) = 0%nat ->
  (forall i p, l !! i = Some p -> p <> WNotLaunched) ->
  Forall (fun p => p = WExited) l.
Proof.
  induction l as [ | a l IH]; intros Hs Hl; [ constructor | ].
  simpl in Hs. constructor.
  - specialize (Hl 0%nat a eq_refl). destruct a; simpl in Hs; try lia; congruence.
  - apply IH; [ lia | ]. intros i p Hi. apply (Hl (S i) p Hi).
Qed.

Lemma wg_inv_init (n : nat) (closed : bool) : wg_inv n (init n closed).
Proof.
  unfold wg_inv, init. simpl. rewrite length_replicate, sum_live_replicate. auto.
Qed.

(** Where no consumer is launched, no goroutine of a consumer can move. *)
Lemma idle_worker_step (n : nat) (k : nat) (r : option error) (s : GState) :
  workers s = replicate n WNotLaunched -> worker_step k r s = None.
Proof.
  intros Hw. unfold worker_step. rewrite Hw.
  destruct (replicate n WNotLaunched !! k) as [p | ] eqn:Ek; [ | reflexivity ].
  apply lookup_replicate in Ek. destruct Ek as [-> _]. reflexivity.
Qed.

Lemma wg_inv_step (n : nat) (ch : Choice) (s s' : GState) :
  wg_inv n s -> step ch s = Some s' -> wg_inv n s'.
Proof.
  intros (HL & HW & HP) H. destruct ch as [ | | k r | ]; simpl in H.
  - unfold Start_step in H.
    destruct (main s) as [ | | | | k | | v k | v k | v] eqn:Em.
    + destruct (gwg s =? 0)%Z; [ | discriminate ].
      inversion H; subst; clear H. unfold wg_inv. simpl. auto.
    + destruct (gctx s); inversion H; subst; clear H; unfold wg_inv; simpl; auto.
    + inversion H; subst; clear H. unfold wg_inv. simpl. auto.
    + inversion H; subst; clear H. unfold wg_inv. simpl.
      repeat split; auto.
      * intros i p Hi. lia.
      * intros i Hi. rewrite HP. apply lookup_replicate. split; [ reflexivity | lia ].
    + destruct HP as (HP1 & HP2).
      destruct (workers s !! k) as [p | ] eqn:Ek.
      * assert (Hkn : (k < length (workers s))%nat) by (eapply lookup_lt_Some; eauto).
        assert (p = WNotLaunched).
        { specialize (HP2 k). rewrite Ek in HP2.
          assert (Some p = Some WNotLaunched) by (apply HP2; lia). congruence. }
        subst p. pose proof (sum_live_insert _ _ _ WLaunched Ek) as Hsum.
        simpl in Hsum.
        inversion H; subst; clear H. unfold wg_inv. simpl.
        rewrite length_insert. split; [ reflexivity | ].
        split; [ lia | ]. split.
        -- intros i p Hi Hp. destruct (decide (i = k)) as [-> | Hne].
           ++ rewrite list_lookup_insert_eq in Hp by lia. inversion Hp. discriminate.
           ++ rewrite list_lookup_insert_ne in Hp by lia. apply (HP1 i p); [ lia | auto ].
        -- intros i Hi. rewrite list_lookup_insert_ne by lia. apply HP2. lia.
      * apply lookup_ge_None in Ek.
        inversion H; subst; clear H. unfold wg_inv. simpl.
        repeat split; auto. intros i p Hp. apply (HP1 i p); auto.
        apply lookup_lt_Some in Hp. lia.
    + destruct (retval s) as [ | v rest]; [ discriminate | ].
      inversion H; subst; clear H. unfold wg_inv. simpl. auto.
    + destruct (workers s !! k) as [p | ];
        inversion H; subst; clear H; unfold wg_inv; simpl; auto.
    + destruct (workers s !! k) as [[ | | | | | ] | ];
        inversion H; subst; clear H; unfold wg_inv; simpl; auto.
    + discriminate.
  - unfold canceller_step in H.
    destruct (canceller s); try discriminate.
    + destruct (gctx s); [ | discriminate ].
      inversion H; subst; clear H. unfold wg_inv. simpl. auto.
    + destruct (length (retval s) <? capacity s)%nat; [ | discriminate ].
      inversion H; subst; clear H. unfold wg_inv. simpl. auto.
  - assert (Hidle : workers s = replicate n WNotLaunched -> False).
    { intros Hw. rewrite (idle_worker_step n k r s Hw) in H. discriminate. }
    unfold worker_step in H.
    destruct (workers s !! k) as [p | ] eqn:Ek; [ | discriminate ].
    assert (U : forall q, q <> WNotLaunched ->
                p <> WNotLaunched ->
                gwg s' = gwg s + Z.of_nat (live q) - Z.of_nat (live p) ->
                main s' = main s ->
                workers s' = <[ k := q ]> (workers s) ->
                wg_inv n s').
    { intros q Hq Hp Hg Hm Hw. unfold wg_inv. rewrite Hm, Hw, length_insert.
      split; [ exact HL | ].
      pose proof (sum_live_insert _ _ _ q Ek) as Hsum.
      split; [ lia | ].
      assert (A : (forall i p0, workers s !! i = Some p0 -> p0 <> WNotLaunched) ->
                  forall i p0, <[ k := q ]> (workers s) !! i = Some p0 -> p0 <> WNotLaunched).
      { intros HA i p0 Hi. destruct (decide (i = k)) as [-> | Hne].
        - rewrite list_lookup_insert_eq in Hi by (eapply lookup_lt_Some; eauto).
          inversion Hi; subst. exact Hq.
        - rewrite list_lookup_insert_ne in Hi by lia. eapply HA; eauto. }
      destruct (main s) as [ | | | | j | | v j | v j | v];
        try (exfalso; apply Hidle; exact HP); try (apply A; exact HP).
      - destruct HP as (HP1 & HP2). split.
        + intros i p0 Hi Hl. destruct (decide (i = k)) as [-> | Hne].
          * rewrite list_lookup_insert_eq in Hl by (eapply lookup_lt_Some; eauto).
            inversion Hl; subst. exact Hq.
          * rewrite list_lookup_insert_ne in Hl by lia. eapply HP1; eauto.
        + intros i Hi. destruct (decide (i = k)) as [-> | Hne].
          * specialize (HP2 k Hi). rewrite Ek in HP2. inversion HP2. contradiction.
          * rewrite list_lookup_insert_ne by lia. apply HP2. exact Hi.
      - destruct HP as [HP | HP]; [ exfalso; apply Hidle; exact HP | ].
        right. apply A. exact HP. }
    destruct p as [ | | | v | | ]; try discriminate.
    + inversion H; subst; clear H. apply (U WRunning); simpl; auto; try discriminate; lia.
    + inversion H; subst; clear H. apply (U (WSending r)); simpl; auto; try discriminate; lia.
    + destruct (length (retval s) <? capacity s)%nat; [ | discriminate ].
      inversion H; subst; clear H. apply (U WSent); simpl; auto; try discriminate; lia.
    + inversion H; subst; clear H. apply (U WExited); simpl; auto; try discriminate; lia.
  - inversion H; subst; clear H. unfold wg_inv, Stop_cancel. simpl. auto.
Qed.

Lemma wg_inv_run (n : nat) (sched : list Choice) (s s' : GState) :
  wg_inv n s -> run sched s = Some s' -> wg_inv n s'.
Proof.
  revert s. induction sched as [ | ch rest IH]; intros s HI H; simpl in H.
  - inversion H; subst. exact HI.
  - destruct (step ch s) as [s1 | ] eqn:Es; [ | discriminate ].
    eapply IH; [ | exact H ]. eapply wg_inv_step; eauto.
Qed.

Lemma run_then (a b : list Choice) (s s1 s2 : GState) :
  run a s = Some s1 -> run b s1 = Some s2 -> run (a ++ b) s = Some s2.
Proof.
  revert s. induction a as [ | ch a IH]; intros s Ha Hb; simpl in *.
  - inversion Ha; subst. exact Hb.
  - destruct (step ch s) as [s' | ]; [ | discriminate ]. eapply IH; eauto.
Qed.

Lemma step_gctx (ch : Choice) (s s' : GState) :
  step ch s = Some s' -> gctx s = true -> gctx s' = true.
Proof.
  intros H Hg. destruct ch as [ | | k r | ]; simpl in H.
  - unfold Start_step in H.
    destruct (main s);
      repeat match type of H with
             | context [if ?b then _ else _] => destruct b
             | context [match ?l !! ?k with _ => _ end] => destruct (l !! k) as [[ | | | | | ] | ]
             | context [match retval s with _ => _ end] => destruct (retval s)
             end;
      inversion H; subst; simpl; auto.
  - unfold canceller_step in H.
    destruct (canceller s);
      repeat match type of H with
             | context [if ?b then _ else _] => destruct b
             end;
      inversion H; subst; simpl; auto.
  - unfold worker_step in H.
    destruct (workers s !! k) as [[ | | | | | ] | ];
      repeat match type of H with
             | context [if ?b then _ else _] => destruct b
             end;
      inversion H; subst; simpl; auto.
  - inversion H; subst. reflexivity.
Qed.

Lemma run_gctx (sched : list Choice) (s s' : GState) :
  run sched s = Some s' -> gctx s = true -> gctx s' = true.
Proof.
  revert s. induction sched as [ | ch rest IH]; intros s H Hg; simpl in H.
  - inversion H; subst. exact Hg.
  - destruct (step ch s) as [s1 | ] eqn:Es; [ | discriminate ].
    eapply IH; [ exact H | ]. eapply step_gctx; eauto.
Qed.

Lemma sum_unsent_bound (l : list WorkerPc) :
  (sum_list (map unsent l) <= length l)%nat.
Proof.
  induction l as [ | a l IH]; simpl; [ lia | ]. destruct a; simpl; lia.
Qed.

(** The loop that launches the consumers runs to its end on the steps of
    the caller alone. *)
Lemma launch_all (m : nat) (s : GState) (k : nat) :
  main s = MLaunch k ->
  (length (workers s) - k = m)%nat ->
  exists sched s', run sched s = Some s' /\ main s' = MReceive.
Proof.
  revert s k. induction m as [ | m IH]; intros s k Hm Hl.
  - exists [ByMain]. simpl. unfold Start_step. rewrite Hm.
    destruct (workers s !! k) as [p | ] eqn:Ek.
    + apply lookup_lt_Some in Ek. lia.
    + eexists. split; reflexivity.
  - destruct (workers s !! k) as [p | ] eqn:Ek.
    + edestruct (IH (mkG (gctx s) (gwg s + 1) (capacity s) (retval s) (MLaunch (S k))
                         (canceller s) (<[ k := WLaunched ]> (workers s))
                         (gtrace s ++ [GGo (Some k)])) (S k))
        as (sched & s' & Hr & Hs).
      * reflexivity.
      * simpl. rewrite length_insert. lia.
      * exists (ByMain :: sched), s'. split; [ | exact Hs ].
        simpl. unfold Start_step. rewrite Hm, Ek. exact Hr.
    + exists [ByMain]. simpl. unfold Start_step. rewrite Hm, Ek.
      eexists. split; reflexivity.
Qed.

(** [Stop] of a consumer returns once the [Start] of that consumer has. *)
Lemma join_one (s : GState) (v : option error) (k : nat) :
  main s = MJoin v k ->
  exists sched s',
    run sched s = Some s' /\ main s' = MStop v (S k) /\
    length (workers s') = length (workers s).
Proof.
  intros Hm.
  destruct (workers s !! k) as [p | ] eqn:Ek.
  - assert (Other : p <> WRunning ->
                    exists sched s',
                      run sched s = Some s' /\ main s' = MStop v (S k) /\
                      length (workers s') = length (workers s)).
    { intros Hp. exists [ByMain]. simpl. unfold Start_step. rewrite Hm, Ek.
      destruct p; try congruence; eexists; (split; [ reflexivity | ]); simpl; auto. }
    destruct p; try (apply Other; discriminate).
    exists [ByWorker k None; ByMain]. simpl. unfold worker_step. rewrite Ek.
    unfold Start_step. simpl. rewrite Hm.
    rewrite list_lookup_insert_eq by (eapply lookup_lt_Some; eauto).
    eexists. split; [ reflexivity | ]. simpl. rewrite length_insert. auto.
  - exists [ByMain]. simpl. unfold Start_step. rewrite Hm, Ek.
    eexists. split; [ reflexivity | ]. simpl. auto.
Qed.

(** The deferred loop over the consumers runs to its end. *)
Lemma stop_all (m : nat) (s : GState) (v : option error) (k : nat) :
  main s = MStop v k ->
  (length (workers s) - k = m)%nat ->
  exists sched s', run sched s = Some s' /\ main s' = MReturned v.
Proof.
  revert s k. induction m as [ | m IH]; intros s k Hm Hl.
  - exists [ByMain]. simpl. unfold Start_step. rewrite Hm.
    destruct (workers s !! k) as [p | ] eqn:Ek.
    + apply lookup_lt_Some in Ek. lia.
    + eexists. split; reflexivity.
  - destruct (workers s !! k) as [p | ] eqn:Ek.
    + set (s1 := mkG (gctx s) (gwg s) (capacity s) (retval s) (MJoin v k)
                     (canceller s) (workers s) (gtrace s ++ [GStopCall k])).
      destruct (join_one s1 v k eq_refl) as (sj & s2 & Hj & Hm2 & Hl2).
      destruct (IH s2 (S k) Hm2) as (sched & s' & Hr & Hs).
      { rewrite Hl2. simpl. lia. }
      exists (ByMain :: sj ++ sched), s'. split; [ | exact Hs ].
      simpl. unfold Start_step. rewrite Hm, Ek. fold s1.
      eapply run_then; eauto.
    + exists [ByMain]. simpl. unfold Start_step. rewrite Hm, Ek.
      eexists. split; reflexivity.
Qed.

(** Once the context is cancelled the receive of [Start] gets a value:
    one is in the channel already, or the goroutine of the context, which
    finds room, sends nil. *)
Lemma receive_one (n : nat) (s : GState) :
  Inv n s -> main s = MReceive -> gctx s = true ->
  exists sched s' v,
    run sched s = Some s' /\ main s' = MStop v 0 /\
    length (workers s') = length (workers s).
Proof.
  intros (HL & HA & HG & HN & HP) Hm Hg. unfold phase in HP. rewrite Hm in HP.
  destruct HP as ((S1 & S2) & HLa & Hs & Hst).
  destruct (retval s) as [ | v rest] eqn:Er.
  - destruct (canceller s) eqn:Ec.
    + congruence.
    + exists [ByCanceller; ByCanceller; ByMain]. simpl.
      unfold canceller_step. rewrite Ec, Hg. simpl. rewrite Er, S1. simpl.
      replace (0 <? n + 1)%nat with true by (symmetry; apply Nat.ltb_lt; lia).
      unfold Start_step. simpl. rewrite Hm.
      eexists _, _. split; [ reflexivity | ]. simpl. auto.
    + exists [ByCanceller; ByMain]. simpl.
      unfold canceller_step. rewrite Ec, Er, S1. simpl.
      replace (0 <? n + 1)%nat with true by (symmetry; apply Nat.ltb_lt; lia).
      unfold Start_step. simpl. rewrite Hm.
      eexists _, _. split; [ reflexivity | ]. simpl. auto.
    + exfalso. unfold pending in HA. rewrite Ec in HA.
      pose proof (sum_unsent_bound (workers s)) as Hb.
      destruct (sends (gtrace s)); [ simpl in HA; lia | discriminate ].
  - exists [ByMain]. simpl. unfold Start_step. rewrite Hm, Er.
    eexists _, _. split; [ reflexivity | ]. simpl. auto.
Qed.

End GroupLife.

(** X13. The counter of the group's wait group is the number of consumer
    goroutines that were launched and have not yet run their deferred
    [Done]: it never goes below zero and never above the number of
    consumers.  Once the caller of [Start] is past the loop that launches
    them, a counter at zero means that every one of these goroutines has
    exited, which is what the [Wait] of [Group.Stop] waits for. *)
Theorem Group_wg_counts_goroutines (n : nat) (closed : bool)
    (sched : list Group.Choice) (s : Group.GState) :
  Group.run sched (Group.init n closed) = Some s ->
  Group.gwg s = Z.of_nat (sum_list (map live (Group.workers s))) /\
  0 <= Group.gwg s <= Z.of_nat n /\
  (launched_all s -> Group.gwg s = 0 ->
   Forall (fun p => p = Group.WExited) (Group.workers s)).
Proof.
  intros H.
  destruct (GroupLife.wg_inv_run n sched _ _ (GroupLife.wg_inv_init n closed) H)
    as (HL & HW & HP).
  pose proof (GroupLife.sum_live_bound (Group.workers s)) as Hb.
  split; [ exact HW | ]. split; [ lia | ].
  intros Hla Hz. apply GroupLife.sum_live_zero; [ lia | ].
  unfold launched_all in Hla. destruct (Group.main s); try contradiction; exact HP.
Qed.

(** X14. [Group.Stop] always lets [Group.Start] return.  From every state
    that a schedule can reach, once the context of the group is cancelled
    there is a way on that ends with [Start] returned: the caller is never
    stuck at its [Wait], its receive gets the nil of the context goroutine
    if nothing else, and the [Stop] of each consumer returns as soon as the
    [Start] of that consumer has. *)
Theorem Group_Start_returns_once_cancelled (n : nat) (closed : bool)
    (sched : list Group.Choice) (s : Group.GState) :
  Group.run sched (Group.init n closed) = Some s ->
  Group.gctx s = true ->
  exists more s' v,
    Group.run more s = Some s' /\ Group.main s' = Group.MReturned v.
Proof.
  intros H Hg.
  pose proof (GroupFacts.Inv_run n sched _ _ (GroupFacts.Inv_init n closed) H) as HI.
  destruct (GroupLife.wg_inv_run n sched _ _ (GroupLife.wg_inv_init n closed) H)
    as (HL & HW & HP).
  (* from the receive on *)
  assert (R : forall s1, Group.Inv n s1 -> Group.main s1 = Group.MReceive ->
                Group.gctx s1 = true ->
                exists more s' v,
                  Group.run more s1 = Some s' /\ Group.main s' = Group.MReturned v).
  { intros s1 HI1 Hm1 Hg1.
    destruct (GroupLife.receive_one n s1 HI1 Hm1 Hg1) as (a & s2 & v & Ha & Hm2 & _).
    destruct (GroupLife.stop_all _ s2 v 0 Hm2 eq_refl) as (b & s3 & Hb & Hm3).
    exists (a ++ b), s3, v. split; [ eapply GroupLife.run_then; eauto | exact Hm3 ]. }
  (* from the launches on *)
  assert (L : forall s1 k, Group.Inv n s1 -> Group.main s1 = Group.MLaunch k ->
                Group.gctx s1 = true ->
                exists more s' v,
                  Group.run more s1 = Some s' /\ Group.main s' = Group.MReturned v).
  { intros s1 k HI1 Hm1 Hg1.
    destruct (GroupLife.launch_all _ s1 k Hm1 eq_refl) as (a & s2 & Ha & Hm2).
    destruct (R s2) as (b & s3 & v & Hb & Hm3).
    - eapply GroupFacts.Inv_run; eauto.
    - exact Hm2.
    - eapply GroupLife.run_gctx; eauto.
    - exists (a ++ b), s3, v. split; [ eapply GroupLife.run_then; eauto | exact Hm3 ]. }
  destruct (Group.main s) as [ | | | | k | | v k | v k | v] eqn:Em.
  - exists [Group.ByMain; Group.ByMain]. simpl. unfold Group.Start_step. rewrite Em.
    rewrite HP in HW. rewrite GroupLife.sum_live_replicate in HW. rewrite HW. simpl.
    rewrite Hg. eexists _, _. split; reflexivity.
  - exists [Group.ByMain]. simpl. unfold Group.Start_step. rewrite Em, Hg.
    eexists _, _. split; reflexivity.
  - set (s1 := Group.mkG (Group.gctx s) (Group.gwg s) (length (Group.workers s) + 1) []
                 (Group.MLaunch 0) Group.CWaiting (Group.workers s)
                 ((Group.gtrace s ++ [Group.GMake (length (Group.workers s) + 1)])
                    ++ [Group.GGo None])).
    assert (H1 : Group.run [Group.ByMain; Group.ByMain] s = Some s1).
    { simpl. unfold Group.Start_step. rewrite Em. simpl. reflexivity. }
    destruct (L s1 0%nat) as (b & s3 & v & Hb & Hm3).
    + eapply GroupFacts.Inv_run; eauto.
    + reflexivity.
    + exact Hg.
    + eexists _, s3, v. split; [ eapply GroupLife.run_then; eauto | exact Hm3 ].
  - set (s1 := Group.mkG (Group.gctx s) (Group.gwg s) (Group.capacity s) (Group.retval s)
                 (Group.MLaunch 0) Group.CWaiting (Group.workers s)
                 (Group.gtrace s ++ [Group.GGo None])).
    assert (H1 : Group.run [Group.ByMain] s = Some s1).
    { simpl. unfold Group.Start_step. rewrite Em. reflexivity. }
    destruct (L s1 0%nat) as (b & s3 & v & Hb & Hm3).
    + eapply GroupFacts.Inv_run; eauto.
    + reflexivity.
    + exact Hg.
    + eexists _, s3, v. split; [ eapply GroupLife.run_then; eauto | exact Hm3 ].
  - apply (L s k); auto.
  - apply (R s); auto.
  - destruct (GroupLife.stop_all _ s v k Em eq_refl) as (b & s3 & Hb & Hm3).
    exists b, s3, v. auto.
  - destruct (GroupLife.join_one s v k Em) as (a & s2 & Ha & Hm2 & _).
    destruct (GroupLife.stop_all _ s2 v (S k) Hm2 eq_refl) as (b & s3 & Hb & Hm3).
    exists (a ++ b), s3, v. split; [ eapply GroupLife.run_then; eauto | exact Hm3 ].
  - exists [], s, v. split; [ reflexivity | exact Em ].
Qed.

(** X15. When [Group.Start] returns while the context of the group is not
    cancelled, the value it returns was sent by the goroutine of a
    consumer, and the goroutine that waits for the context is left behind:
    it still stands at [<-g.ctx.Done()], cannot move, and has sent nothing;
    only a later [Group.Stop] lets it go on. *)
Theorem Group_Start_leaves_context_goroutine (n : nat) (closed : bool)
    (sched : list Group.Choice) (s : Group.GState) (v : option error) :
  Group.run sched (Group.init n closed) = Some s ->
  Group.main s = Group.MReturned v ->
  Group.gctx s = false ->
  Group.canceller s = Group.CWaiting /\
  Group.step Group.ByCanceller s = None /\
  (exists k rest, Group.sends (Group.gtrace s) = (Some k, v) :: rest) /\
  (forall x, ~ In (None, x) (Group.sends (Group.gtrace s))) /\
  Group.step Group.ByCanceller (Group.Stop_cancel s) <> None.
Proof.
  intros H Hm Hg.
  pose proof (GroupFacts.Inv_run n sched _ _ (GroupFacts.Inv_init n closed) H) as HI.
  pose proof HI as (HL & HA & HG & HN & HP).
  unfold Group.phase in HP. rewrite Hm in HP.
  destruct HP as [ (_ & _ & Hc) | ((S1 & S2) & HLa & Hs & Hst) ]; [ congruence | ].
  assert (Hcan : Group.canceller s = Group.CWaiting).
  { destruct (Group.canceller s); auto; try congruence.
    - rewrite HG in Hg; [ discriminate | auto ].
    - rewrite HG in Hg; [ discriminate | auto ]. }
  split; [ exact Hcan | ].
  split; [ simpl; unfold Group.canceller_step; rewrite Hcan, Hg; reflexivity | ].
  assert (NoNil : forall x, ~ In (None, x) (Group.sends (Group.gtrace s))).
  { intros x Hin. destruct (HN x Hin) as (_ & Hc). congruence. }
  split.
  - destruct (GroupFacts.first_send n s v HI Hs) as (who & rest & Hf & _).
    destruct who as [k | ]; [ eauto | ].
    exfalso. apply (NoNil v). rewrite Hf. left. reflexivity.
  - split; [ exact NoNil | ].
    simpl. unfold Group.canceller_step, Group.Stop_cancel. simpl. rewrite Hcan.
    discriminate.
Qed.

(** The loop of [NewGroup] when every constructor call succeeds. *)
Lemma NewGroup_loop_success (env : GroupEnv) (todo : nat) (consumers : list nat) :
  (forall j, (length consumers <= j < length consumers + todo)%nat -> New_ env j = None) ->
  NewGroup_loop env todo consumers
  = (consumers ++ seq (length consumers) todo, None).
Proof.
  revert consumers. induction todo as [ | todo IH]; intros consumers Hall.
  - simpl. rewrite app_nil_r. reflexivity.
  - cbn [NewGroup_loop]. rewrite Hall by lia.
    rewrite IH.
    + rewrite length_app. simpl. rewrite <- app_assoc, Nat.add_1_r. reflexivity.
    + intros j Hj. rewrite length_app in Hj. simpl in Hj. apply Hall. lia.
Qed.

(** The loop of [NewGroup] when the call number [k] is the first to fail. *)
Lemma NewGroup_loop_failure (env : GroupEnv) (todo : nat) (consumers : list nat)
    (k : nat) (e : error) :
  (length consumers <= k < length consumers + todo)%nat ->
  New_ env k = Some e ->
  (forall j, (length consumers <= j < k)%nat -> New_ env j = None) ->
  NewGroup_loop env todo consumers
  = (consumers ++ seq (length consumers) (k - length consumers),
     Some (WithMessage "failed to start consumer group" e)).
Proof.
  revert consumers. induction todo as [ | todo IH]; intros consumers Hk He Hall.
  - lia.
  - cbn [NewGroup_loop].
    destruct (decide (k = length consumers)) as [-> | Hne].
    + rewrite He, Nat.sub_diag. simpl. rewrite app_nil_r. reflexivity.
    + rewrite Hall by lia. rewrite IH.
      * rewrite length_app. simpl. rewrite <- app_assoc. simpl.
        replace (k - length consumers)%nat with (S (k - (length consumers + 1)))%nat by lia.
        simpl. rewrite Nat.add_1_r. reflexivity.
      * rewrite length_app. simpl. lia.
      * exact He.
      * intros j Hj. rewrite length_app in Hj. simpl in Hj. apply Hall. lia.
Qed.

(** X16. [NewGroup] makes as many consumers as the configuration asks for,
    or one per processor when it asks for none or for a negative number.
    When every call of [New] succeeds the group has that many consumers, a
    context that is not cancelled and an idle wait group.  When a call
    fails, the first failure ends the construction: no further call of
    [New] is made, the error is returned wrapped, no group is returned, and
    the consumers made before are dropped as they are.  An error of
    [uuid.NewUUID] is returned as it is, before any call of [New]. *)
Theorem NewGroup_first_failure (env : GroupEnv) (Workers : Z) :
  let n := Z.to_nat (if (Workers <=? 0)%Z then runtime_NumCPU env else Workers) in
  match uuid_NewUUID env with
  | Some err => NewGroup env Workers = (None, Some err, [])
  | None =>
      ((forall j, (j < n)%nat -> New_ env j = None) ->
       NewGroup env Workers = (Some (Group.init n false), None, seq 0 n)) /\
      (forall k e,
         (k < n)%nat -> New_ env k = Some e ->
         (forall j, (j < k)%nat -> New_ env j = None) ->
         NewGroup env Workers =
         (None, Some (WithMessage "failed to start consumer group" e), seq 0 k))
  end.
Proof.
  intros n. unfold NewGroup. destruct (uuid_NewUUID env) as [err | ]; [ reflexivity | ].
  cbv zeta. fold n. split.
  - intros Hall. rewrite NewGroup_loop_success.
    + simpl. rewrite length_seq. reflexivity.
    + intros j Hj. simpl in Hj. apply Hall. lia.
  - intros k e Hk He Hall. rewrite (NewGroup_loop_failure env n [] k e).
    + simpl. rewrite Nat.sub_0_r. reflexivity.
    + simpl. lia.
    + exact He.
    + intros j Hj. apply Hall. lia.
Qed.

(** ** The topic handed to OnCommit *)

Lemma default_last_cons (d t : string) (l : list string) :
  default d (last (t :: l)) = default t (last l).
Proof.
  destruct l as [ | x l]; [ reflexivity | ].
  change (last (t :: x :: l)) with (last (x :: l)).
  destruct (last (x :: l)) eqn:E; [ reflexivity | ].
  apply last_None in E. discriminate.
Qed.

Lemma commitOffsets_each_topics (env : Env) (count : gmap PartitionKey Z)
    (success : list TopicPartition) (topic : string) (w w' : World) :
  commitOffsets_each env count success topic w = (Ret tt, w') ->
  exists d,
    trace w' = trace w ++ d /\
    map (fun call => fst (fst (fst call))) (onCommit_calls d)
    = map (fun i => default topic (last (omap Topic (take (S i) success))))
          (seq 0 (length success)).
Proof.
  revert topic w. induction success as [ | item rest IH]; intros topic w E.
  - inversion E; subst. exists []. rewrite app_nil_r. auto.
  - cbn [commitOffsets_each] in E. unfold bind, modifyTracker, callback in E.
    cbn [trace cancelled mu wg tracker] in E.
    match type of E with
    | context [callback_ env ?h ?cb] => destruct (callback_ env h cb) as [x | v] eqn:Ecb
    end; [ | discriminate ].
    apply IH in E. cbn [trace] in E. destruct E as (d & Ht & Hd).
    eexists. split; [ rewrite Ht, <- app_assoc; reflexivity | ].
    rewrite onCommit_calls_app. cbn [length seq map].
    change (onCommit_calls [ECallback (OnCommit ?a ?b ?c0 ?n) ?r]) with [(a, b, c0, n)].
    cbn [app map fst]. f_equal.
    + cbn [take omap]. unfold omap, list_omap. destruct (Topic item); reflexivity.
    + rewrite Hd, <- seq_shift, map_map. apply map_ext. intros i.
      change (take (S (S i)) (item :: rest)) with (item :: take (S i) rest).
      change (omap Topic (item :: take (S i) rest))
        with (match Topic item with
              | Some t => t :: omap Topic (take (S i) rest)
              | None => omap Topic (take (S i) rest)
              end).
      destruct (Topic item) as [t | ]; [ | reflexivity ].
      symmetry. apply default_last_cons.
Qed.

(** X17. The topic that [commitOffsets] hands to [OnCommit].  After a
    successful commit call [OnCommit] is invoked once per partition of the
    answer, in order, and the topic it is given is that of the partition
    or, for a partition that names no topic, the one kept from the nearest
    partition before it that does, the empty string when there is none:
    the variable is declared before the loop and is not reset. *)
Theorem commitOffsets_topic_carried (env : Env) (c : Consumer) (w w' : World)
    (l success : list TopicPartition) :
  fst (Get (tracker w)) = l ->
  l <> [] ->
  reader_ env (trace w) (CommitOffsets l) = (success, None) ->
  checkPartitions success = None ->
  commitOffsets env c w = (Ret tt, w') ->
  exists d,
    trace w' = trace w ++ d /\
    map (fun call => fst (fst (fst call))) (onCommit_calls d)
    = map (reported_topic success) (seq 0 (length success)).
Proof.
  intros Hl Hne Hr Hchk E. unfold commitOffsets, bind, getTracker in E.
  destruct (Get (tracker w)) as [list_ count]. cbn [fst] in Hl. subst list_.
  destruct l as [ | p rest]; [ congruence | ].
  unfold reader, log, emit in E. cbn [trace cancelled mu wg tracker] in E.
  rewrite Hr in E. rewrite Hchk in E. cbn [trace cancelled mu wg tracker] in E.
  apply commitOffsets_each_topics in E. cbn [trace] in E.
  destruct E as (d & Ht & Hd).
  eexists. split; [ rewrite Ht, <- !app_assoc; reflexivity | ].
  rewrite !onCommit_calls_app. simpl. exact Hd.
Qed.

(** ** The commit ticker *)

Lemma tickers_app (a b : list Event) : tickers (a ++ b) = tickers a ++ tickers b.
Proof. apply flat_map_app. Qed.

Lemma loop_no_ticker (l : list Event) : Forall loop_event l -> tickers l = [].
Proof.
  induction 1 as [ | e l He _ IH ]; [ reflexivity | ].
  change (e :: l) with ([e] ++ l). rewrite tickers_app, IH.
  destruct e; simpl in He; try contradiction; reflexivity.
Qed.

Lemma closing_no_ticker (d : list Event) : closing_trace d -> tickers d = [].
Proof.
  intros ([x1 [e1 | ]] & [x2 [e2 | ]] & [x3 [e3 | ]] & ->); reflexivity.
Qed.

Lemma grows_tame (P : Event -> Prop) {A : Type} (m : M A) : tame P m -> grows m.
Proof.
  intros T w r w' E. destruct (T w r w' E) as (_ & _ & d & Hd & _). eauto.
Qed.

Lemma grows_defer {A : Type} (d : M unit) (body : M A) :
  grows d -> grows body -> grows (defer d body).
Proof.
  intros Gd Gb w r w' E. apply defer_inv in E. destruct E as (rb & w1 & Hb & H).
  destruct (Gb _ _ _ Hb) as (d1 & H1).
  destruct rb as [x | v | ].
  - destruct H as (rd & Hd & _). destruct (Gd _ _ _ Hd) as (d2 & H2).
    exists (d1 ++ d2). rewrite H2, H1, app_assoc. reflexivity.
  - destruct H as (rd & Hd & _). destruct (Gd _ _ _ Hd) as (d2 & H2).
    exists (d1 ++ d2). rewrite H2, H1, app_assoc. reflexivity.
  - destruct H as (_ & ->). eauto.
Qed.

Lemma grows_listen_closing (env : Env) : grows (listen_closing env).
Proof.
  intros w r w' E. apply listen_closing_run in E.
  destruct E as (_ & _ & _ & _ & d & Hd & _). eauto.
Qed.

(** X18. The commit ticker of [listen].  A call of [listen] whose
    subscription succeeds creates exactly one ticker, and none otherwise.
    Its period is the configured [commitOffsetDuration], or five seconds
    when that is zero or negative, so the period handed to
    [time.NewTicker] is always positive. *)
Theorem listen_ticker_period (env : Env) (c : Consumer) (ins : list Input) (w : World)
    (r : Outcome (option error)) (w' : World) :
  listen env c ins w = (r, w') ->
  let h := trace w ++ [ELog Info "start listener"] in
  let period := if (commitOffsetDuration c <=? 0)%Z
                then 5 * time_Second
                else commitOffsetDuration c in
  0 < period /\
  exists d,
    trace w' = trace w ++ d /\
    tickers d = match snd (reader_ env h (SubscribeTopics (topics c))) with
                | Some _ => []
                | None => [period]
                end.
Proof.
  intros E h period. split.
  { subst period. destruct (commitOffsetDuration c <=? 0)%Z eqn:Ed.
    - reflexivity.
    - apply Z.leb_gt in Ed. exact Ed. }
  pose proof (listen_run _ _ _ _ _ _ E) as R. cbv zeta in R. fold h in R.
  destruct R as (_ & _ & R).
  unfold listen in E. unfold bind at 1 2 in E.
  unfold log, emit, reader in E. cbn [trace cancelled mu wg tracker] in E.
  fold h in E. cbv beta iota zeta in E.
  destruct (reader_ env h (SubscribeTopics (topics c))) as [x [e | ]] eqn:Er;
    cbn [snd] in *.
  { destruct R as (_ & Ht). eexists. split.
    - rewrite Ht. unfold h. rewrite <- app_assoc. reflexivity.
    - reflexivity. }
  destruct R as (d & body & Ht & Shape).
  assert (Hbody : tickers body = []).
  { destruct Shape as [ (_ & L & _) | (loopd & flush & closing & -> & L & (F & _) & Cl & _) ].
    - apply loop_no_ticker. exact L.
    - rewrite !tickers_app, (loop_no_ticker _ L), (closing_no_ticker _ Cl),
        (loop_no_ticker _ (List.Forall_impl _ flush_loop_event F)).
      reflexivity. }
  (* the period of the ticker *)
  apply defer_inv in E. destruct E as (r1 & w1 & E & Hclose).
  assert (G1 : exists d1, trace w' = trace w1 ++ d1).
  { destruct r1 as [x1 | v1 | ].
    - destruct Hclose as (rd & Hd & _). eapply grows_listen_closing; eauto.
    - destruct Hclose as (rd & Hd & _). eapply grows_listen_closing; eauto.
    - destruct Hclose as (_ & ->). exists []. rewrite app_nil_r. reflexivity. }
  unfold bind at 1, modifyTracker in E. cbn [trace cancelled mu wg tracker] in E.
  cbv beta iota in E.
  apply defer_inv in E. destruct E as (r2 & w2 & E & Hflush).
  assert (G2 : exists d2, trace w1 = trace w2 ++ d2).
  { destruct r2 as [x2 | v2 | ].
    - destruct Hflush as (rd & Hd & _).
      eapply (grows_tame _ _ (tame_commitOffsets env c)); eauto.
    - destruct Hflush as (rd & Hd & _).
      eapply (grows_tame _ _ (tame_commitOffsets env c)); eauto.
    - destruct Hflush as (_ & ->). exists []. rewrite app_nil_r. reflexivity. }
  unfold bind at 1, emit in E. cbn [trace cancelled mu wg tracker] in E.
  cbv beta iota in E. fold period in E.
  assert (G3 : grows (defer (fun w0 => (Ret tt, mkWorld (trace w0 ++ [ETickerStop])
                                              (cancelled w0) (mu w0) (wg w0) (tracker w0)))
                            (listen_loop env c ins))).
  { apply grows_defer.
    - intros w0 r0 w0' E0. inversion E0; subst. simpl. eauto.
    - apply (grows_tame _ _ (tame_listen_loop env c ins)). }
  destruct (G3 _ _ _ E) as (d3 & H3). cbn [trace] in H3.
  destruct G1 as (d1 & H1). destruct G2 as (d2 & H2).
  assert (Hd : d = period).
  { rewrite H1, H2, H3 in Ht. rewrite <- !app_assoc in Ht.
    apply app_inv_head in Ht. simpl in Ht. inversion Ht. reflexivity. }
  subst d. eexists. split.
  - rewrite Ht. unfold h. rewrite <- app_assoc. reflexivity.
  - rewrite !tickers_app, Hbody. reflexivity.
Qed.

(** ** The further properties on the scenarios *)

Module CaseChecks.
Import Scenario Cases.

(** A revocation while one offset is tracked: the offset is committed,
    then the partitions are unassigned and [OnRevoke] is told. *)
Lemma handleRevoke_commits_then_unassigns_witness :
  handleRevoke env (consumer 0) revoked tracking = (Ret None, after_revoke) /\
  tracker after_revoke = newOffset /\
  exists flush tail,
    trace after_revoke = trace tracking ++ flush ++ tail /\
    commit_rpcs flush = flush_rpc (tracker tracking) /\
    exists resp res,
      tail = [EReader Unassign resp; ECallback (OnRevoke revoked) res; ELog Info "success"].
Proof.
  assert (H : handleRevoke env (consumer 0) revoked tracking = (Ret None, after_revoke))
    by (vm_compute; reflexivity).
  split; [ exact H | ].
  destruct (handleRevoke_commits_then_unassigns _ _ _ _ _ _ H)
    as (flush & tail & Ht & _ & Hr & [ (v & Hv & _) | (Htr & Hm) ]); [ discriminate | ].
  split; [ exact Htr | ].
  exists flush, tail. split; [ exact Ht | ]. split; [ exact Hr | ].
  change (checkPartitions revoked) with (@None error) in Hm.
  destruct Hm as (resp & rest & -> & Hm).
  destruct (snd resp) as [e | ].
  - destruct Hm as ([y | v] & _ & Hres); discriminate.
  - destruct Hm as ([y | v] & -> & Hres); [ | discriminate ].
    exists resp, (Returned y). reflexivity.
Defined.

(** The rebalance of the scenario ends with [Assign], [OnRebalance] on the
    partitions of the event, and the log. *)
Lemma handleRebalance_result_witness :
  handleRebalance env (consumer 0) assigned idle = (Ret None, rebalanced) /\
  tracker rebalanced = newOffset /\
  exists pre l tps res,
    trace rebalanced
    = trace idle ++ pre ++ [EReader (Assign l) (tps, None);
                            ECallback (OnRebalance assigned) (Returned res);
                            ELog Info "success"] /\
    assign_calls pre = [] /\ onRebalance_calls pre = [].
Proof.
  assert (H : handleRebalance env (consumer 0) assigned idle = (Ret None, rebalanced))
    by (vm_compute; reflexivity).
  split; [ exact H | ].
  destruct (handleRebalance_result _ _ _ _ _ _ H) as (d & Ht & _ & Htr & Hm).
  split; [ exact Htr | ].
  destruct Hm as (pre & l & tps & res & -> & Ha & Hr).
  exists pre, l, tps, res. split; [ exact Ht | ]. split; assumption.
Defined.

(** The end of a partition is not an error. *)
Lemma handlePartitionEOF_result_witness :
  handlePartitionEOF env (consumer 0) eof tracking = (Ret None, after_eof) /\
  tracker after_eof = newOffset /\
  exists flush,
    trace after_eof = trace tracking ++ flush ++ [ELog Info "success"] /\
    commit_rpcs flush = flush_rpc (tracker tracking).
Proof.
  assert (H : handlePartitionEOF env (consumer 0) eof tracking = (Ret None, after_eof))
    by (vm_compute; reflexivity).
  split; [ exact H | ].
  destruct (handlePartitionEOF_result _ _ _ _ _ _ H)
    as (flush & tail & Ht & _ & Hr & [ (v & Hv & _) | (Htr & Hm) ]); [ discriminate | ].
  split; [ exact Htr | ].
  change (Error eof) with (Some (KafkaError ErrPartitionEOF "Broker: No more messages")) in Hm.
  change (isPartitionEOF (KafkaError ErrPartitionEOF "Broker: No more messages"))
    with true in Hm.
  destruct Hm as (-> & _).
  exists flush. split; [ exact Ht | exact Hr ].
Defined.

(** A commit reported as failed ends the loop and leaves the tracker. *)
Lemma handleOffsetCommitted_reports_witness :
  handleOffsetCommitted env (consumer 0) (Some commit_failure) [] tracking
  = (Ret (Some commit_failure), after_report) /\
  tracker after_report = tracker tracking /\
  listen_loop env (consumer 0)
    [InEvent (OffsetsCommitted (Some commit_failure) []); InTick] tracking
  = (Ret (Some commit_failure), after_report).
Proof.
  assert (H : handleOffsetCommitted env (consumer 0) (Some commit_failure) [] tracking
              = (Ret (Some commit_failure), after_report))
    by (vm_compute; reflexivity).
  split; [ exact H | ].
  destruct (handleOffsetCommitted_reports _ _ _ _ _ _ _ [InTick] H)
    as (Htr & d & _ & _ & res & _ & _ & _ & Hl).
  split; [ exact Htr | exact Hl ].
Defined.

(** A message that [OnProcess] refuses. *)
Lemma handleMessage_failure_witness :
  handleMessage env_process_fails (consumer 0) (mkMessage (tp 11) "" "") idle
  = (Ret (Some process_error), after_refusal) /\
  tracker after_refusal = tracker idle /\
  exists d,
    trace after_refusal = trace idle ++ d /\
    reader_calls d = [] /\
    onProcess_calls d = [mkMessage (tp 11) "" ""] /\ onError_calls d = [].
Proof.
  assert (H : handleMessage env_process_fails (consumer 0) (mkMessage (tp 11) "" "") idle
              = (Ret (Some process_error), after_refusal))
    by (vm_compute; reflexivity).
  split; [ exact H | ].
  destruct (handleMessage_failure _ _ _ _ _ _ [] H) as (Htr & _ & d & Ht & Hr & Hm).
  split; [ exact Htr | ].
  exists d. split; [ exact Ht | ]. split; [ exact Hr | ].
  change (Error (MsgTopicPartition (mkMessage (tp 11) "" ""))) with (@None error) in Hm.
  destruct Hm as (_ & Hp & He). split; assumption.
Defined.

(** A revocation while the broker refuses the commit. *)
Lemma partition_change_drops_offsets_witness :
  fst (Get (tracker tracking)) <> [] /\
  dispatch env_commit_fails (consumer 0) (RevokedPartitions revoked) tracking
  = (Ret None, after_lost) /\
  tracker after_lost = newOffset /\
  onCommit_calls (trace after_lost) = onCommit_calls (trace tracking) /\
  commit_rpcs (trace after_lost)
  = commit_rpcs (trace tracking) ++ [fst (Get (tracker tracking))].
Proof.
  assert (H1 : fst (Get (tracker tracking)) <> []) by (vm_compute; discriminate).
  assert (H2 : dispatch env_commit_fails (consumer 0) (RevokedPartitions revoked) tracking
               = (Ret None, after_lost))
    by (vm_compute; reflexivity).
  split; [ exact H1 | ]. split; [ exact H2 | ].
  exact (partition_change_drops_offsets env_commit_fails (consumer 0)
           (RevokedPartitions revoked) tracking _ commit_failure None after_lost
           I eq_refl H1 eq_refl H2).
Defined.

(** [Sleep] on one partition. *)
Lemma Sleep_spawns_iff_paused_witness :
  Sleep env delay revoked idle = (Ret None, after_sleep) /\
  exists d,
    trace after_sleep = trace idle ++ d /\
    reader_calls d = [Pause revoked] /\
    spawned d = [(delay, revoked)].
Proof.
  assert (H : Sleep env delay revoked idle = (Ret None, after_sleep))
    by (vm_compute; reflexivity).
  split; [ exact H | ].
  destruct (Sleep_spawns_iff_paused _ _ _ _ _ _ H) as (_ & _ & d & Ht & Hr & Hs).
  exists d. split; [ exact Ht | ]. split; [ exact Hr | exact Hs ].
Defined.

(** The resume task of that [Sleep]. *)
Lemma Sleep_task_only_logs_witness :
  Forall (fun p => Topic p <> None) revoked /\
  Sleep_task env delay revoked idle = (Ret tt, after_task) /\
  exists d,
    trace after_task = trace idle ++ d /\
    reader_calls d = [Resume revoked; GetMetadata (Some "T") false 2000].
Proof.
  assert (H0 : Forall (fun p => Topic p <> None) revoked)
    by (repeat constructor; discriminate).
  assert (H : Sleep_task env delay revoked idle = (Ret tt, after_task))
    by (vm_compute; reflexivity).
  split; [ exact H0 | ]. split; [ exact H | ].
  destruct (Sleep_task_only_logs _ _ _ _ _ _ H) as (_ & _ & _ & Hall).
  destruct (Hall H0) as (_ & d & Ht & Hr).
  exists d. split; [ exact Ht | exact Hr ].
Defined.

(** Inputs that do not end the loop: it waits for more. *)
Lemma listen_loop_ends_witness :
  Forall informational informational_inputs /\
  fst (listen_loop env (consumer 0) informational_inputs tracking) = Blocked.
Proof.
  assert (H0 : Forall informational informational_inputs)
    by (repeat constructor).
  split; [ exact H0 | ].
  destruct (listen_loop env (consumer 0) informational_inputs tracking) as [r w'] eqn:E.
  destruct (listen_loop_ends _ _ _ _ _ _ E) as (Hinf & _).
  destruct (Hinf H0) as [-> | (v & ->)]; [ reflexivity | ].
  vm_compute in E. discriminate.
Defined.

(** The start of the scenario releases the reader once. *)
Lemma Start_releases_reader_witness :
  Start env (consumer 0) one_message idle = (Ret None, stopped) /\
  exists d,
    trace stopped = trace idle ++ d /\
    close_calls d = 1%nat /\ unsubscribe_calls d = 1%nat.
Proof.
  assert (H : Start env (consumer 0) one_message idle = (Ret None, stopped))
    by (vm_compute; reflexivity).
  split; [ exact H | ].
  assert (Hr : @Ret (option error) None <> Blocked) by discriminate.
  exact (Start_releases_reader _ _ _ _ _ _ H Hr).
Defined.

(** A start that ends on the error of [OnProcess]. *)
Lemma Start_error_provenance_witness :
  Start env_process_fails (consumer 0) [message 11] idle
  = (Ret (Some process_error), refused) /\
  exists pre ev post w1 w2 before after,
    [message 11] = pre ++ InEvent ev :: post /\
    Forall (fun j => j <> InCtxDone) pre /\
    dispatch env_process_fails (consumer 0) ev w1 = (Ret (Some process_error), w2) /\
    trace w1 = trace idle ++ before /\
    trace refused = trace w2 ++ after.
Proof.
  assert (H : Start env_process_fails (consumer 0) [message 11] idle
              = (Ret (Some process_error), refused))
    by (vm_compute; reflexivity).
  split; [ exact H | ].
  exact (Start_error_provenance _ _ _ _ _ _ H).
Defined.

(** A consumer that was started and has returned stays closed. *)
Lemma consumer_single_use_witness :
  run_ops env (consumer 0) [OpStart [InCtxDone]] idle = (Ret tt, after_first) /\
  cancelled after_first = true /\
  reader_calls (trace (snd (run_ops env (consumer 0) later_ops after_first)))
  = reader_calls (trace after_first) /\
  callback_calls (trace (snd (run_ops env (consumer 0) later_ops after_first)))
  = callback_calls (trace after_first).
Proof.
  assert (H : run_ops env (consumer 0) [OpStart [InCtxDone]] idle = (Ret tt, after_first))
    by (vm_compute; reflexivity).
  split; [ exact H | ].
  destruct (run_ops env (consumer 0) later_ops after_first) as [r w'] eqn:E.
  exact (consumer_single_use _ _ _ _ _ _ _ _ H E).
Defined.

(** One consumer inside its [Start]: the counter is at one. *)
Lemma Group_wg_counts_goroutines_witness :
  exists s,
    Group.run at_receive (Group.init 1 false) = Some s /\
    Group.workers s = [Group.WRunning] /\
    Group.gwg s = Z.of_nat (sum_list (map live (Group.workers s))) /\
    0 <= Group.gwg s <= Z.of_nat 1.
Proof.
  destruct (Group.run at_receive (Group.init 1 false)) as [s | ] eqn:E;
    [ | vm_compute in E; discriminate ].
  exists s. split; [ reflexivity | ].
  split; [ vm_compute in E; inversion E; reflexivity | ].
  destruct (Group_wg_counts_goroutines 1 false at_receive s E) as (H1 & H2 & _).
  split; assumption.
Defined.

(** The group stopped while [Start] waits at its receive. *)
Lemma Group_Start_returns_once_cancelled_witness :
  exists s,
    Group.run stop_at_receive (Group.init 1 false) = Some s /\
    Group.gctx s = true /\
    exists more s' v,
      Group.run more s = Some s' /\ Group.main s' = Group.MReturned v.
Proof.
  destruct (Group.run stop_at_receive (Group.init 1 false)) as [s | ] eqn:E;
    [ | vm_compute in E; discriminate ].
  assert (Hg : Group.gctx s = true) by (vm_compute in E; inversion E; reflexivity).
  exists s. split; [ reflexivity | ]. split; [ exact Hg | ].
  exact (Group_Start_returns_once_cancelled 1 false stop_at_receive s E Hg).
Defined.

(** A start that ended on the failure of its consumer. *)
Lemma Group_Start_leaves_context_goroutine_witness :
  exists s,
    Group.run worker_first (Group.init 1 false) = Some s /\
    Group.main s = Group.MReturned failure /\
    Group.gctx s = false /\
    Group.canceller s = Group.CWaiting /\
    Group.step Group.ByCanceller s = None /\
    (exists k rest, Group.sends (Group.gtrace s) = (Some k, failure) :: rest).
Proof.
  destruct (Group.run worker_first (Group.init 1 false)) as [s | ] eqn:E;
    [ | vm_compute in E; discriminate ].
  assert (Hm : Group.main s = Group.MReturned failure)
    by (vm_compute in E; inversion E; reflexivity).
  assert (Hg : Group.gctx s = false) by (vm_compute in E; inversion E; reflexivity).
  exists s. split; [ reflexivity | ]. split; [ exact Hm | ]. split; [ exact Hg | ].
  destruct (Group_Start_leaves_context_goroutine 1 false worker_first s failure E Hm Hg)
    as (H1 & H2 & H3 & _).
  split; [ exact H1 | ]. split; [ exact H2 | exact H3 ].
Defined.

(** Four consumers asked for by default, the third cannot be made. *)
Lemma NewGroup_first_failure_witness :
  NewGroup third_fails 0
  = (None, Some (WithMessage "failed to start consumer group" no_broker), seq 0 2).
Proof.
  pose proof (NewGroup_first_failure third_fails 0) as H. cbv zeta in H.
  change (uuid_NewUUID third_fails) with (@None error) in H.
  destruct H as (_ & H).
  apply (H 2%nat no_broker).
  - vm_compute. lia.
  - reflexivity.
  - intros j Hj. destruct j as [ | [ | j]]; [ reflexivity | reflexivity | lia ].
Defined.

(** A confirmed partition without topic is reported under the topic of
    the partition before it. *)
Lemma commitOffsets_topic_carried_witness :
  fst (Get (tracker tracking)) <> [] /\
  commitOffsets env_no_topic (consumer 0) tracking = (Ret tt, after_commit) /\
  exists d,
    trace after_commit = trace tracking ++ d /\
    map (fun call => fst (fst (fst call))) (onCommit_calls d) = ["T"; "T"].
Proof.
  assert (H1 : fst (Get (tracker tracking)) <> []) by (vm_compute; discriminate).
  assert (H2 : commitOffsets env_no_topic (consumer 0) tracking = (Ret tt, after_commit))
    by (vm_compute; reflexivity).
  split; [ exact H1 | ]. split; [ exact H2 | ].
  exact (commitOffsets_topic_carried env_no_topic (consumer 0) tracking after_commit
           _ confirmed eq_refl H1 eq_refl eq_refl H2).
Defined.

(** The consumer of the scenario configures no period: five seconds. *)
Lemma listen_ticker_period_witness :
  exists d,
    trace after_listen = trace idle ++ d /\
    tickers d = [5 * time_Second].
Proof.
  assert (H : listen env (consumer 0) [InCtxDone] idle = (Ret None, after_listen))
    by (vm_compute; reflexivity).
  destruct (listen_ticker_period _ _ _ _ _ _ H) as (_ & d & Ht & Hd).
  exists d. split; [ exact Ht | exact Hd ].
Defined.

End CaseChecks.
